(** * Cassandra2Aerospike: the SSTable merge-iteration engine

    A shallow embedding of the byte-buffer decoders (Buffer.cpp), the
    partitioners (Partitioners.cpp), the pre-MA reader (SSTable.cpp) and the
    merge iterator (CassandraParser.cpp), with the properties of the merge
    proved over it.

    Conventions.  A C++ integer of width w is a [Z] whose wrap-around is
    written out ([to_uint64], [to_int64], ...).  A byte is a [Z] in 0..255,
    a file is a [list Z], and a [std::string] is a [string].  A function that
    can stop the process (a failed [assert], a null dereference) or whose loop
    is run on fuel returns a [result]. *)

From Stdlib Require Import ZArith List String Ascii Bool Lia Arith.
From Stdlib Require Import Sorted OrderedTypeEx Permutation.
Import ListNotations.
Local Open Scope Z_scope.

(** ** Results of fallible code *)

Inductive result (A : Type) : Type :=
| Done (a : A)   (* the call returned *)
| Crash          (* failed assert or null dereference: the process stops *)
| Timeout.       (* the model ran out of fuel *)
Arguments Done {A} a.
Arguments Crash {A}.
Arguments Timeout {A}.

Definition bind {A B : Type} (c : result A) (k : A -> result B) : result B :=
  match c with
  | Done a => k a
  | Crash => Crash
  | Timeout => Timeout
  end.

Notation "'do' x <- c ; k" := (bind c (fun x => k))
  (at level 10, x pattern, c at level 100, k at level 200).

Definition assert (b : bool) : result unit := if b then Done tt else Crash.

(** ** Machine integers *)

Definition to_uint64 (z : Z) : Z := z mod 2 ^ 64.
Definition to_int64 (z : Z) : Z := (z + 2 ^ 63) mod 2 ^ 64 - 2 ^ 63.
Definition to_int32 (z : Z) : Z := (z + 2 ^ 31) mod 2 ^ 32 - 2 ^ 31.
Definition to_int16 (z : Z) : Z := (z + 2 ^ 15) mod 2 ^ 16 - 2 ^ 15.
Definition to_size_t (z : Z) : Z := z mod 2 ^ 64.

(** Big-endian value of a byte sequence (be16toh, be32toh, be64toh). *)
Definition be_value (bs : list Z) : Z :=
  fold_left (fun acc b => acc * 256 + b) bs 0.

(** ** Strings and bytes *)

Definition byte_of_ascii (c : ascii) : Z := Z.of_N (N_of_ascii c).
Definition ascii_of_byte (b : Z) : ascii := ascii_of_N (Z.to_N b).

Fixpoint bytes_of_string (s : string) : list Z :=
  match s with
  | EmptyString => []
  | String c s' => byte_of_ascii c :: bytes_of_string s'
  end.

Fixpoint string_of_bytes (bs : list Z) : string :=
  match bs with
  | [] => EmptyString
  | b :: bs' => String (ascii_of_byte b) (string_of_bytes bs')
  end.

Definition string_empty (s : string) : bool :=
  match s with EmptyString => true | _ => false end.

(** ** Buffer.hpp: the reader contract *)

Class Buffer (B : Type) : Type := {
  read_bytes : B -> Z -> B * option (list Z);
  skip_bytes : B -> Z -> B;
  seek : B -> Z -> B;
  is_eof : B -> bool
}.

(** *** UncompressedBuffer: a FILE* read with fread.

    [fread(buffer, n_bytes, 1, fp)] returns the number of complete items
    read: 1 when [n_bytes] bytes were available, 0 on a short read, and 0
    when [n_bytes] is zero (C11 7.21.8.1).  A short read leaves the position
    at the end of the file. *)

Record UncompressedBuffer : Type := mkUncompressed {
  fp : list Z;
  fp_pos : Z;
  u_iseof : bool
}.

Definition slice (data : list Z) (pos n : Z) : list Z :=
  firstn (Z.to_nat n) (skipn (Z.to_nat pos) data).

Definition fread (b : UncompressedBuffer) (n_bytes : Z) : Z * option (list Z) :=
  let len := Z.of_nat (List.length (fp b)) in
  if n_bytes =? 0 then (fp_pos b, None)
  else if (0 <=? fp_pos b) && (fp_pos b + n_bytes <=? len)
       then (fp_pos b + n_bytes, Some (slice (fp b) (fp_pos b) n_bytes))
       else (Z.max (fp_pos b) len, None).

Definition uncompressed_read_bytes (b : UncompressedBuffer) (n_bytes : Z)
  : UncompressedBuffer * option (list Z) :=
  match fread b (to_size_t n_bytes) with
  | (pos, None) => (mkUncompressed (fp b) pos true, None)
  | (pos, Some bs) => (mkUncompressed (fp b) pos (u_iseof b), Some bs)
  end.

(** [fseek(fp, n_bytes, SEEK_CUR)]: the offset is a [long]; a move before
    the start of the file fails and leaves the position. *)
Definition uncompressed_skip_bytes (b : UncompressedBuffer) (n_bytes : Z)
  : UncompressedBuffer :=
  let pos := fp_pos b + to_int64 n_bytes in
  if pos <? 0 then b else mkUncompressed (fp b) pos (u_iseof b).

Definition uncompressed_seek (b : UncompressedBuffer) (pos : Z)
  : UncompressedBuffer :=
  if pos <? 0 then mkUncompressed (fp b) (fp_pos b) true
  else mkUncompressed (fp b) pos false.

#[export] Instance UncompressedBuffer_Buffer : Buffer UncompressedBuffer := {
  read_bytes := uncompressed_read_bytes;
  skip_bytes := uncompressed_skip_bytes;
  seek := uncompressed_seek;
  is_eof := u_iseof
}.

Definition open_uncompressed (contents : list Z) : UncompressedBuffer :=
  mkUncompressed contents 0 false.

(** *** CompressedBuffer: the logical uncompressed stream.

    [uncompressed] is the stream the chunks decompress to; the chunk table,
    the decompressors and the checksum test (which stops the process on a
    mismatch) are below this model.  [read_bytes] only tests
    [file_offset + n_bytes > uncompressed_len]. *)

Record CompressedBuffer : Type := mkCompressed {
  uncompressed : list Z;
  file_offset : Z;
  c_iseof : bool
}.

Definition uncompressed_len (b : CompressedBuffer) : Z :=
  Z.of_nat (List.length (uncompressed b)).

Definition compressed_read_bytes (b : CompressedBuffer) (n_bytes : Z)
  : CompressedBuffer * option (list Z) :=
  let last_byte_required := to_int64 (file_offset b + to_size_t n_bytes) in
  if last_byte_required >? uncompressed_len b
  then (mkCompressed (uncompressed b) (file_offset b) true, None)
  else (mkCompressed (uncompressed b) last_byte_required (c_iseof b),
        Some (slice (uncompressed b) (file_offset b) n_bytes)).

Definition compressed_skip_bytes (b : CompressedBuffer) (n_bytes : Z)
  : CompressedBuffer :=
  mkCompressed (uncompressed b) (to_int64 (file_offset b + to_size_t n_bytes))
               (c_iseof b).

Definition compressed_seek (b : CompressedBuffer) (pos : Z) : CompressedBuffer :=
  mkCompressed (uncompressed b) pos (c_iseof b).

#[export] Instance CompressedBuffer_Buffer : Buffer CompressedBuffer := {
  read_bytes := compressed_read_bytes;
  skip_bytes := compressed_skip_bytes;
  seek := compressed_seek;
  is_eof := c_iseof
}.

Definition open_compressed (contents : list Z) : CompressedBuffer :=
  mkCompressed contents 0 false.

(** ** Buffer.cpp: the typed decoders *)

Section Decoders.
Context {B : Type} `{Buffer B}.

(** [read_from_buffer<T>]: the raw bytes, or 0 at EOF. *)
Definition read_from_buffer (b : B) (size : Z) : B * list Z :=
  match read_bytes b size with
  | (b', Some data) => (b', data)
  | (b', None) => (b', repeat 0 (Z.to_nat size))
  end.

Definition read_int (b : B) : B * Z :=
  let '(b', data) := read_from_buffer b 4 in (b', to_int32 (be_value data)).

Definition read_short (b : B) : B * Z :=
  let '(b', data) := read_from_buffer b 2 in (b', to_int16 (be_value data)).

Definition read_longlong (b : B) : B * Z :=
  let '(b', data) := read_from_buffer b 8 in (b', to_int64 (be_value data)).

(** [*read_bytes(1)]: a null dereference at EOF. *)
Definition read_byte (b : B) : result (B * Z) :=
  match read_bytes b 1 with
  | (b', Some data) => Done (b', hd 0 data)
  | (_, None) => Crash
  end.

(** The loop counting the leading one bits of the first byte. *)
Fixpoint count_leading_ones (fuel : nat) (firstByte extraBytes : Z) : Z :=
  match fuel with
  | O => extraBytes
  | S fuel' =>
      if (extraBytes <? 8)
         && negb (Z.land firstByte (Z.shiftr 0x80 extraBytes) =? 0)
      then count_leading_ones fuel' firstByte (extraBytes + 1)
      else extraBytes
  end.

Definition read_unsigned_vint (b : B) : B * Z :=
  match read_bytes b 1 with
  | (b1, None) => (b1, 0)
  | (b1, Some first) =>
      let firstByte := hd 0 first in
      if firstByte <? 0x7f then (b1, firstByte)
      else
        let extraBytes := count_leading_ones 8 firstByte 0 in
        let retval := Z.land firstByte (Z.shiftr 0xff extraBytes) in
        match read_bytes b1 extraBytes with
        | (b2, None) => (b2, 0)
        | (b2, Some data) =>
            (b2, fold_left
                   (fun retval d => Z.lor (to_uint64 (Z.shiftl retval 8)) d)
                   data retval)
        end
  end.

(** [int64_t n = read_unsigned_vint(); return (n << 1) ^ (n >> 63);] *)
Definition read_vint (b : B) : B * Z :=
  let '(b', u) := read_unsigned_vint b in
  let n := to_int64 u in
  (b', Z.lxor (to_int64 (Z.shiftl n 1)) (Z.shiftr n 63)).

(** A negative length converts to a [size_t] near 2^64: the allocation in
    [UncompressedBuffer::read_bytes] or the [std::string] built from the
    bytes throws, and nothing catches it. *)
Definition read_string (b : B) : result (B * string) :=
  let '(b1, len) := read_short b in
  if is_eof b1 then Done (b1, EmptyString)
  else if len <? 0 then Crash
  else match read_bytes b1 len with
       | (b2, None) => Done (b2, EmptyString)
       | (b2, Some data) => Done (b2, string_of_bytes data)
       end.

Definition read_vint_length_string (b : B) : result (B * string) :=
  let '(b1, u) := read_unsigned_vint b in
  let len := to_int64 u in
  if is_eof b1 then Done (b1, EmptyString)
  else if len <? 0 then Crash
  else match read_bytes b1 len with
       | (b2, None) => Done (b2, EmptyString)
       | (b2, Some data) => Done (b2, string_of_bytes data)
       end.

(** [read_data]: the 32-bit-length-prefixed blob; [None] when it returns
    false and leaves the output untouched. *)
Definition read_data (b : B) : result (B * option string) :=
  let '(b1, len) := read_int b in
  if is_eof b1 then Done (b1, None)
  else if len <? 0 then Crash
  else match read_bytes b1 len with
       | (b2, None) => Done (b2, None)
       | (b2, Some data) => Done (b2, Some (string_of_bytes data))
       end.

Definition skip_data (b : B) : B :=
  let '(b1, len) := read_int b in skip_bytes b1 len.

End Decoders.

(** ** The unsigned-varint format, as the specification words it

    The number of leading one bits of the first byte is the number of extra
    bytes; the remaining low bits of the first byte carry the high part of
    the value and the extra bytes follow big-endian.  The encoder uses the
    fewest bytes: [extra] is the least e with v < 2^(7(e+1)), and 8 from
    2^56 on. *)

Fixpoint vint_extra_bytes (fuel : nat) (v : Z) (e : Z) : Z :=
  match fuel with
  | O => e
  | S fuel' => if v <? 2 ^ (7 * (e + 1)) then e
               else vint_extra_bytes fuel' v (e + 1)
  end.

Fixpoint be_bytes (n : nat) (v : Z) : list Z :=
  match n with
  | O => []
  | S n' => Z.land (Z.shiftr v (8 * Z.of_nat n')) 0xff :: be_bytes n' v
  end.

Definition encode_unsigned_vint (v : Z) : list Z :=
  let e := vint_extra_bytes 8 v 0 in
  let prefix := Z.land (Z.shiftl 0xff (8 - e)) 0xff in
  Z.lor prefix (Z.land (Z.shiftr v (8 * e)) (Z.shiftr 0xff e))
    :: be_bytes (Z.to_nat e) v.

(** The zigzag transform of a signed 64-bit integer, as an unsigned one. *)
Definition zigzag (v : Z) : Z :=
  to_uint64 (Z.lxor (Z.shiftl v 1) (Z.shiftr v 63)).

Definition sampled_vints : list Z :=
  [0; 126; 127; 128; 16383; 16384; 2 ^ 56 - 1; 2 ^ 56; 2 ^ 63 - 1].

(** ** Partitioners.cpp *)

(** [CassandraParser::Token]: sixteen bytes. *)
Definition Token : Type := list Z.

(** [std::memcmp] over the first [n] characters; only the sign of its result
    is specified, and -1, 0, 1 stand for it. *)
Fixpoint memcmp (a b : string) (n : nat) : Z :=
  match n with
  | O => 0
  | S n' =>
      match a, b with
      | String ca a', String cb b' =>
          if byte_of_ascii ca <? byte_of_ascii cb then -1
          else if byte_of_ascii cb <? byte_of_ascii ca then 1
          else memcmp a' b' n'
      | _, _ => 0
      end
  end.

Definition size (s : string) : Z := Z.of_nat (String.length s).

Definition compare_keys (keyA keyB : string) : Z :=
  let content_cmp :=
    memcmp keyA keyB (Nat.min (String.length keyA) (String.length keyB)) in
  if negb (content_cmp =? 0) then content_cmp
  else to_int32 (size keyA) - to_int32 (size keyB).

Record Partitioner : Type := mkPartitioner {
  assign_token : Token -> string -> Token;
  compare_token : Token -> string -> Token -> string -> Z
}.

Definition ByteOrderPartitioner : Partitioner := {|
  assign_token := fun token _ => token;
  compare_token := fun _ keyA _ keyB => compare_keys keyA keyB
|}.

(** [keyA.compare(keyB)]. *)
Definition OrderPreservingPartitioner : Partitioner := {|
  assign_token := fun token _ => token;
  compare_token := fun _ keyA _ keyB =>
    match String.compare keyA keyB with Lt => -1 | Eq => 0 | Gt => 1 end
|}.

(** ** CassandraParser.hpp: ColumnInfo

    [extra_data] is the union: the eight bytes hold either
    [counter_timestamp] or, little-endian, [expiration.ttl] in the low word
    and [expiration.expiration] in the high word. *)

Record ColumnInfo : Type := mkColumnInfo {
  deleted : bool;
  expiring : bool;
  range_tombstone : bool;
  name : string;
  ts : Z;
  extra_data : Z;
  data : string
}.

Definition ColumnInfo_init : ColumnInfo :=
  mkColumnInfo false false false EmptyString 0 0 EmptyString.

Definition clear_flags (c : ColumnInfo) : ColumnInfo :=
  mkColumnInfo false false false (name c) (ts c) (extra_data c) (data c).

Definition expiration_ttl (c : ColumnInfo) : Z :=
  to_int32 (to_uint64 (extra_data c) mod 2 ^ 32).
Definition expiration_expiration (c : ColumnInfo) : Z :=
  to_int32 (to_uint64 (extra_data c) / 2 ^ 32).

Definition set_name (c : ColumnInfo) (n : string) : ColumnInfo :=
  mkColumnInfo (deleted c) (expiring c) (range_tombstone c) n (ts c)
               (extra_data c) (data c).
Definition set_deleted (c : ColumnInfo) (d : bool) : ColumnInfo :=
  mkColumnInfo d (expiring c) (range_tombstone c) (name c) (ts c)
               (extra_data c) (data c).
Definition set_expiring (c : ColumnInfo) (e : bool) : ColumnInfo :=
  mkColumnInfo (deleted c) e (range_tombstone c) (name c) (ts c)
               (extra_data c) (data c).
Definition set_range_tombstone (c : ColumnInfo) (r : bool) : ColumnInfo :=
  mkColumnInfo (deleted c) (expiring c) r (name c) (ts c)
               (extra_data c) (data c).
Definition set_ts (c : ColumnInfo) (t : Z) : ColumnInfo :=
  mkColumnInfo (deleted c) (expiring c) (range_tombstone c) (name c) t
               (extra_data c) (data c).
Definition set_data (c : ColumnInfo) (d : string) : ColumnInfo :=
  mkColumnInfo (deleted c) (expiring c) (range_tombstone c) (name c) (ts c)
               (extra_data c) d.
Definition set_counter_timestamp (c : ColumnInfo) (t : Z) : ColumnInfo :=
  mkColumnInfo (deleted c) (expiring c) (range_tombstone c) (name c) (ts c)
               t (data c).
Definition set_ttl (c : ColumnInfo) (t : Z) : ColumnInfo :=
  set_counter_timestamp c
    (to_int64 (to_uint64 (extra_data c) / 2 ^ 32 * 2 ^ 32 + t mod 2 ^ 32)).
Definition set_expiration (c : ColumnInfo) (e : Z) : ColumnInfo :=
  set_counter_timestamp c
    (to_int64 (e mod 2 ^ 32 * 2 ^ 32 + to_uint64 (extra_data c) mod 2 ^ 32)).

(** ** SSTable.hpp, SSTable.cpp *)

Definition STILL_ACTIVE : Z := to_int64 0x8000000000000000.

Definition VERSION_STRING_TO_VERSION (a b : ascii) : Z :=
  (byte_of_ascii a - byte_of_ascii "a") * 26
  + (byte_of_ascii b - byte_of_ascii "a").

Definition VERSION_MA : Z := VERSION_STRING_TO_VERSION "m" "a".
Definition VERSION_LA : Z := VERSION_STRING_TO_VERSION "l" "a".
Definition VERSION_KA : Z := VERSION_STRING_TO_VERSION "k" "a".
Definition VERSION_JB : Z := VERSION_STRING_TO_VERSION "j" "b".
Definition VERSION_JA : Z := VERSION_STRING_TO_VERSION "j" "a".
Definition VERSION_D : Z := VERSION_STRING_TO_VERSION "d" "a".

Inductive FSM : Type := READ_ROW | READ_COLUMN | READ_COLUMN_DATA.

Definition FSM_eqb (a b : FSM) : bool :=
  match a, b with
  | READ_ROW, READ_ROW | READ_COLUMN, READ_COLUMN
  | READ_COLUMN_DATA, READ_COLUMN_DATA => true
  | _, _ => false
  end.

(** [TableConfig], with the files found under [path]: what [path-Data.db]
    decompresses to and the bytes of [path-Index.db] and [path-Summary.db]
    ([None] when the file cannot be opened). *)
Record TableConfig : Type := mkTableConfig {
  path : string;
  version : Z;
  data_db : option (list Z);
  index_db : option (list Z);
  summary_db : option (list Z)
}.

Definition DELETION_MASK : Z := 0x01.
Definition EXPIRATION_MASK : Z := 0x02.
Definition COUNTER_MASK : Z := 0x04.
Definition RANGE_TOMBSTONE_MASK : Z := 0x10.

(** *** OldSStable: the format in use before MA

    [data_buffer] is the buffer the shared pointer refers to, [None] for a
    null pointer; a buffer that is not [good()] is kept as [None] too,
    since reading through it is undefined. *)

Record OldSStable : Type := mkOldSStable {
  data_buffer : option CompressedBuffer;
  next_key_value : string;
  next_token_value : Token;
  row_marked_for_deletion : Z;
  start_offset : Z;
  next_column_info : ColumnInfo;
  fsm : FSM;
  config : TableConfig;
  remaining_columns : Z
}.

Definition OldSStable_new (c : TableConfig) (token : Token) : OldSStable :=
  mkOldSStable None EmptyString token 0 0 ColumnInfo_init READ_ROW c 0.

Definition with_buffer (t : OldSStable) (b : CompressedBuffer) : OldSStable :=
  mkOldSStable (Some b) (next_key_value t) (next_token_value t)
    (row_marked_for_deletion t) (start_offset t) (next_column_info t) (fsm t)
    (config t) (remaining_columns t).
Definition with_key (t : OldSStable) (k : string) : OldSStable :=
  mkOldSStable (data_buffer t) k (next_token_value t)
    (row_marked_for_deletion t) (start_offset t) (next_column_info t) (fsm t)
    (config t) (remaining_columns t).
Definition with_token (t : OldSStable) (k : Token) : OldSStable :=
  mkOldSStable (data_buffer t) (next_key_value t) k
    (row_marked_for_deletion t) (start_offset t) (next_column_info t) (fsm t)
    (config t) (remaining_columns t).
Definition with_deletion (t : OldSStable) (d : Z) : OldSStable :=
  mkOldSStable (data_buffer t) (next_key_value t) (next_token_value t)
    d (start_offset t) (next_column_info t) (fsm t)
    (config t) (remaining_columns t).
Definition with_start_offset (t : OldSStable) (o : Z) : OldSStable :=
  mkOldSStable (data_buffer t) (next_key_value t) (next_token_value t)
    (row_marked_for_deletion t) o (next_column_info t) (fsm t)
    (config t) (remaining_columns t).
Definition with_column (t : OldSStable) (c : ColumnInfo) : OldSStable :=
  mkOldSStable (data_buffer t) (next_key_value t) (next_token_value t)
    (row_marked_for_deletion t) (start_offset t) c (fsm t)
    (config t) (remaining_columns t).
Definition with_fsm (t : OldSStable) (f : FSM) : OldSStable :=
  mkOldSStable (data_buffer t) (next_key_value t) (next_token_value t)
    (row_marked_for_deletion t) (start_offset t) (next_column_info t) f
    (config t) (remaining_columns t).
Definition with_remaining (t : OldSStable) (r : Z) : OldSStable :=
  mkOldSStable (data_buffer t) (next_key_value t) (next_token_value t)
    (row_marked_for_deletion t) (start_offset t) (next_column_info t) (fsm t)
    (config t) r.

(** [data_buffer->...]: a null pointer stops the process. *)
Definition buffer_of (t : OldSStable) : result CompressedBuffer :=
  match data_buffer t with
  | Some b => Done b
  | None => Crash
  end.

(** [SStable::open]. *)
Definition OldSStable_open (t : OldSStable) : OldSStable * bool :=
  match data_db (config t) with
  | Some contents =>
      (with_fsm (with_buffer t (seek (open_compressed contents) (start_offset t)))
                READ_ROW, true)
  | None =>
      (with_fsm (mkOldSStable None (next_key_value t) (next_token_value t)
                   (row_marked_for_deletion t) (start_offset t)
                   (next_column_info t) (fsm t) (config t)
                   (remaining_columns t)) READ_ROW, false)
  end.

(** [SStable::close]. *)
Definition OldSStable_close (t : OldSStable) : OldSStable :=
  mkOldSStable None (next_key_value t) (next_token_value t)
    (row_marked_for_deletion t) (start_offset t) (next_column_info t) (fsm t)
    (config t) (remaining_columns t).

(** The loop of [read_column] that strips a compound path to its last
    element.  [buffer_len] drops by at least three a turn, so the length of
    the name is enough fuel. *)
Fixpoint strip_path (fuel : nat) (nm : list Z) (buffer_len : Z) : list Z :=
  match fuel with
  | O => nm
  | S fuel' =>
      if buffer_len >=? 2 then
        let advanced := Z.of_nat (List.length nm) - buffer_len in
        let bytes := skipn (Z.to_nat advanced) nm in
        let len := Z.lor (Z.shiftl (nth 0 bytes 0) 8) (nth 1 bytes 0) in
        if buffer_len >? len + 3 then strip_path fuel' nm (buffer_len - (len + 3))
        else if buffer_len =? len + 3
             then slice nm (advanced + 2) len
             else nm
      else nm
  end.

Definition strip_compound_name (nm : string) : string :=
  let bs := bytes_of_string nm in
  string_of_bytes (strip_path (List.length bs) bs (Z.of_nat (List.length bs))).

Definition flag_set (flags mask : Z) : bool := negb (Z.land flags mask =? 0).

(** [OldSStable::read_column], in the order of its statements: the skip of
    an unread payload, the column count of the versions before JA, the
    name, and the cell that follows a name that is not empty. *)
Definition skip_unread_data (t : OldSStable) : result OldSStable :=
  if FSM_eqb (fsm t) READ_COLUMN_DATA
  then do b <- buffer_of t;
       Done (with_fsm (with_buffer t (skip_data b)) READ_COLUMN)
  else Done t.

Definition read_cell (t : OldSStable) (b : CompressedBuffer)
  : result (OldSStable * bool) :=
  do (b, flags) <- read_byte b;
  let t := with_column (with_buffer t b)
             (set_deleted (next_column_info t) (flag_set flags DELETION_MASK)) in
  if flag_set flags RANGE_TOMBSTONE_MASK then
    do (b, range_end) <- read_string b;
    let b := skip_bytes b 4 in
    let '(b, stamp) := read_longlong b in
    Done (with_column (with_buffer t b)
            (set_range_tombstone
               (set_ts (set_data (next_column_info t) range_end) stamp) true),
          true)
  else
    let '(b, c) :=
      if flag_set flags COUNTER_MASK then
        let '(b, v) := read_longlong b in
        (b, set_counter_timestamp (next_column_info t) v)
      else if flag_set flags EXPIRATION_MASK then
        let '(b, ttl) := read_int b in
        let '(b, expiration) := read_int b in
        (b, set_expiring (set_expiration (set_ttl (next_column_info t) ttl)
                                         expiration) true)
      else (b, next_column_info t) in
    let '(b, stamp) := read_longlong b in
    Done (with_fsm (with_column (with_buffer t b) (set_ts c stamp))
                   READ_COLUMN_DATA, true).

Definition read_name (t : OldSStable) : result (OldSStable * bool) :=
  do b <- buffer_of t;
  do (b, nm) <- read_string b;
  let t := with_column (with_buffer t b) (set_name (next_column_info t) nm) in
  if string_empty nm then Done (with_fsm t READ_ROW, false)
  else read_cell (with_column t (set_name (next_column_info t)
                                          (strip_compound_name nm))) b.

Definition OldSStable_read_column (t : OldSStable) : result (OldSStable * bool) :=
  do t <- skip_unread_data t;
  do _ <- assert (FSM_eqb (fsm t) READ_COLUMN);
  let t := with_column t (clear_flags (next_column_info t)) in
  if version (config t) <? VERSION_JA then
    if remaining_columns t >? 0
    then read_name (with_remaining t (remaining_columns t - 1))
    else Done (with_column t (set_name (next_column_info t) EmptyString), false)
  else read_name t.

(** [OldSStable::read_row]; true at the end of the data file. *)
Definition OldSStable_read_row (partitioner : Partitioner) (t : OldSStable)
  : result (OldSStable * bool) :=
  do _ <- assert (FSM_eqb (fsm t) READ_ROW);
  do b <- buffer_of t;
  do (b, key) <- read_string b;
  let t := with_key (with_buffer t b) key in
  if is_eof b then Done (t, true)
  else
    let t := with_token t (assign_token partitioner (next_token_value t) key) in
    let b := if version (config t) <? VERSION_D then skip_bytes b 4
             else if version (config t) <? VERSION_JA then skip_bytes b 8
             else b in
    let b := skip_bytes b 4 in
    let '(b, deletion) := read_longlong b in
    let t := with_deletion t deletion in
    let '(b, t) := if version (config t) <? VERSION_JA
                   then let '(b, n) := read_int b in
                        (b, with_remaining t (to_size_t n))
                   else (b, t) in
    let t := with_fsm (with_buffer t b) READ_COLUMN in
    do (t, _) <- OldSStable_read_column t;
    do b <- buffer_of t;
    Done (t, is_eof b).

(** [OldSStable::read_column_data]; [out] is the caller's string. *)
Definition OldSStable_read_column_data (t : OldSStable) (out : string)
  : result (OldSStable * string * bool) :=
  do _ <- assert (FSM_eqb (fsm t) READ_COLUMN_DATA);
  do b <- buffer_of t;
  do (b, read) <- read_data b;
  let t := with_fsm (with_buffer t b) READ_COLUMN in
  match read with
  | Some value => Done (t, value, true)
  | None => Done (t, out, false)
  end.

(** *** The SStable interface (the virtual class the iterator works on) *)

Class SStable (R : Type) : Type := {
  next_token : R -> Token;
  next_key : R -> string;
  marked_for_deletion : R -> Z;
  next_column : R -> ColumnInfo;
  open : R -> R * bool;
  close : R -> R;
  read_row : Partitioner -> R -> result (R * bool);
  read_column : R -> result (R * bool);
  read_column_data : R -> string -> result (R * string * bool)
}.

#[export] Instance OldSStable_SStable : SStable OldSStable := {
  next_token := next_token_value;
  next_key := next_key_value;
  marked_for_deletion := row_marked_for_deletion;
  next_column := next_column_info;
  open := OldSStable_open;
  close := OldSStable_close;
  read_row := OldSStable_read_row;
  read_column := OldSStable_read_column;
  read_column_data := OldSStable_read_column_data
}.

(** ** CassandraParser.hpp: the sink and the containers of the iterator *)

(** The calls made on the [DatabaseRow] sink, in order. *)
Inductive Event : Type :=
| new_row (key : string)
| new_column (column_name column_value : string) (stamp : Z)
| new_column_with_ttl (column_name column_value : string) (stamp : Z)
                      (ttl ttlTimestampSecs : Z).

Definition is_new_row (e : Event) : bool :=
  match e with new_row _ => true | _ => false end.

Definition to_uint32 (z : Z) : Z := z mod 2 ^ 32.

(** [std::set<size_t>]: a strictly increasing list. *)
Fixpoint set_insert (x : nat) (s : list nat) : list nat :=
  match s with
  | [] => [x]
  | y :: s' => if (x <? y)%nat then x :: s
               else if (x =? y)%nat then s
               else y :: set_insert x s'
  end.

Fixpoint set_erase (x : nat) (s : list nat) : list nat :=
  match s with
  | [] => []
  | y :: s' => if (x =? y)%nat then s' else y :: set_erase x s'
  end.

(** [std::map<std::string, int64_t>]: a list of entries with strictly
    increasing keys under [std::string]'s [operator<]. *)
Definition string_lt (a b : string) : bool :=
  match String.compare a b with Lt => true | _ => false end.

Fixpoint map_find (k : string) (m : list (string * Z)) : option Z :=
  match m with
  | [] => None
  | (k', v) :: m' => if String.eqb k k' then Some v else map_find k m'
  end.

(** [m[k] = v]. *)
Fixpoint map_assign (k : string) (v : Z) (m : list (string * Z))
  : list (string * Z) :=
  match m with
  | [] => [(k, v)]
  | (k', v') :: m' =>
      if string_lt k k' then (k, v) :: m
      else if String.eqb k k' then (k, v) :: m'
      else (k', v') :: map_assign k v m'
  end.

(** [m.lower_bound(k)]: the entries from the first key not less than [k]. *)
Fixpoint lower_bound (k : string) (m : list (string * Z)) : list (string * Z) :=
  match m with
  | [] => []
  | (k', v) :: m' => if string_lt k' k then lower_bound k m' else m
  end.

(** [std::strcmp] on [c_str()]: the comparison stops at the first NUL. *)
Fixpoint c_str (s : string) : string :=
  match s with
  | EmptyString => EmptyString
  | String c s' => if (byte_of_ascii c =? 0) then EmptyString
                   else String c (c_str s')
  end.

Definition strcmp (a b : string) : Z :=
  match String.compare (c_str a) (c_str b) with Lt => -1 | Eq => 0 | Gt => 1 end.

(** ** CassandraParser.cpp: the merge iterator *)

Section Iterator.
Context {R : Type} `{SStable R}.
(** [m_parser.m_pPartitioner] *)
Variable partitioner : Partitioner.

Record iterator : Type := mkIterator {
  m_next_table : nat;
  m_active_tables : list nat;
  m_tables : list R;
  m_skippedRecords : Z;
  m_cassandraReadRecords : Z
}.

(** [m_tables[index]]; an index past the end is undefined behaviour. *)
Definition table_at (tables : list R) (index : nat) : result R :=
  match nth_error tables index with
  | Some t => Done t
  | None => Crash
  end.

Fixpoint set_nth (tables : list R) (index : nat) (t : R) : list R :=
  match tables, index with
  | [], _ => []
  | _ :: rest, O => t :: rest
  | x :: rest, S i => x :: set_nth rest i t
  end.

Definition with_table (it : iterator) (index : nat) (t : R) : iterator :=
  mkIterator (m_next_table it) (m_active_tables it)
             (set_nth (m_tables it) index t)
             (m_skippedRecords it) (m_cassandraReadRecords it).
Definition with_active (it : iterator) (a : list nat) : iterator :=
  mkIterator (m_next_table it) a (m_tables it)
             (m_skippedRecords it) (m_cassandraReadRecords it).
Definition with_next_table (it : iterator) (n : nat) : iterator :=
  mkIterator n (m_active_tables it) (m_tables it)
             (m_skippedRecords it) (m_cassandraReadRecords it).
Definition with_skipped (it : iterator) (n : Z) : iterator :=
  mkIterator (m_next_table it) (m_active_tables it) (m_tables it)
             n (m_cassandraReadRecords it).
Definition with_read (it : iterator) (n : Z) : iterator :=
  mkIterator (m_next_table it) (m_active_tables it) (m_tables it)
             (m_skippedRecords it) n.

(** The constructor taking the sorted tables. *)
Definition iterator_new (tables : list R) : iterator :=
  mkIterator 0 [] tables 0 0.

(** [match_table]: [matches] holds the first [n_matches] entries of the
    array. *)
Definition match_table (tables : list R) (matches : list nat) (index : nat)
  : result (list nat * bool) :=
  do t <- table_at tables index;
  do comparison <-
     match matches with
     | [] => Done (-1)
     | m0 :: _ =>
         do smallest_table <- table_at tables m0;
         Done (compare_token partitioner (next_token t) (next_key t)
                 (next_token smallest_table) (next_key smallest_table))
     end;
  if comparison <? 0 then Done ([index], true)
  else if comparison =? 0 then Done (matches ++ [index], true)
  else Done (matches, false).

Definition activate_table (it : iterator) (index : nat) : result iterator :=
  do t <- table_at (m_tables it) index;
  let '(t, opened) := open t in
  if opened then
    do (t, eof) <- read_row partitioner t;
    let it := with_table it index t in
    if eof then Done it
    else Done (with_active it (set_insert index (m_active_tables it)))
  else Done (with_table it index t).

Definition deactivate_table (it : iterator) (index : nat) : result iterator :=
  do t <- table_at (m_tables it) index;
  let it := with_table it index (close t) in
  Done (with_active it (set_erase index (m_active_tables it))).

(** The first loop of [find_first_row_matches], over the active set. *)
Fixpoint match_active (tables : list R) (active : list nat)
                      (matches : list nat) : result (list nat) :=
  match active with
  | [] => Done matches
  | index :: rest =>
      do (matches, _) <- match_table tables matches index;
      match_active tables rest matches
  end.

(** Its second loop, which opens further tables; it runs at most once per
    table not yet opened. *)
Fixpoint open_more_tables (n : nat) (it : iterator) (matches : list nat)
  : result (iterator * list nat) :=
  match n with
  | O => Done (it, matches)
  | S n' =>
      if (m_next_table it <? List.length (m_tables it))%nat then
        do (matches', matched) <-
           match_table (m_tables it) matches (m_next_table it);
        if matched then
          do it' <- activate_table (with_next_table it (S (m_next_table it)))
                                   (m_next_table it);
          open_more_tables n' it' matches'
        else Done (it, matches')
      else Done (it, matches)
  end.

Definition find_first_row_matches (it : iterator)
  : result (iterator * list nat) :=
  do matches <- match_active (m_tables it) (m_active_tables it) [];
  do (it, matches) <-
     open_more_tables (List.length (m_tables it) - m_next_table it) it matches;
  do _ <- assert (negb (Nat.eqb (List.length matches) 0)
                  || Nat.eqb (List.length (m_active_tables it)) 0);
  Done (it, matches).

(** [find_first_column_matches]: the loop state is the string [pMinString]
    points to and the matches so far. *)
Fixpoint first_column_loop (tables : list R) (matches : list nat)
         (pMinString : option string) (matched_columns : list nat)
  : result (list nat) :=
  match matches with
  | [] => Done matched_columns
  | this_column :: rest =>
      do t <- table_at tables this_column;
      let this_identifier := name (next_column t) in
      let comparision :=
        match pMinString with
        | None => -1
        | Some m => strcmp this_identifier m
        end in
      if comparision <? 0
      then first_column_loop tables rest (Some this_identifier) [this_column]
      else if comparision =? 0
      then first_column_loop tables rest pMinString
                             (matched_columns ++ [this_column])
      else first_column_loop tables rest pMinString matched_columns
  end.

Definition find_first_column_matches (tables : list R) (matches : list nat)
  : result (list nat) :=
  first_column_loop tables matches None [].

(** [choose_latest_match]; the index of the table it returns. *)
Fixpoint latest_loop (tables : list R) (rest : list nat)
         (lastTs : Z) (lastTs_index : nat) : result nat :=
  match rest with
  | [] => Done lastTs_index
  | this_index :: rest' =>
      do t <- table_at tables this_index;
      let thisTs := ts (next_column t) in
      if thisTs >? lastTs then latest_loop tables rest' thisTs this_index
      else latest_loop tables rest' lastTs lastTs_index
  end.

Definition choose_latest_match (tables : list R) (matched_columns : list nat)
  : result nat :=
  match matched_columns with
  | [] => Crash
  | lastTs_index :: rest =>
      do t <- table_at tables lastTs_index;
      latest_loop tables rest (ts (next_column t)) lastTs_index
  end.

(** [update_tombstones]: its first loop folds the pending range
    tombstones of the row matches into the map. *)
Fixpoint fold_tombstones (tables : list R) (matches : list nat)
         (tombstones : list (string * Z)) (minTime : Z)
  : result (list (string * Z) * Z) :=
  match matches with
  | [] => Done (tombstones, minTime)
  | this_column :: rest =>
      do t <- table_at tables this_column;
      if range_tombstone (next_column t) then
        let stamp := ts (next_column t) in
        let range_end := data (next_column t) in
        let tombstones :=
          match map_find range_end tombstones with
          | None => map_assign range_end stamp tombstones
          | Some found => if found <? stamp
                          then map_assign range_end stamp tombstones
                          else tombstones
          end in
        let minTime := if (minTime =? STILL_ACTIVE) || (minTime <? stamp)
                       then stamp else minTime in
        fold_tombstones tables rest tombstones minTime
      else fold_tombstones tables rest tombstones minTime
  end.

(** The loop recomputing [minTime] over the surviving tombstones. *)
Fixpoint recalculate (tombstones : list (string * Z)) (minTime : Z) : Z :=
  match tombstones with
  | [] => minTime
  | (_, stamp) :: rest =>
      recalculate rest (if (minTime =? STILL_ACTIVE) || (minTime <? stamp)
                        then stamp else minTime)
  end.

(** The second half: erase what lies before [lower_bound(name)]. *)
Definition erase_passed (tombstones : list (string * Z)) (minTime : Z)
           (marked : Z) (nm : string) : list (string * Z) * Z :=
  let bound := lower_bound nm tombstones in
  if Nat.eqb (List.length bound) (List.length tombstones)
  then (tombstones, minTime)
  else (bound, recalculate bound marked).

Definition update_tombstones (tables : list R) (tombstones : list (string * Z))
           (minTime : Z) (matches : list nat) (marked : Z) (nm : string)
  : result (list (string * Z) * Z) :=
  do (tombstones, minTime) <- fold_tombstones tables matches tombstones minTime;
  Done (erase_passed tombstones minTime marked nm).

(** [*position = matches[--n_matches]] with [position] the result of
    [std::find]: the last entry takes the place of [index]. *)
Fixpoint replace_first (index last : nat) (matches : list nat) : list nat :=
  match matches with
  | [] => []
  | m :: rest => if Nat.eqb m index then last :: rest
                 else m :: replace_first index last rest
  end.

Definition remove_match (matches : list nat) (index : nat) : list nat :=
  let n_matches := pred (List.length matches) in
  firstn n_matches (replace_first index (nth n_matches matches O) matches).

(** The loop computing [marked_for_deletion] over the row matches. *)
Fixpoint row_deletion (tables : list R) (matches : list nat) (marked : Z)
  : result Z :=
  match matches with
  | [] => Done marked
  | m :: rest =>
      do t <- table_at tables m;
      let this_deletion := marked_for_deletion t in
      if negb (this_deletion =? STILL_ACTIVE)
         && ((marked =? STILL_ACTIVE) || (marked <? this_deletion))
      then row_deletion tables rest this_deletion
      else row_deletion tables rest marked
  end.

(** The test guarding the delivery of the chosen cell. *)
Definition is_live (nm : string) (nextColumn : ColumnInfo) (minTime : Z) : bool :=
  negb (string_empty nm) && negb (deleted nextColumn)
  && ((minTime =? STILL_ACTIVE) || (minTime <? ts nextColumn)).

(** The body of that test: read the payload and call the sink. *)
Definition deliver (it : iterator) (first latest : nat)
  : result (iterator * Event) :=
  do t <- table_at (m_tables it) latest;
  do (t, value, _) <- read_column_data t EmptyString;
  let it := with_table it latest t in
  do t0 <- table_at (m_tables it) first;
  let nm := name (next_column t0) in
  let nextColumn := next_column t in
  if expiring nextColumn
  then Done (it, new_column_with_ttl nm value (ts nextColumn)
                   (to_uint32 (expiration_ttl nextColumn))
                   (to_uint32 (expiration_expiration nextColumn)))
  else Done (it, new_column nm value (ts nextColumn)).

(** "For each matched column, move on." *)
Fixpoint advance (it : iterator) (matches matched_columns : list nat)
  : result (iterator * list nat) :=
  match matched_columns with
  | [] => Done (it, matches)
  | index :: rest =>
      do t <- table_at (m_tables it) index;
      do (t, more) <- read_column t;
      let it := with_table it index t in
      if more then advance it matches rest
      else
        let matches := remove_match matches index in
        do (t, eof) <- read_row partitioner t;
        let it := with_table it index t in
        do it <- (if eof then deactivate_table it index else Done it);
        advance it matches rest
  end.

(** One turn of the column loop of [next_record]; [None] when
    [find_first_column_matches] returns 0 and the loop ends. *)
Definition column_step (it : iterator) (matches : list nat)
           (tombstones : list (string * Z)) (minTime marked : Z)
  : result (option (iterator * list nat * list (string * Z) * Z * list Event)) :=
  do matched_columns <- find_first_column_matches (m_tables it) matches;
  match matched_columns with
  | [] => Done None
  | first :: _ =>
      do t0 <- table_at (m_tables it) first;
      let nm := name (next_column t0) in
      do (tombstones, minTime) <-
         update_tombstones (m_tables it) tombstones minTime matches marked nm;
      do latest <- choose_latest_match (m_tables it) matched_columns;
      do lastest_table <- table_at (m_tables it) latest;
      do (it, events) <-
         (if is_live nm (next_column lastest_table) minTime
          then do (it, e) <- deliver it first latest; Done (it, [e])
          else Done (it, []));
      do (it, matches) <- advance it matches matched_columns;
      Done (Some (it, matches, tombstones, minTime, events))
  end.

Fixpoint column_loop (fuel : nat) (it : iterator) (matches : list nat)
         (tombstones : list (string * Z)) (minTime marked : Z)
  : result (iterator * list Event) :=
  match fuel with
  | O => Timeout
  | S fuel' =>
      do step <- column_step it matches tombstones minTime marked;
      match step with
      | None => Done (it, [])
      | Some (it, matches, tombstones, minTime, events) =>
          do (it, more) <- column_loop fuel' it matches tombstones minTime marked;
          Done (it, events ++ more)
      end
  end.

(** [next_record]: the sink calls it makes and its result.  [has_columns]
    is true when a column callback was made. *)
Definition has_columns (events : list Event) : bool :=
  negb (Nat.eqb (List.length events) 0).

Definition next_record (fuel : nat) (it : iterator)
  : result (iterator * list Event * bool) :=
  do (it, matches) <- find_first_row_matches it;
  match matches with
  | [] => Done (it, [], false)
  | m0 :: _ =>
      do t0 <- table_at (m_tables it) m0;
      let row := new_row (next_key t0) in
      do marked <- row_deletion (m_tables it) matches STILL_ACTIVE;
      do (it, columns) <- column_loop fuel it matches [] marked marked;
      let it := with_read it (to_size_t (m_cassandraReadRecords it + 1)) in
      if negb (marked =? STILL_ACTIVE) && negb (has_columns columns)
      then Done (with_skipped it (to_size_t (m_skippedRecords it + 1)),
                 row :: columns, false)
      else Done (it, row :: columns, true)
  end.

(** [next]: each turn of its do-while loop costs one unit of fuel, and the
    same fuel bounds the column loop of each record. *)
Fixpoint next (fuel : nat) (it : iterator)
  : result (iterator * list Event * bool) :=
  match fuel with
  | O => Timeout
  | S fuel' =>
      do it1 <-
         (if Nat.eqb (List.length (m_active_tables it)) 0 then
            if (List.length (m_tables it) <=? m_next_table it)%nat
            then Done None
            else do it' <- activate_table
                             (with_next_table it (S (m_next_table it)))
                             (m_next_table it);
                 Done (Some it')
          else Done (Some it));
      match it1 with
      | None => Done (it, [], false)
      | Some it1 =>
          do (it2, events, live) <- next_record fuel it1;
          if live then Done (it2, events, true)
          else do (it3, more, r) <- next fuel' it2;
               Done (it3, events ++ more, r)
      end
  end.

End Iterator.

Arguments iterator R : clear implicits.

(** ** CassandraParser::begin *)

(** [SStable::init]. *)
Definition OldSStable_init (partitioner : Partitioner) (t : OldSStable)
  : result (OldSStable * bool) :=
  let '(t, opened) := OldSStable_open t in
  if opened then
    do (t, _) <- OldSStable_read_row partitioner t;
    Done (OldSStable_close t, true)
  else Done (t, false).

(** [Sorter::operator()]. *)
Definition Sorter {R : Type} `{SStable R} (partitioner : Partitioner) (a b : R)
  : bool :=
  compare_token partitioner (next_token a) (next_key a)
                (next_token b) (next_key b) <? 0.

(** [std::sort] with [Sorter]; the order it leaves equal elements in is not
    specified, and this insertion sort keeps them in their order. *)
Fixpoint sort_insert {R : Type} `{SStable R} (partitioner : Partitioner)
         (t : R) (sorted : list R) : list R :=
  match sorted with
  | [] => [t]
  | x :: rest => if Sorter partitioner t x then t :: sorted
                 else x :: sort_insert partitioner t rest
  end.

Definition sort_tables {R : Type} `{SStable R} (partitioner : Partitioner)
           (tables : list R) : list R :=
  fold_left (fun sorted t => sort_insert partitioner t sorted) tables [].

Fixpoint init_tables (partitioner : Partitioner) (configs : list TableConfig)
  : result (list OldSStable) :=
  match configs with
  | [] => Done []
  | c :: rest =>
      do (t, ok) <- OldSStable_init partitioner
                      (OldSStable_new c (repeat 0 16));
      do tables <- init_tables partitioner rest;
      Done (if ok then t :: tables else tables)
  end.

Definition begin (partitioner : Partitioner) (configs : list TableConfig)
  : result (iterator OldSStable) :=
  do tables <- init_tables partitioner configs;
  Done (iterator_new (sort_tables partitioner tables)).

(** ** Test files in the JA..LA layout read by [OldSStable] *)

Module Fixture.

Definition be16 (v : Z) : list Z := be_bytes 2 v.
Definition be32 (v : Z) : list Z := be_bytes 4 v.
Definition be64 (v : Z) : list Z := be_bytes 8 (to_uint64 v).

Definition str16 (s : string) : list Z :=
  be16 (Z.of_nat (String.length s)) ++ bytes_of_string s.

(** A live cell: name, flags 0, timestamp, 32-bit-length-prefixed value. *)
Definition cell (nm value : string) (stamp : Z) : list Z :=
  str16 nm ++ [0] ++ be64 stamp
        ++ be32 (Z.of_nat (String.length value)) ++ bytes_of_string value.


Definition expiring_cell (nm value : string) (stamp ttl expiration : Z)
  : list Z :=
  str16 nm ++ [EXPIRATION_MASK] ++ be32 ttl ++ be32 expiration ++ be64 stamp
        ++ be32 (Z.of_nat (String.length value)) ++ bytes_of_string value.

Definition range_tombstone_cell (nm range_end : string) (stamp : Z) : list Z :=
  str16 nm ++ [RANGE_TOMBSTONE_MASK] ++ str16 range_end ++ be32 0 ++ be64 stamp.

(** A partition: key, local deletion time, [marked_for_deletion], the
    cells, and the empty name that ends it. *)
Definition partition (key : string) (marked : Z) (cells : list (list Z))
  : list Z :=
  str16 key ++ be32 0 ++ be64 marked ++ List.concat cells ++ be16 0.

Definition table (contents : list Z) : TableConfig :=
  mkTableConfig "ks-t-ka-1" VERSION_KA (Some contents) None None.



(** The same partition in the D..IB layout: an eight-byte size after the
    key, a 32-bit column count after [marked_for_deletion], and no empty
    name at the end. *)
Definition counted_partition (key : string) (marked : Z)
           (cells : list (list Z)) : list Z :=
  str16 key ++ be64 0 ++ be32 0 ++ be64 marked
        ++ be32 (Z.of_nat (List.length cells)) ++ List.concat cells.

Definition VERSION_IC : Z := VERSION_STRING_TO_VERSION "i" "c".

Definition counted_table (contents : list Z) : TableConfig :=
  mkTableConfig "ks-t-ic-1" VERSION_IC (Some contents) None None.

(** An index entry of the pre-MA layout: key, 64-bit position, 32-bit
    size of the promoted index (none here). *)
Definition index_entry (key : string) (position : Z) : list Z :=
  str16 key ++ be64 position ++ be32 0.

Definition indexed_table (contents index : list Z) : TableConfig :=
  mkTableConfig "ks-t-ka-1" VERSION_KA (Some contents) (Some index) None.

End Fixture.

(** ** Murmer3Partitioner (Partitioners.cpp) *)

Module Murmur3.

Definition mul64 (a b : Z) : Z := to_int64 (a * b).
Definition add64 (a b : Z) : Z := to_int64 (a + b).

(** [(uint64_t)k >> n] *)
Definition lshr64 (k n : Z) : Z := Z.shiftr (to_uint64 k) n.

Definition fmix (k : Z) : Z :=
  let k := Z.lxor k (lshr64 k 33) in
  let k := mul64 k (to_int64 0xff51afd7ed558ccd) in
  let k := Z.lxor k (lshr64 k 33) in
  let k := mul64 k (to_int64 0xc4ceb9fe1a85ec53) in
  Z.lxor k (lshr64 k 33).

Definition rotl64 (v n : Z) : Z :=
  to_int64 (Z.lor (to_uint64 (Z.shiftl v n)) (lshr64 v (64 - n))).

(** [key[i]] as a [char]: signed. *)
Definition char_at (key : list Z) (i : Z) : Z :=
  let b := nth (Z.to_nat i) key 0 in
  if b <? 128 then b else b - 256.

Definition getblock (key : list Z) (offset index : Z) : Z :=
  let blockOffset := offset + Z.shiftl index 3 in
  let byte k := Z.land (char_at key (blockOffset + k)) 0xff in
  to_int64 (byte 0 + Z.shiftl (byte 1) 8 + Z.shiftl (byte 2) 16
            + Z.shiftl (byte 3) 24 + Z.shiftl (byte 4) 32
            + Z.shiftl (byte 5) 40 + Z.shiftl (byte 6) 48
            + Z.shiftl (byte 7) 56).

Definition c1 : Z := to_int64 0x87c37b91114253d5.
Definition c2 : Z := to_int64 0x4cf5ad432745937f.

(** The body loop over the 128-bit blocks. *)
Fixpoint body (key : list Z) (n : nat) (i : Z) (h : Z * Z) : Z * Z :=
  match n with
  | O => h
  | S n' =>
      let '(h1, h2) := h in
      let k1 := getblock key 0 (i * 2 + 0) in
      let k2 := getblock key 0 (i * 2 + 1) in
      let k1 := mul64 (rotl64 (mul64 k1 c1) 31) c2 in
      let h1 := Z.lxor h1 k1 in
      let h1 := add64 (rotl64 h1 27) h2 in
      let h1 := add64 (mul64 h1 5) 0x52dce729 in
      let k2 := mul64 (rotl64 (mul64 k2 c2) 33) c1 in
      let h2 := Z.lxor h2 k2 in
      let h2 := add64 (rotl64 h2 31) h1 in
      let h2 := add64 (mul64 h2 5) 0x38495ab5 in
      body key n' (i + 1) (h1, h2)
  end.

(** The fall-through cases [hi] down to [lo] of the tail switch: each
    xors the sign-extended character, shifted, into [k]. *)
Fixpoint tail_bytes (key : list Z) (offset : Z) (base : Z) (n : nat) (k : Z)
  : Z :=
  match n with
  | O => k
  | S n' =>
      let k := Z.lxor k (to_int64 (Z.shiftl
                           (char_at key (offset + base + Z.of_nat n'))
                           (8 * Z.of_nat n'))) in
      tail_bytes key offset base n' k
  end.

Definition hash (key : list Z) : Z :=
  let length := Z.of_nat (List.length key) in
  let nblocks := to_int32 length / 16 in
  let '(h1, h2) := body key (Z.to_nat nblocks) 0 (0, 0) in
  let offset := nblocks * 16 in
  let rest := Z.land length 15 in
  let h2 :=
    if 9 <=? rest then
      let k2 := tail_bytes key offset 8 (Z.to_nat (rest - 8)) 0 in
      Z.lxor h2 (mul64 (rotl64 (mul64 k2 c2) 33) c1)
    else h2 in
  let h1 :=
    if 1 <=? rest then
      let k1 := tail_bytes key offset 0 (Z.to_nat (Z.min rest 8)) 0 in
      Z.lxor h1 (mul64 (rotl64 (mul64 k1 c1) 31) c2)
    else h1 in
  let h1 := Z.lxor h1 length in
  let h2 := Z.lxor h2 length in
  let h1 := add64 h1 h2 in
  let h2 := add64 h2 h1 in
  let h1 := fmix h1 in
  let h2 := fmix h2 in
  let h1 := add64 h1 h2 in
  if h1 =? - 2 ^ 63 then 2 ^ 63 - 1 else h1.

(** The bytes of [h1] in memory order: little-endian. *)
Fixpoint le_bytes (n : nat) (v : Z) : list Z :=
  match n with
  | O => []
  | S n' => Z.land v 0xff :: le_bytes n' (Z.shiftr v 8)
  end.

Definition le_value (bs : list Z) : Z :=
  fold_right (fun b acc => b + 256 * acc) 0 bs.

Definition assign (token : Token) (key : string) : Token :=
  le_bytes 8 (to_uint64 (hash (bytes_of_string key))) ++ skipn 8 token.

Definition token_value (token : Token) : Z :=
  to_int64 (le_value (firstn 8 token)).

Definition compare (tokenA : Token) (keyA : string)
           (tokenB : Token) (keyB : string) : Z :=
  let resultA := token_value tokenA in
  let resultB := token_value tokenB in
  if resultA <? resultB then -1
  else if resultA >? resultB then 1
  else compare_keys keyA keyB.

End Murmur3.

Definition Murmer3Partitioner : Partitioner := {|
  assign_token := Murmur3.assign;
  compare_token := Murmur3.compare
|}.

(** ** SStable::init_at_key and CassandraParser::find *)

(** [find_partition_in_summary]: the table of contents [toc] holds
    native-endian (little-endian) 32-bit offsets of the summary entries,
    each a key followed by a native-endian 64-bit index position.
    The asserts stop the process; reads past [toc] are undefined and read
    as zero here. *)
Definition toc_int32 (toc : list Z) (i : Z) : Z :=
  to_int32 (Murmur3.le_value (slice toc (4 * i) 4)).

Fixpoint summary_search (fuel : nat) (partitioner : Partitioner)
         (toc : list Z) (size memSize : Z)
         (first_token : Token) (first_key : string)
         (bottom top : Z) (lower_bounds : option Z) : result (option Z) :=
  match fuel with
  | O => Timeout
  | S fuel' =>
      if bottom <? top then
        let middle := bottom + (top - bottom) / 2 in
        let offset := toc_int32 toc middle in
        let next_offset := if middle + 1 =? size then memSize
                           else toc_int32 toc (middle + 1) in
        do _ <- assert (next_offset <=? memSize);
        do _ <- assert (offset <? next_offset);
        let len := to_size_t (next_offset - offset - 8) in
        let key := string_of_bytes (slice toc offset len) in
        let token := assign_token partitioner (repeat 0 16) key in
        let comp := compare_token partitioner first_token first_key token key in
        let lower_bounds := if comp >=? 0 then Some (offset + len)
                            else lower_bounds in
        if comp <? 0
        then summary_search fuel' partitioner toc size memSize first_token
                            first_key bottom (middle - 1) lower_bounds
        else if comp >? 0
        then summary_search fuel' partitioner toc size memSize first_token
                            first_key (middle + 1) top lower_bounds
        else Done lower_bounds
      else Done lower_bounds
  end.

Definition find_partition_in_summary (partitioner : Partitioner)
           (c : TableConfig) (first_token : Token) (first_key : string)
  : result (option Z) :=
  match summary_db c with
  | None => Done None
  | Some contents =>
      let summary_buffer := open_uncompressed contents in
      let summary_buffer := skip_bytes summary_buffer 4 in
      let '(summary_buffer, size) := read_int summary_buffer in
      let '(summary_buffer, memSize64) := read_longlong summary_buffer in
      let memSize := to_int32 memSize64 in
      let summary_buffer := if version c >=? VERSION_KA
                            then skip_bytes summary_buffer 8
                            else summary_buffer in
      match read_bytes summary_buffer memSize with
      | (_, None) => Done None
      | (_, Some toc) =>
          do lower_bounds <-
             summary_search (S (Z.to_nat size)) partitioner toc size memSize
                            first_token first_key 0 (size - 1) None;
          match lower_bounds with
          | Some at_ => Done (Some (to_int64 (Murmur3.le_value (slice toc at_ 8))))
          | None => Done None
          end
      end
  end.

(** The scan of the index in [init_at_key].  [to_skip] is a [uint64_t]. *)
Fixpoint index_scan (fuel : nat) (partitioner : Partitioner)
         (first_token : Token) (first_key : string)
         (index_buffer : UncompressedBuffer) (t : OldSStable)
  : result (OldSStable * bool) :=
  match fuel with
  | O => Timeout
  | S fuel' =>
      if is_eof index_buffer then Done (t, false)
      else
        do (index_buffer, key) <- read_string index_buffer;
        let t := with_key t key in
        let '(index_buffer, offset) :=
          if version (config t) >=? VERSION_MA
          then let '(b, v) := read_unsigned_vint index_buffer in (b, to_int64 v)
          else read_longlong index_buffer in
        let t := with_start_offset t offset in
        let t := with_token t (assign_token partitioner (next_token_value t) key) in
        if compare_token partitioner first_token first_key
                         (next_token_value t) (next_key_value t) <=? 0
        then Done (t, true)
        else
          let '(index_buffer, to_skip) :=
            if version (config t) >=? VERSION_MA
            then read_unsigned_vint index_buffer
            else let '(b, v) := read_int index_buffer in (b, to_uint64 v) in
          index_scan fuel' partitioner first_token first_key
                     (skip_bytes index_buffer to_skip) t
  end.

Definition init_at_key (fuel : nat) (partitioner : Partitioner)
           (first_token : Token) (first_key : string) (t : OldSStable)
  : result (OldSStable * bool) :=
  match index_db (config t) with
  | None => Done (t, false)
  | Some contents =>
      let index_buffer := open_uncompressed contents in
      do found <- find_partition_in_summary partitioner (config t)
                    first_token first_key;
      let index_buffer := match found with
                          | Some pos => seek index_buffer pos
                          | None => index_buffer
                          end in
      index_scan fuel partitioner first_token first_key index_buffer t
  end.

Fixpoint init_tables_at_key (fuel : nat) (partitioner : Partitioner)
         (first_token : Token) (primaryKey : string)
         (configs : list TableConfig) : result (list OldSStable) :=
  match configs with
  | [] => Done []
  | c :: rest =>
      do (t, ok) <- init_at_key fuel partitioner first_token primaryKey
                      (OldSStable_new c (repeat 0 16));
      do tables <- init_tables_at_key fuel partitioner first_token primaryKey rest;
      Done (if ok then t :: tables else tables)
  end.

Definition find (fuel : nat) (partitioner : Partitioner)
           (configs : list TableConfig) (primaryKey : string)
  : result (iterator OldSStable) :=
  let first_token := assign_token partitioner (repeat 0 16) primaryKey in
  do tables <- init_tables_at_key fuel partitioner first_token primaryKey configs;
  Done (iterator_new (sort_tables partitioner tables)).

(** Exhausting an iterator with [next]: the sink calls of all the calls. *)
Fixpoint exhaust {R : Type} `{SStable R} (partitioner : Partitioner)
         (fuel : nat) (it : iterator R) : result (iterator R * list Event) :=
  match fuel with
  | O => Timeout
  | S fuel' =>
      do (it, events, more) <- next partitioner (S fuel') it;
      if more then
        do (it, rest) <- exhaust partitioner fuel' it;
        Done (it, events ++ rest)
      else Done (it, events)
  end.

(** ** Copying the iterator: readers with shared buffers

    [data_buffer] is a [std::shared_ptr<Buffer>], and [duplicate()] builds
    the new reader with the implicit copy constructor, which copies the
    pointer.  Here the buffers live in a heap and a reader holds an address
    into it. *)

Definition Heap : Type := list CompressedBuffer.

Record SharedSStable : Type := mkShared {
  (** every member but [data_buffer] *)
  members : OldSStable;
  (** [data_buffer]: an address in the heap, or null *)
  buffer_ptr : option nat
}.

Fixpoint heap_store (h : Heap) (a : nat) (b : CompressedBuffer) : Heap :=
  match h, a with
  | [], _ => []
  | _ :: rest, O => b :: rest
  | x :: rest, S a' => x :: heap_store rest a' b
  end.

(** The reader as the member functions see it. *)
Definition load (h : Heap) (s : SharedSStable) : OldSStable :=
  match buffer_ptr s with
  | Some a => match nth_error h a with
              | Some b => with_buffer (members s) b
              | None => OldSStable_close (members s)
              end
  | None => OldSStable_close (members s)
  end.

(** The effect of a member function that reads through the pointer. *)
Definition store (h : Heap) (s : SharedSStable) (t : OldSStable)
  : Heap * SharedSStable :=
  match buffer_ptr s, data_buffer t with
  | Some a, Some b => (heap_store h a b, mkShared (OldSStable_close t) (Some a))
  | _, _ => (h, mkShared (OldSStable_close t) (buffer_ptr s))
  end.

Definition shared_call {A : Type} (f : OldSStable -> result (OldSStable * A))
           (h : Heap) (s : SharedSStable) : result (Heap * SharedSStable * A) :=
  do (t, a) <- f (load h s);
  let '(h, s) := store h s t in
  Done (h, s, a).

(** [open]: [std::make_shared] allocates a new buffer. *)
Definition shared_open (h : Heap) (s : SharedSStable)
  : Heap * SharedSStable * bool :=
  let '(t, good) := OldSStable_open (members s) in
  match data_buffer t with
  | Some b => (h ++ [b], mkShared (OldSStable_close t) (Some (List.length h)), good)
  | None => (h, mkShared t None, good)
  end.

(** [duplicate]: [new OldSStable( *this )]. *)
Definition duplicate (s : SharedSStable) : SharedSStable :=
  mkShared (members s) (buffer_ptr s).

(** [iterator::iterator(const iterator & other)] *)
Definition iterator_copy (other : iterator SharedSStable)
  : iterator SharedSStable :=
  mkIterator (m_next_table other) (m_active_tables other)
             (map duplicate (m_tables other))
             (m_skippedRecords other) (m_cassandraReadRecords other).

(** [activate_table] on the heap. *)
Definition shared_activate (partitioner : Partitioner) (h : Heap)
           (it : iterator SharedSStable) (index : nat)
  : result (Heap * iterator SharedSStable) :=
  match nth_error (m_tables it) index with
  | None => Crash
  | Some s =>
      let '(h, s, opened) := shared_open h s in
      if opened then
        do (h, s, eof) <- shared_call (OldSStable_read_row partitioner) h s;
        let tables := set_nth (m_tables it) index s in
        Done (h, mkIterator (m_next_table it)
                   (if eof then m_active_tables it
                    else set_insert index (m_active_tables it))
                   tables (m_skippedRecords it) (m_cassandraReadRecords it))
      else Done (h, mkIterator (m_next_table it) (m_active_tables it)
                      (set_nth (m_tables it) index s)
                      (m_skippedRecords it) (m_cassandraReadRecords it))
  end.

(** A reader call on table [index] of an iterator. *)
Definition shared_table_call {A : Type}
           (f : OldSStable -> result (OldSStable * A)) (h : Heap)
           (it : iterator SharedSStable) (index : nat)
  : result (Heap * iterator SharedSStable * A) :=
  match nth_error (m_tables it) index with
  | None => Crash
  | Some s =>
      do (h, s, a) <- shared_call f h s;
      Done (h, mkIterator (m_next_table it) (m_active_tables it)
                 (set_nth (m_tables it) index s)
                 (m_skippedRecords it) (m_cassandraReadRecords it), a)
  end.

(** What the reader at [index] would decode next. *)
Definition pending_offset (h : Heap) (it : iterator SharedSStable) (index : nat)
  : option Z :=
  match nth_error (m_tables it) index with
  | Some s => option_map file_offset (data_buffer (load h s))
  | None => None
  end.

(** ** Concrete tables used below *)

Module Scenario.
Import Fixture.

(** A D..IB table holding partition "k" with the single cell c = v. *)
Definition counted_k : OldSStable :=
  OldSStable_new
    (counted_table (counted_partition "k" STILL_ACTIVE [cell "c" "v" 5]))
    (repeat 0 16).

(** Open it, read the partition header, ask for the next column; then the
    state of the machine, what [read_column] returned, and what the
    [read_row] that follows does. *)
Definition counted_k_run : result (bool * FSM * bool * result (OldSStable * bool)) :=
  let '(t, _) := OldSStable_open counted_k in
  do (t, eof) <- OldSStable_read_row ByteOrderPartitioner t;
  do (t, more) <- OldSStable_read_column t;
  Done (eof, fsm t, more, OldSStable_read_row ByteOrderPartitioner t).

(** The same partition in a KA table. *)
Definition ka_k : OldSStable :=
  OldSStable_new (table (partition "k" STILL_ACTIVE [cell "c" "v" 5]))
                 (repeat 0 16).

Definition ka_k_run : result (bool * FSM * bool * bool) :=
  let '(t, _) := OldSStable_open ka_k in
  do (t, eof) <- OldSStable_read_row ByteOrderPartitioner t;
  do (t, more) <- OldSStable_read_column t;
  do (t, eof') <- OldSStable_read_row ByteOrderPartitioner t;
  Done (eof, fsm t, more, eof').


(** A KA table holding partition "k" with the cells c1 = v1 and c2 = v2. *)
Definition two_cells : SharedSStable :=
  mkShared (OldSStable_new
              (table (partition "k" STILL_ACTIVE
                        [cell "c1" "v1" 5; cell "c2" "v2" 6]))
              (repeat 0 16))
           None.

(** An iterator over it, activated, and then copied.  The copy asks its
    reader for the next column.  The result holds the buffer position of
    the reader of the original before and after that call, and what
    [read_column] of the original returns (its answer and the pending
    column name) without and with that call. *)
Definition copy_run
  : result (option Z * option Z * (bool * string) * (bool * string)) :=
  do (h, original) <- shared_activate ByteOrderPartitioner []
                        (mkIterator 1 [] [two_cells] 0 0) 0;
  let copy := iterator_copy original in
  do (_, alone, more_alone) <- shared_table_call OldSStable_read_column h original 0;
  do (h', copy', _) <- shared_table_call OldSStable_read_column h copy 0;
  do (_, after, more_after) <- shared_table_call OldSStable_read_column h' original 0;
  let pending (it : iterator SharedSStable) :=
    match m_tables it with
    | s :: _ => name (next_column_info (members s))
    | [] => EmptyString
    end in
  Done (pending_offset h original 0, pending_offset h' original 0,
        (more_alone, pending alone), (more_after, pending after)).

(** A KA table under the Murmur3 partitioner holding the single partition
    "a", with its index. *)
Definition only_a : TableConfig :=
  indexed_table (partition "a" STILL_ACTIVE [cell "x" "1" 10])
                (index_entry "a" 0).

Definition sink_calls (it : result (iterator OldSStable)) : result (list Event) :=
  do it <- it;
  do (_, events) <- exhaust Murmer3Partitioner 10 it;
  Done events.

Definition murmur_token (key : string) : Z :=
  Murmur3.token_value (Murmur3.assign (repeat 0 16) key).



(** All the sink calls until [next] returns false. *)
Definition all_calls (configs : list TableConfig) : result (list Event) :=
  do it <- begin ByteOrderPartitioner configs;
  do (_, events) <- exhaust ByteOrderPartitioner 10 it;
  Done events.

(** The iterator [begin] builds, after [find_first_row_matches] has
    opened the tables of the first partition, and the row matches. *)
Definition opened (configs : list TableConfig)
  : iterator OldSStable * list nat :=
  match (do it <- begin ByteOrderPartitioner configs;
         find_first_row_matches ByteOrderPartitioner it) with
  | Done r => r
  | _ => (iterator_new [], [])
  end.





(** Partition "k" with a range tombstone from "a" to "m" at 8 and the
    cells a, m and n at 5; and the same cells without the tombstone. *)
Definition ranged : list TableConfig :=
  [table (partition "k" STILL_ACTIVE
            [range_tombstone_cell "a" "m" 8;
             cell "a" "A" 5; cell "m" "M" 5; cell "n" "N" 5])].

Definition unranged : list TableConfig :=
  [table (partition "k" STILL_ACTIVE
            [cell "a" "A" 5; cell "m" "M" 5; cell "n" "N" 5])].

Definition ranged_it : iterator OldSStable :=
  Eval vm_compute in fst (opened ranged).

(** Three tables with partition "k": a in table 0, and b with the same
    timestamp 7 in tables 1 and 2. *)
Definition tie : list TableConfig :=
  [table (partition "k" STILL_ACTIVE [cell "a" "A0" 1]);
   table (partition "k" STILL_ACTIVE [cell "b" "from1" 7]);
   table (partition "k" STILL_ACTIVE [cell "b" "from2" 7])].

(** The iterator and the row matches after the turn for column a. *)
Definition tie_after_a : iterator OldSStable * list nat :=
  Eval vm_compute in
    match (let '(it, matches) := opened tie in
           column_step ByteOrderPartitioner it matches []
                       STILL_ACTIVE STILL_ACTIVE) with
    | Done (Some (it, matches, _, _, _)) => (it, matches)
    | _ => (iterator_new [], [])
    end.





(** A second KA table under the Murmur3 partitioner, holding the single
    partition "d", with its index. *)
Definition only_d : TableConfig :=
  indexed_table (partition "d" STILL_ACTIVE [cell "y" "2" 10])
                (index_entry "d" 0).


(** Two tables under the order-preserving partitioner: partitions "a" and
    "c" in the first, partition "b" in the second. *)
Definition interleaved : list TableConfig :=
  [table (partition "a" STILL_ACTIVE [cell "x" "1" 10]
          ++ partition "c" STILL_ACTIVE [cell "z" "3" 10]);
   table (partition "b" STILL_ACTIVE [cell "y" "2" 10])].

Definition interleaved_it : iterator OldSStable :=
  Eval vm_compute in
    match begin OrderPreservingPartitioner interleaved with
    | Done it => it
    | _ => iterator_new []
    end.

(** The states the readers of these tables go through. *)
Definition after_activate (t : OldSStable) : OldSStable :=
  match OldSStable_read_row OrderPreservingPartitioner
                            (fst (OldSStable_open t)) with
  | Done (t', _) => t'
  | _ => t
  end.

Definition after_read_column_data (t : OldSStable) : OldSStable :=
  match OldSStable_read_column_data t EmptyString with
  | Done (t', _, _) => t'
  | _ => t
  end.

Definition after_read_column (t : OldSStable) : OldSStable :=
  match OldSStable_read_column t with
  | Done (t', _) => t'
  | _ => t
  end.

Definition after_read_row (t : OldSStable) : OldSStable :=
  match OldSStable_read_row OrderPreservingPartitioner t with
  | Done (t', _) => t'
  | _ => t
  end.

Definition fresh_states : list OldSStable :=
  Eval vm_compute in m_tables interleaved_it.

Definition states_of_partition (s1 : OldSStable) : list OldSStable :=
  [s1; after_read_column_data s1; after_read_column s1].

Definition open_states : list OldSStable :=
  Eval vm_compute in
    match m_tables interleaved_it with
    | [t0; t1] =>
        let s1 := after_activate t0 in
        let s4 := after_read_row (after_read_column s1) in
        states_of_partition s1 ++ states_of_partition s4
        ++ states_of_partition (after_activate t1)
    | _ => []
    end.

(** Three calls of [next] on [interleaved_it]. *)
Definition three_calls
  : result (iterator OldSStable * list Event * bool)
    * result (iterator OldSStable * list Event * bool)
    * result (iterator OldSStable * list Event * bool) :=
  Eval vm_compute in
    let r1 := next OrderPreservingPartitioner 10 interleaved_it in
    let it1 := match r1 with Done (it, _, _) => it | _ => interleaved_it end in
    let r2 := next OrderPreservingPartitioner 10 it1 in
    let it2 := match r2 with Done (it, _, _) => it | _ => interleaved_it end in
    (r1, r2, next OrderPreservingPartitioner 10 it2).

End Scenario.

Definition decode_uncompressed (v : Z) : Z :=
  snd (read_unsigned_vint (open_uncompressed (encode_unsigned_vint v))).

Definition decode_compressed (v : Z) : Z :=
  snd (read_unsigned_vint (open_compressed (encode_unsigned_vint v))).


(** ** Notions used in the statements *)

(** [l1] is [l2] with some entries left out. *)
Inductive subseq {A : Type} : list A -> list A -> Prop :=
| subseq_nil : subseq [] []
| subseq_skip (x : A) (l1 l2 : list A) : subseq l1 l2 -> subseq l1 (x :: l2)
| subseq_take (x : A) (l1 l2 : list A) : subseq l1 l2 -> subseq (x :: l1) (x :: l2).

(** The keys of a [std::map] are strictly increasing. *)
Definition map_sorted (m : list (string * Z)) : Prop :=
  StronglySorted (fun e1 e2 => string_lt (fst e1) (fst e2) = true) m.

(** [minTime] is at least the partition tombstone and every stored range
    tombstone ([STILL_ACTIVE] stands for none). *)
Definition covers (m : list (string * Z)) (minTime marked : Z) : Prop :=
  (STILL_ACTIVE < marked -> marked <= minTime)
  /\ forall k T, In (k, T) m -> STILL_ACTIVE < T -> T <= minTime.

(** The payload and the timestamp a sink call carries. *)
Definition event_value (e : Event) : option string :=
  match e with
  | new_row _ => None
  | new_column _ v _ => Some v
  | new_column_with_ttl _ v _ _ _ => Some v
  end.

Definition event_ts (e : Event) : option Z :=
  match e with
  | new_row _ => None
  | new_column _ _ t => Some t
  | new_column_with_ttl _ _ t _ _ => Some t
  end.

Definition is_column (e : Event) : bool := negb (is_new_row e).

(** The two statistics of the iterator. *)
Definition counters {R : Type} (it : iterator R) : Z * Z :=
  (m_skippedRecords it, m_cassandraReadRecords it).

(** *** The order of the partitions

    The partitioner orders keys through their tokens. *)
Definition token_of (partitioner : Partitioner) (key : string) : Token :=
  assign_token partitioner (repeat 0 16) key.

Definition key_cmp (partitioner : Partitioner) (a b : string) : Z :=
  compare_token partitioner (token_of partitioner a) a
                (token_of partitioner b) b.

Definition key_le (partitioner : Partitioner) (a b : string) : Prop :=
  key_cmp partitioner a b <= 0.

(** A key is not below the bound, if there is one. *)
Definition above (partitioner : Partitioner) (bound : option string)
           (key : string) : Prop :=
  match bound with
  | None => True
  | Some k => key_le partitioner k key
  end.

(** What the merge needs of the readers.  [fresh] holds of a reader as
    [begin] leaves it, closed with the first key of its file pending, and
    [ok] of an open reader.  The partitioner orders the keys; the token of
    a reader is the token of its pending key; activating a fresh reader
    decodes the partition whose key is pending; [read_row] moves to a key
    that is not smaller (the keys of a file are in order); reading columns
    leaves the pending key. *)
Record reader_laws {R : Type} `{SStable R} (partitioner : Partitioner)
       (fresh ok : R -> Prop) : Prop := {
  order_trans : forall a b c,
    key_le partitioner a b -> key_le partitioner b c -> key_le partitioner a c;
  order_flip : forall a b,
    0 <= key_cmp partitioner a b -> key_le partitioner b a;
  fresh_token : forall t,
    fresh t -> next_token t = token_of partitioner (next_key t);
  ok_token : forall t,
    ok t -> next_token t = token_of partitioner (next_key t);
  fresh_activate : forall t t1 opened,
    fresh t -> open t = (t1, opened) ->
    opened = true
    /\ forall t2 eof, read_row partitioner t1 = Done (t2, eof) ->
                      eof = false /\ ok t2 /\ next_key t2 = next_key t;
  ok_read_row : forall t t',
    ok t -> read_row partitioner t = Done (t', false) ->
    ok t' /\ key_le partitioner (next_key t) (next_key t');
  ok_read_column : forall t t' more,
    ok t -> read_column t = Done (t', more) ->
    ok t' /\ next_key t' = next_key t;
  ok_read_column_data : forall t out t' value good,
    ok t -> read_column_data t out = Done (t', value, good) ->
    ok t' /\ next_key t' = next_key t
}.

(** The iterator between two records: the active tables are distinct, were
    opened, are [ok] and hold a key not below [bound]; the tables not yet
    opened are [fresh], in the order of their keys, and not below [bound]
    either. *)
Definition positioned {R : Type} `{SStable R} (partitioner : Partitioner)
           (fresh ok : R -> Prop) (bound : option string) (it : iterator R)
  : Prop :=
  NoDup (m_active_tables it)
  /\ (forall i, In i (m_active_tables it) ->
                (i < m_next_table it)%nat
                /\ exists t, nth_error (m_tables it) i = Some t /\ ok t
                             /\ above partitioner bound (next_key t))
  /\ (forall j t, (m_next_table it <= j)%nat ->
                  nth_error (m_tables it) j = Some t ->
                  fresh t /\ above partitioner bound (next_key t))
  /\ (forall j1 j2 t1 t2,
         (m_next_table it <= j1)%nat -> (j1 <= j2)%nat ->
         nth_error (m_tables it) j1 = Some t1 ->
         nth_error (m_tables it) j2 = Some t2 ->
         key_le partitioner (next_key t1) (next_key t2)).

(** The keys follow one another in order, from [bound] on. *)
Fixpoint ordered (partitioner : Partitioner) (bound : option string)
         (keys : list string) : Prop :=
  match keys with
  | [] => True
  | k :: rest => above partitioner bound k /\ ordered partitioner (Some k) rest
  end.

Definition last_key (bound : option string) (keys : list string)
  : option string :=
  fold_left (fun _ k => Some k) keys bound.

(** The keys passed to [new_row], in order. *)
Definition new_row_keys (events : list Event) : list string :=
  flat_map (fun e => match e with new_row key => [key] | _ => [] end) events.

(** A sequence of calls of [next] that returned, and the sink calls they
    made. *)
Inductive next_calls {R : Type} `{SStable R} (partitioner : Partitioner)
  : iterator R -> list Event -> iterator R -> Prop :=
| calls_none (it : iterator R) : next_calls partitioner it [] it
| calls_more (fuel : nat) (it it1 it2 : iterator R)
             (events rest : list Event) (more : bool) :
    next partitioner fuel it = Done (it1, events, more) ->
    next_calls partitioner it1 rest it2 ->
    next_calls partitioner it (events ++ rest) it2.

(** The row matches [matches] found among the tables [scanned]: distinct
    scanned tables, the first of which holds a least key. *)
Definition least {R : Type} `{SStable R} (partitioner : Partitioner)
           (tables : list R) (scanned matches : list nat) : Prop :=
  NoDup matches /\ incl matches scanned
  /\ match matches with
     | [] => scanned = []
     | m0 :: _ =>
         exists t0, nth_error tables m0 = Some t0
                    /\ forall i t, In i scanned -> nth_error tables i = Some t ->
                                   key_le partitioner (next_key t0) (next_key t)
     end.

(** The readers of [Scenario.interleaved]: as [begin] leaves them, and
    open. *)
Definition interleaved_fresh (t : OldSStable) : Prop :=
  In t Scenario.fresh_states.

Definition interleaved_ok (t : OldSStable) : Prop :=
  In t Scenario.open_states.

(** *** Progress of the column loop

    [size_of] measures what a reader has left to read; the weight of the
    row matches bounds the turns of the column loop. *)
Definition weight {R : Type} (size_of : R -> nat) (tables : list R)
           (matches : list nat) : nat :=
  list_sum (map (fun i => match nth_error tables i with
                          | Some t => S (size_of t)
                          | None => O
                          end) matches).

(** A reader call does not run on fuel; a column read makes progress. *)
Record reader_progress {R : Type} `{SStable R} (partitioner : Partitioner)
       (ok : R -> Prop) (size_of : R -> nat) : Prop := {
  read_row_returns : forall t, read_row partitioner t <> Timeout;
  read_column_returns : forall t, read_column t <> Timeout;
  read_column_data_returns : forall t out, read_column_data t out <> Timeout;
  read_column_progress : forall t t',
    ok t -> read_column t = Done (t', true) -> (size_of t' < size_of t)%nat;
  read_column_data_progress : forall t out t' value good,
    ok t -> read_column_data t out = Done (t', value, good) ->
    (size_of t' <= size_of t)%nat
}.

(** What an open reader of these tables has left: the bytes after its
    position. *)
Definition bytes_left (t : OldSStable) : nat :=
  match data_buffer t with
  | Some b => Z.to_nat (uncompressed_len b - file_offset b)
  | None => O
  end.

(** ** Utilities.cpp: hex and printable keys *)

(** A [char] as the comparisons see it: signed, as on the platforms the
    tool is built for. *)
Definition char_of (c : ascii) : Z :=
  let b := byte_of_ascii c in if b <? 128 then b else b - 256.

(** One digit of [snprintf("%02x", ...)]. *)
Definition hex_digit (n : Z) : ascii :=
  if n <? 10 then ascii_of_byte (byte_of_ascii "0" + n)
  else ascii_of_byte (byte_of_ascii "a" + (n - 10)).

(** [binaryToHex]: two digits for [bin[i] & 0xff], for every character. *)
Fixpoint binaryToHex (bin : string) : string :=
  match bin with
  | EmptyString => EmptyString
  | String c rest =>
      let v := Z.land (char_of c) 0xff in
      String (hex_digit (Z.shiftr v 4))
             (String (hex_digit (Z.land v 0xf)) (binaryToHex rest))
  end.

(** [isPrintable]. *)
Fixpoint isPrintable (val : string) : bool :=
  match val with
  | EmptyString => true
  | String c rest =>
      if (char_of c <? char_of " ") || (char_of c >=? 0x7f) then false
      else isPrintable rest
  end.

(** [hex_nibble_to_nibble]: [Some nibble_out] when it returns true. *)
Definition hex_nibble_to_nibble (hex_nibble_in : ascii) : option Z :=
  let c := char_of hex_nibble_in in
  if (c >=? char_of "0") && (c <=? char_of "9")
  then Some ((c - char_of "0") mod 256)
  else if (c >=? char_of "A") && (c <=? char_of "F")
  then Some ((c - char_of "A" + 0xA) mod 256)
  else if (c >=? char_of "a") && (c <=? char_of "f")
  then Some ((c - char_of "a" + 0xa) mod 256)
  else None.

(** ** Cassandra2Aerospike.cpp: the key to start from *)

(** The loop of the [-S] option in [parse_arguments], over the characters of
    [optarg] up to its terminator: [Some firstKeyBuffer], or [None] where it
    returns [EXIT_FAILURE].  When one character is left, [second_nibble] is
    the terminator, which [hex_nibble_to_nibble] refuses. *)
Fixpoint parse_hex_key (optarg : string) : option string :=
  match optarg with
  | EmptyString => Some EmptyString
  | String first_nibble rest =>
      if byte_of_ascii first_nibble =? 0 then Some EmptyString
      else
        match rest with
        | EmptyString => None
        | String second_nibble rest' =>
            match hex_nibble_to_nibble first_nibble with
            | None => None
            | Some high =>
                match hex_nibble_to_nibble second_nibble with
                | None => None
                | Some low =>
                    match parse_hex_key rest' with
                    | None => None
                    | Some firstKeyBuffer =>
                        Some (String (ascii_of_byte
                                        (Z.lor (Z.shiftl high 4) low mod 256))
                                     firstKeyBuffer)
                    end
                end
            end
        end
  end.

(** The two options that set [firstKey], with their [optarg]. *)
Inductive StartOption : Type :=
| option_s (optarg : string)
| option_S (optarg : string).

(** [firstKey] after [parse_arguments], as [main] hands it to [find]: a
    [const char *] converted to [std::string], so it ends at the first NUL. *)
Definition first_key (o : StartOption) : option string :=
  match o with
  | option_s optarg => Some (c_str optarg)
  | option_S optarg =>
      match parse_hex_key optarg with
      | Some firstKeyBuffer => Some (c_str firstKeyBuffer)
      | None => None
      end
  end.

(** The option [do_transfer] prints for resuming at [first_unsent]; both
    strings are printed with "%s". *)
Definition resume_hint (first_unsent : string) : StartOption :=
  if isPrintable first_unsent then option_s (c_str first_unsent)
  else option_S (c_str (binaryToHex first_unsent)).

(** No character of the string is NUL. *)
Fixpoint no_nul (s : string) : Prop :=
  match s with
  | EmptyString => True
  | String c rest => byte_of_ascii c <> 0 /\ no_nul rest
  end.

(** ** SSTable.cpp: the names of the data files *)

(** [s[i]] of a C string: the terminator at its end (the code reads no
    further). *)
Definition c_char (s : string) (i : nat) : ascii :=
  match String.get i s with
  | Some c => c
  | None => zero
  end.

(** [std::strchr(s, c)] for a [c] that is not the terminator: the rest of
    the string from the first [c], or [None] for a null pointer. *)
Fixpoint strchr (s : string) (c : ascii) : option string :=
  match s with
  | EmptyString => None
  | String x rest => if Ascii.eqb x c then Some s else strchr rest c
  end.

(** [p + 1] for a pointer into a C string that is not at its end. *)
Definition c_next (s : string) : string :=
  match s with
  | EmptyString => EmptyString
  | String _ rest => rest
  end.

Definition isSSTableVersion (versionString : string) (lowerBound : ascii) : bool :=
  (char_of (c_char versionString 0) >=? char_of lowerBound)
  && (char_of (c_char versionString 0) <=? char_of "z")
  && (char_of (c_char versionString 1) >=? char_of "a")
  && (char_of (c_char versionString 1) <=? char_of "z")
  && (char_of (c_char versionString 2) =? char_of "-").

(** [VERSION_STRING_TO_VERSION] on two [char]s. *)
Definition version_of_chars (a b : ascii) : Z :=
  (char_of a - char_of "a") * 26 + (char_of b - char_of "a").

(** [SStable::getVersionFromFilename]; [name] is a [const char *]. *)
Definition getVersionFromFilename (name : string) : Z :=
  let name := c_str name in
  if isSSTableVersion name "l"
  then version_of_chars (c_char name 0) (c_char name 1)
  else
    match strchr name "-" with
    | None => -1
    | Some foundChar =>
        match strchr (c_next foundChar) "-" with
        | None => -1
        | Some foundChar =>
            let foundChar := c_next foundChar in
            if isSSTableVersion foundChar "a"
            then version_of_chars (c_char foundChar 0) (c_char foundChar 1)
            else if (char_of (c_char foundChar 1) =? char_of "-")
                    && (char_of (c_char foundChar 0) >=? char_of "a")
                    && (char_of (c_char foundChar 0) <=? char_of "d")
                 then version_of_chars (c_char foundChar 0) "a"
                 else -1
        end
    end.

(** [s.find(c, pos)] for a one-character pattern: [None] for [npos]. *)
Fixpoint string_find (c : ascii) (pos : nat) (s : string) : option nat :=
  match pos, s with
  | O, EmptyString => None
  | O, String x rest => if Ascii.eqb x c then Some O
                        else option_map S (string_find c O rest)
  | S _, EmptyString => None
  | S pos', String _ rest => option_map S (string_find c pos' rest)
  end.

(** The loop over the separators of [dir_string.c_str()], on offsets into
    it: [thisSeperator], [lastSeperator], [previousSeperator]. Every turn
    moves [thisSeperator] on, so the length of the string bounds the turns. *)
Fixpoint separators (fuel : nat) (dir : string) (thisSeperator : nat)
         (lastSeperator previousSeperator : option nat)
  : nat * option nat * option nat :=
  match fuel with
  | O => (thisSeperator, lastSeperator, previousSeperator)
  | S fuel' =>
      match string_find "/" thisSeperator dir with
      | Some nextSeperator =>
          separators fuel' dir (S nextSeperator) (Some thisSeperator)
                     lastSeperator
      | None => (thisSeperator, lastSeperator, previousSeperator)
      end
  end.

(** [SStable::extractKeyspaceAndTable]: [Some (thisKeyspace, thisTable)]
    where it returns true. *)
Definition extractKeyspaceAndTable (version : Z) (fileName dir_string : string)
  : option (string * string) :=
  if version <? VERSION_LA then
    match string_find "-" 0 fileName with
    | None => None
    | Some dashPos1 =>
        match string_find "-" (dashPos1 + 1) fileName with
        | None => None
        | Some dashPos2 =>
            Some (substring 0 dashPos1 fileName,
                  substring (dashPos1 + 1) (dashPos2 - dashPos1 - 1) fileName)
        end
    end
  else
    let c := c_str dir_string in
    match separators (S (String.length c)) c 0 None None with
    | (thisSeperator, Some lastSeperator, Some previousSeperator) =>
        Some (substring previousSeperator
                        (lastSeperator - previousSeperator - 1) dir_string,
              substring lastSeperator (thisSeperator - lastSeperator - 1)
                        dir_string)
    | _ => None
    end.

(** ** CassandraParser::add_data_file *)

Record Parser : Type := mkParser {
  m_keyspace : string;
  m_tableName : string;
  m_tableConfig : list (string * Z)   (* path and version *)
}.

Definition DATA_SUFFIX_LEN : nat := 8.

(** [add_data_file]: the parser after it, or [None] where it returns false.
    [name] is a [const char *] and [namelen] its [strlen], passed by the
    caller.  A [namelen] below [DATA_SUFFIX_LEN] makes the length of the
    path wrap around, and [std::string] throws. *)
Definition add_data_file (p : Parser) (dir_string name : string)
  : result (option Parser) :=
  let name := c_str name in
  let namelen := String.length name in
  let version := getVersionFromFilename name in
  if version <? 0 then Done None
  else
    match extractKeyspaceAndTable version name dir_string with
    | None => Done None
    | Some (thisKeyspace, thisTable) =>
        if string_empty (m_keyspace p) && string_empty (m_tableName p)
        then
          do _ <- assert (DATA_SUFFIX_LEN <=? namelen)%nat;
          Done (Some (mkParser thisKeyspace thisTable
                        (m_tableConfig p
                         ++ [(dir_string
                              ++ substring 0 (namelen - DATA_SUFFIX_LEN) name,
                              version)%string])))
        else if negb (String.eqb (m_keyspace p) thisKeyspace)
                || negb (String.eqb (m_tableName p) thisTable)
             then Done None
             else
               do _ <- assert (DATA_SUFFIX_LEN <=? namelen)%nat;
               Done (Some (mkParser (m_keyspace p) (m_tableName p)
                             (m_tableConfig p
                              ++ [(dir_string
                                   ++ substring 0 (namelen - DATA_SUFFIX_LEN) name,
                                   version)%string])))
    end.

(** No character of the string is [c]. *)
Fixpoint free_of (c : ascii) (s : string) : Prop :=
  match s with
  | EmptyString => True
  | String x rest => x <> c /\ free_of c rest
  end.

(** A lower-case letter, as [isSSTableVersion] tests it. *)
Definition is_lower (c : ascii) : bool :=
  (char_of c >=? char_of "a") && (char_of c <=? char_of "z").

(** ** RandomPartitioner (Partitioners.cpp)

    [MD5_Final] is OpenSSL's; [md5] stands for it and gives the sixteen
    bytes of the checksum.  The rest of [assign_token] makes the absolute
    value of the checksum read as a two's-complement number: [negate_low]
    is its second branch, on the bytes from index 15 down. *)
Definition to_uint8 (z : Z) : Z := z mod 256.

Fixpoint negate_low (checksum_from_15 : list Z) : list Z :=
  match checksum_from_15 with
  | [] => []
  | c :: rest =>
      if c =? 0 then 0 :: negate_low rest
      else to_uint8 (0xFF - c + 1) :: map (fun c => to_uint8 (0xFF - c)) rest
  end.

Definition random_token (checksum : list Z) : Token :=
  if hd 0 checksum <? 0x80 then checksum
  else rev (negate_low (rev checksum)).

(** [std::memcmp] on two arrays of bytes. *)
Fixpoint memcmp_bytes (a b : list Z) (n : nat) : Z :=
  match n with
  | O => 0
  | S n' =>
      match a, b with
      | x :: a', y :: b' =>
          if x <? y then -1 else if y <? x then 1 else memcmp_bytes a' b' n'
      | _, _ => 0
      end
  end.

Definition RandomPartitioner (md5 : string -> list Z) : Partitioner := {|
  assign_token := fun _ key => random_token (md5 key);
  compare_token := fun tokenA keyA tokenB keyB =>
    let result := memcmp_bytes tokenA tokenB 16 in
    if negb (result =? 0) then result else compare_keys keyA keyB
|}.

(** Sixteen bytes. *)
Definition is_checksum (bs : list Z) : Prop :=
  List.length bs = 16%nat /\ Forall (fun b => 0 <= b < 256) bs.

(** * Properties *)

(** ** The varint decoders *)

(** Through a [CompressedBuffer] every sampled integer comes back. *)
Lemma read_unsigned_vint_compressed_sampled :
  map decode_compressed sampled_vints = sampled_vints.
Proof. vm_compute. reflexivity. Qed.

(** C5: through an [UncompressedBuffer] eight of the nine sampled integers
    come back from [read_unsigned_vint] unchanged, and 127 comes back as 0
    with the buffer at EOF: its single byte 0x7f fails the test
    [*firstByte < 0x7f], no leading one is counted, and [read_bytes(0)]
    reports EOF because [fread] of zero bytes returns 0. *)
Theorem read_unsigned_vint_uncompressed_sampled :
  map decode_uncompressed sampled_vints
  = [0; 126; 0; 128; 16383; 16384; 2 ^ 56 - 1; 2 ^ 56; 2 ^ 63 - 1]
  /\ encode_unsigned_vint 127 = [0x7f]
  /\ read_unsigned_vint (open_uncompressed [0x7f])
     = (mkUncompressed [0x7f] 1 true, 0).
Proof. vm_compute. repeat split; reflexivity. Qed.

(** C6: [read_vint] applies the zigzag transform a second time instead of
    undoing it: on the encodings of the zigzag images of 0, 1, -1, 2, -2 it
    returns 0, 4, 2, 8, 6. *)
Theorem read_vint_applies_zigzag_again :
  map (fun v => snd (read_vint (open_compressed
                                  (encode_unsigned_vint (zigzag v)))))
      [0; 1; -1; 2; -2]
  = [0; 4; 2; 8; 6]
  /\ encode_unsigned_vint (zigzag 1) = [2].
Proof. vm_compute. split; reflexivity. Qed.

(** ** The reader state machine *)

(** Case analysis of results in the [result] monad. *)
Lemma bind_Done {A B : Type} (c : result A) (k : A -> result B) (b : B) :
  bind c k = Done b -> exists a, c = Done a /\ k a = Done b.
Proof. destruct c; simpl; intros E; try discriminate. eauto. Qed.

Lemma assert_Done (c : bool) (u : unit) : assert c = Done u -> c = true.
Proof. destruct c; simpl; intros E; [reflexivity | discriminate]. Qed.

Ltac inv_bind H :=
  let a := fresh "a" in
  let Ha := fresh "Ha" in
  apply bind_Done in H; destruct H as [a [Ha H]].

(** [read_cell] never returns false. *)
Lemma read_cell_true (t : OldSStable) (b : CompressedBuffer)
      (t' : OldSStable) (r : bool) :
  read_cell t b = Done (t', r) -> r = true.
Proof.
  unfold read_cell. intros E. inv_bind E. destruct a as [b1 flags].
  destruct (flag_set flags RANGE_TOMBSTONE_MASK).
  - inv_bind E. destruct a as [b2 e].
    destruct (read_longlong (skip_bytes b2 4)). congruence.
  - destruct (if flag_set flags COUNTER_MASK then _ else _) as [b2 c].
    destruct (read_longlong b2). congruence.
Qed.

(** [read_name] returns false only on an empty name, and then it parks the
    machine at [READ_ROW]. *)
Lemma read_name_false (t t' : OldSStable) :
  read_name t = Done (t', false) -> fsm t' = READ_ROW.
Proof.
  unfold read_name. intros E. inv_bind E. inv_bind E. destruct a0 as [b nm].
  destruct (string_empty nm).
  - injection E as <-. reflexivity.
  - apply read_cell_true in E. discriminate.
Qed.

(** [skip_unread_data] moves the buffer and the machine only. *)
Lemma skip_unread_data_members (t t1 : OldSStable) :
  skip_unread_data t = Done t1 ->
  config t1 = config t /\ remaining_columns t1 = remaining_columns t
  /\ next_key_value t1 = next_key_value t
  /\ next_token_value t1 = next_token_value t
  /\ next_column_info t1 = next_column_info t.
Proof.
  unfold skip_unread_data. destruct (FSM_eqb (fsm t) READ_COLUMN_DATA).
  - intros E. inv_bind E. injection E as <-. simpl. auto.
  - intros E. injection E as <-. auto.
Qed.

(** The three ways [read_column] returns. *)
Lemma read_column_cases (t t' : OldSStable) (r : bool) :
  OldSStable_read_column t = Done (t', r) ->
  exists t1,
    skip_unread_data t = Done t1 /\ fsm t1 = READ_COLUMN /\
    (((version (config t) <? VERSION_JA) = true /\
      (remaining_columns t >? 0) = true /\
      read_name (with_remaining (with_column t1 (clear_flags (next_column_info t1)))
                                (remaining_columns t1 - 1)) = Done (t', r))
     \/ ((version (config t) <? VERSION_JA) = true /\
         (remaining_columns t >? 0) = false /\ r = false /\
         fsm t' = READ_COLUMN)
     \/ ((version (config t) <? VERSION_JA) = false /\
         read_name (with_column t1 (clear_flags (next_column_info t1)))
         = Done (t', r))).
Proof.
  unfold OldSStable_read_column. intros E.
  inv_bind E. rename a into t1. inv_bind E.
  apply assert_Done in Ha0.
  assert (Hf : fsm t1 = READ_COLUMN) by (destruct (fsm t1); simpl in *; congruence).
  destruct (skip_unread_data_members _ _ Ha) as [Hc [Hr _]].
  exists t1. split; [exact Ha|]. split; [exact Hf|].
  simpl in E. rewrite Hc, Hr in E.
  destruct (version (config t) <? VERSION_JA) eqn:Hv.
  - destruct (remaining_columns t >? 0) eqn:Hrem.
    + left. rewrite Hr. auto.
    + right. left. injection E as <- <-. simpl. auto.
  - right. right. auto.
Qed.

(** From JA on, the empty name that ends a partition parks the machine at
    [READ_ROW]. *)
Lemma read_column_false_from_JA (t t' : OldSStable) :
  VERSION_JA <= version (config t) ->
  OldSStable_read_column t = Done (t', false) ->
  fsm t' = READ_ROW.
Proof.
  intros Hv E.
  apply read_column_cases in E.
  destruct E as [t1 [_ [_ [[Hlt _]|[[Hlt _]|[_ E]]]]]].
  - apply Z.ltb_lt in Hlt. lia.
  - apply Z.ltb_lt in Hlt. lia.
  - eapply read_name_false; eauto.
Qed.

(** Before JA the column count runs out instead, and the machine stays at
    [READ_COLUMN]; the [read_row] that follows fails its assert. *)
Lemma read_column_false_before_JA (p : Partitioner) (t : OldSStable) :
  version (config t) < VERSION_JA ->
  fsm t = READ_COLUMN ->
  remaining_columns t = 0 ->
  exists t', OldSStable_read_column t = Done (t', false)
             /\ fsm t' = READ_COLUMN
             /\ OldSStable_read_row p t' = Crash.
Proof.
  intros Hv Hf Hr. unfold OldSStable_read_column, skip_unread_data.
  rewrite Hf. simpl. rewrite Hf. simpl.
  replace (version (config t) <? VERSION_JA) with true
    by (symmetry; apply Z.ltb_lt; exact Hv).
  rewrite Hr. simpl.
  eexists. split; [reflexivity|]. split; [exact Hf|].
  unfold OldSStable_read_row. simpl. rewrite Hf. reflexivity.
Qed.

(** C7: on a table of a version before JA (here IC) [read_column] returns
    false at the end of the partition with the machine at [READ_COLUMN],
    not [READ_ROW], and the assert at the head of the [read_row] that
    follows fails. *)
Theorem counted_read_column_leaves_READ_COLUMN :
  Scenario.counted_k_run = Done (false, READ_COLUMN, false, Crash).
Proof. vm_compute. reflexivity. Qed.

(** The same partition in a KA table: the machine is parked at [READ_ROW]
    and [read_row] returns, here with EOF. *)
Lemma ka_read_column_parks_at_READ_ROW :
  Scenario.ka_k_run = Done (false, READ_ROW, false, true).
Proof. vm_compute. reflexivity. Qed.

(** ** Copies of the iterator *)

(** C9: a reader and its duplicate share the buffer.  After the copy of an
    iterator whose reader is open, one [read_column] on the copy moves the
    buffer position of the reader of the original from 28 to 47, and the
    original, which would have moved on to the cell "c2", now reads the end
    of the partition instead. *)
Theorem duplicate_shares_the_buffer :
  Scenario.copy_run
  = Done (Some 28, Some 47, (true, "c2"%string), (false, EmptyString)).
Proof. vm_compute. reflexivity. Qed.

(** ** find *)

(** C8: [find "d"] under the Murmur3 partitioner over a table whose only
    partition "a" sorts before "d".  The scan of the index passes the last
    entry, reads an empty key and position 0 at the end of the index, and
    accepts them because the token of "d" is below the token 0 of the empty
    key; the iteration then delivers the partition "a", which is not in the
    suffix of [begin()]'s output from "d" on. *)
Theorem find_past_the_last_key_restarts_the_table :
  Scenario.sink_calls (find 10 Murmer3Partitioner [Scenario.only_a] "d")
  = Done [new_row "a"; new_column "x" "1" 10]
  /\ Scenario.sink_calls (begin Murmer3Partitioner [Scenario.only_a])
     = Done [new_row "a"; new_column "x" "1" 10]
  /\ Scenario.murmur_token "a" < Scenario.murmur_token "d" < 0
  /\ Scenario.murmur_token "" = 0
  /\ (do it <- find 10 Murmer3Partitioner [Scenario.only_a] "d";
      Done (map next_key_value (m_tables it), map start_offset (m_tables it)))
     = Done ([EmptyString], [0]).
Proof. vm_compute. repeat split; reflexivity. Qed.

(** ** The choice among equal column names *)

Lemma subseq_refl {A : Type} (l : list A) : subseq l l.
Proof. induction l; constructor; assumption. Qed.

Lemma subseq_app_left {A : Type} (a l1 l2 : list A) :
  subseq l1 l2 -> subseq l1 (a ++ l2).
Proof. intros Hs. induction a; simpl; [assumption | constructor; assumption]. Qed.

Lemma subseq_app_skip {A : Type} (a : list A) :
  forall (x : A) (l b : list A), subseq l (a ++ b) -> subseq l (a ++ x :: b).
Proof.
  induction a as [|y a IH]; simpl; intros x l b Hs.
  - constructor. assumption.
  - inversion Hs; subst.
    + apply subseq_skip. apply IH. assumption.
    + apply subseq_take. apply IH. assumption.
Qed.

Lemma subseq_In {A : Type} (l1 l2 : list A) (x : A) :
  subseq l1 l2 -> In x l1 -> In x l2.
Proof.
  induction 1; simpl; intros Hin; auto.
  destruct Hin as [<-|Hin]; auto.
Qed.

Section Choice.
Context {R : Type} `{SStable R}.

(** The column matches come in the order of the row matches. *)
Lemma first_column_loop_subseq (tables : list R) :
  forall matches pMinString acc matched,
    first_column_loop tables matches pMinString acc = Done matched ->
    subseq matched (acc ++ matches).
Proof.
  induction matches as [|this rest IH]; simpl; intros pMin acc matched E.
  - injection E as <-. rewrite app_nil_r. apply subseq_refl.
  - inv_bind E.
    destruct (_ <? 0).
    + apply IH in E. simpl in E. apply subseq_app_left. exact E.
    + destruct (_ =? 0).
      * apply IH in E. rewrite <- app_assoc in E. exact E.
      * apply IH in E. apply subseq_app_skip. exact E.
Qed.

Lemma find_first_column_matches_subseq (tables : list R)
      (matches matched : list nat) :
  find_first_column_matches tables matches = Done matched ->
  subseq matched matches.
Proof. intros E. apply first_column_loop_subseq in E. exact E. Qed.

(** The loop of [choose_latest_match] keeps the incumbent unless a later
    entry is strictly newer. *)
Lemma latest_loop_spec (tables : list R) :
  forall rest lastTs lastTs_index w,
    latest_loop tables rest lastTs lastTs_index = Done w ->
    (w = lastTs_index
     /\ forall x tx, In x rest -> table_at tables x = Done tx ->
                     ts (next_column tx) <= lastTs)
    \/ exists pre post tw,
        rest = pre ++ w :: post
        /\ table_at tables w = Done tw
        /\ lastTs < ts (next_column tw)
        /\ (forall x tx, In x pre -> table_at tables x = Done tx ->
                         ts (next_column tx) < ts (next_column tw))
        /\ (forall x tx, In x post -> table_at tables x = Done tx ->
                         ts (next_column tx) <= ts (next_column tw)).
Proof.
  induction rest as [|this rest IH]; simpl; intros lastTs idx w E.
  - injection E as <-. left. split; [reflexivity|]. intros x tx [].
  - inv_bind E. rename a into t.
    destruct (ts (next_column t) >? lastTs) eqn:Hgt.
    + apply Z.gtb_lt in Hgt.
      apply IH in E. destruct E as [[-> Hall]|[pre [post [tw [-> [Htw [Hlt [Hpre Hpost]]]]]]]].
      * right. exists [], rest, t. simpl. repeat split; auto.
        intros x tx [].
      * right. exists (this :: pre), post, tw. simpl.
        repeat split; auto; try lia.
        intros x tx [<-|Hin] Hx; [|eauto].
        rewrite Ha in Hx. injection Hx as <-. exact Hlt.
    + assert (Hle : ts (next_column t) <= lastTs).
      { destruct (Z.gtb_spec (ts (next_column t)) lastTs); [discriminate|lia]. }
      apply IH in E. destruct E as [[-> Hall]|[pre [post [tw [-> [Htw [Hlt [Hpre Hpost]]]]]]]].
      * left. split; [reflexivity|].
        intros x tx [<-|Hin] Hx; [|eauto].
        rewrite Ha in Hx. injection Hx as <-. exact Hle.
      * right. exists (this :: pre), post, tw. simpl.
        repeat split; auto.
        intros x tx [<-|Hin] Hx; [|eauto].
        rewrite Ha in Hx. injection Hx as <-. lia.
Qed.

(** C10 (as amended): when several matched readers hold the chosen name,
    [choose_latest_match] returns the first reader, in the order of the
    column-match array, among those with the greatest timestamp: every
    earlier entry is strictly older and no later entry is newer.  That
    array follows the order of the row-match array [matches]. *)
Theorem choose_latest_match_first_of_newest
        (tables : list R) (matches matched_columns : list nat) (w : nat) :
  find_first_column_matches tables matches = Done matched_columns ->
  choose_latest_match tables matched_columns = Done w ->
  subseq matched_columns matches
  /\ exists pre post tw,
      matched_columns = pre ++ w :: post
      /\ table_at tables w = Done tw
      /\ (forall x tx, In x pre -> table_at tables x = Done tx ->
                       ts (next_column tx) < ts (next_column tw))
      /\ (forall x tx, In x post -> table_at tables x = Done tx ->
                       ts (next_column tx) <= ts (next_column tw)).
Proof.
  intros Hm E. split; [eapply find_first_column_matches_subseq; exact Hm|].
  unfold choose_latest_match in E.
  destruct matched_columns as [|first rest]; [discriminate|].
  inv_bind E. rename a into t0.
  apply latest_loop_spec in E.
  destruct E as [[-> Hall]|[pre [post [tw [-> [Htw [Hlt [Hpre Hpost]]]]]]]].
  - exists [], rest, t0. simpl. repeat split; auto. intros x tx [].
  - exists (first :: pre), post, tw. simpl. repeat split; auto.
    intros x tx [<-|Hin] Hx; [|eauto].
    rewrite Ha in Hx. injection Hx as <-. exact Hlt.
Qed.

End Choice.

(** ** The map of range tombstones *)

Lemma string_lt_iff (a b : string) :
  string_lt a b = true <-> String_as_OT.lt a b.
Proof.
  unfold string_lt. rewrite <- String_as_OT.cmp_lt. unfold String_as_OT.cmp.
  destruct (String.compare a b); split; intros E; congruence.
Qed.

Lemma string_lt_trans (a b c : string) :
  string_lt a b = true -> string_lt b c = true -> string_lt a c = true.
Proof.
  rewrite !string_lt_iff. apply String_as_OT.lt_trans.
Qed.

Lemma string_lt_irrefl (a : string) : string_lt a a = false.
Proof.
  unfold string_lt.
  replace (String.compare a a) with Eq; [reflexivity|].
  symmetry. apply String_as_OT.cmp_eq. reflexivity.
Qed.

Lemma string_lt_eqb (a b : string) :
  string_lt a b = true -> String.eqb a b = false.
Proof.
  intros Hlt. apply String.eqb_neq. intros ->.
  rewrite string_lt_irrefl in Hlt. discriminate.
Qed.

Lemma map_sorted_tail (e : string * Z) (m : list (string * Z)) :
  map_sorted (e :: m) -> map_sorted m.
Proof. intros Hs. inversion Hs; assumption. Qed.

Lemma map_sorted_head (k : string) (v : Z) (m : list (string * Z))
      (k' : string) (v' : Z) :
  map_sorted ((k, v) :: m) -> In (k', v') m -> string_lt k k' = true.
Proof.
  intros Hs Hin. inversion Hs as [|? ? _ Hall]; subst.
  rewrite Forall_forall in Hall. apply (Hall (k', v') Hin).
Qed.

(** On a sorted map [find] returns the value stored under the key. *)
Lemma map_find_In (m : list (string * Z)) (k : string) (v : Z) :
  map_sorted m -> (map_find k m = Some v <-> In (k, v) m).
Proof.
  induction m as [|[k' v'] m IH]; simpl; intros Hs.
  - split; [discriminate | intros []].
  - destruct (String.eqb_spec k k') as [->|Hne].
    + split.
      * intros E. injection E as <-. left. reflexivity.
      * intros [E|Hin]; [congruence|].
        apply (map_sorted_head _ _ _ _ _ Hs) in Hin.
        rewrite string_lt_irrefl in Hin. discriminate.
    + rewrite (IH (map_sorted_tail _ _ Hs)).
      split; [auto|]. intros [E|Hin]; [congruence | assumption].
Qed.

Lemma map_find_None (m : list (string * Z)) (k : string) :
  map_find k m = None -> forall v, ~ In (k, v) m.
Proof.
  induction m as [|[k' v'] m IH]; simpl; intros E v Hin; [assumption|].
  destruct (String.eqb_spec k k') as [->|Hne]; [discriminate|].
  destruct Hin as [Heq|Hin]; [congruence | exact (IH E v Hin)].
Qed.

(** The entries of [m[k] = v]. *)
Lemma map_assign_In (m : list (string * Z)) (k : string) (v : Z)
      (k0 : string) (v0 : Z) :
  map_sorted m ->
  (In (k0, v0) (map_assign k v m)
   <-> (k0 = k /\ v0 = v) \/ (k0 <> k /\ In (k0, v0) m)).
Proof.
  induction m as [|[k' v'] m IH]; simpl; intros Hs.
  - split.
    + intros [E|[]]. injection E as <- <-. left. auto.
    + intros [[-> ->]|[_ []]]. left. reflexivity.
  - destruct (string_lt k k') eqn:Hlt.
    + simpl. split.
      * intros [E|[E|Hin]].
        -- injection E as <- <-. left. auto.
        -- injection E as <- <-. right. split; [|left; reflexivity].
           intros ->. rewrite string_lt_irrefl in Hlt. discriminate.
        -- right. split; [|right; assumption].
           intros ->. apply (map_sorted_head _ _ _ _ _ Hs) in Hin.
           pose proof (string_lt_trans _ _ _ Hlt Hin) as Hc.
           rewrite string_lt_irrefl in Hc. discriminate.
      * intros [[-> ->]|[_ Hin]]; [left; reflexivity | right; assumption].
    + destruct (String.eqb_spec k k') as [->|Hne].
      * simpl. split.
        -- intros [E|Hin].
           ++ injection E as <- <-. left. auto.
           ++ right. split; [|right; assumption].
              intros ->. apply (map_sorted_head _ _ _ _ _ Hs) in Hin.
              rewrite string_lt_irrefl in Hin. discriminate.
        -- intros [[-> ->]|[Hne [E|Hin]]].
           ++ left. reflexivity.
           ++ congruence.
           ++ right. assumption.
      * simpl. rewrite (IH (map_sorted_tail _ _ Hs)). split.
        -- intros [E|[[-> ->]|[Hk Hin]]].
           ++ injection E as <- <-. right. split; [congruence | left; reflexivity].
           ++ left. auto.
           ++ right. split; [assumption | right; assumption].
        -- intros [[-> ->]|[Hk [E|Hin]]].
           ++ right. left. auto.
           ++ left. assumption.
           ++ right. right. auto.
Qed.

Lemma string_lt_total (a b : string) :
  string_lt a b = false -> a <> b -> string_lt b a = true.
Proof.
  unfold string_lt. intros Hab Hne.
  rewrite String.compare_antisym.
  destruct (String.compare a b) eqn:E; simpl; try reflexivity; try discriminate.
  apply String.compare_eq_iff in E. contradiction.
Qed.

Lemma map_assign_sorted (m : list (string * Z)) (k : string) (v : Z) :
  map_sorted m -> map_sorted (map_assign k v m).
Proof.
  induction m as [|[k' v'] m IH]; simpl; intros Hs.
  - constructor; constructor.
  - destruct (string_lt k k') eqn:Hlt.
    + constructor; [assumption|].
      constructor; [exact Hlt|].
      inversion Hs as [|? ? _ Hall]; subst.
      rewrite Forall_forall in *. intros [k2 v2] Hin. simpl.
      apply (string_lt_trans _ _ _ Hlt (Hall _ Hin)).
    + destruct (String.eqb_spec k k') as [->|Hne].
      * inversion Hs as [|? ? Hs' Hall]; subst. constructor; assumption.
      * inversion Hs as [|? ? Hs' Hall]; subst.
        constructor; [apply IH; assumption|].
        rewrite Forall_forall in *. intros [k2 v2] Hin. simpl.
        apply map_assign_In in Hin; [|assumption].
        destruct Hin as [[-> ->]|[_ Hin]].
        -- apply string_lt_total; [assumption | congruence].
        -- apply (Hall _ Hin).
Qed.

(** [lower_bound(name)] on a sorted map: the entries whose key is not less
    than [name]. *)
Lemma lower_bound_In (m : list (string * Z)) (nm k : string) (v : Z) :
  map_sorted m ->
  (In (k, v) (lower_bound nm m) <-> In (k, v) m /\ string_lt k nm = false).
Proof.
  induction m as [|[k' v'] m IH]; simpl; intros Hs.
  - tauto.
  - destruct (string_lt k' nm) eqn:Hlt.
    + rewrite (IH (map_sorted_tail _ _ Hs)). split.
      * intros [Hin Hk]. auto.
      * intros [[E|Hin] Hk]; [congruence | auto].
    + simpl. split.
      * intros [E|Hin].
        -- injection E as <- <-. auto.
        -- split; [auto|].
           destruct (string_lt k nm) eqn:Hk; [|reflexivity].
           pose proof (map_sorted_head _ _ _ _ _ Hs Hin) as Hkk.
           rewrite (string_lt_trans _ _ _ Hkk Hk) in Hlt. discriminate.
      * tauto.
Qed.

Lemma lower_bound_sorted (m : list (string * Z)) (nm : string) :
  map_sorted m -> map_sorted (lower_bound nm m).
Proof.
  induction m as [|[k' v'] m IH]; simpl; intros Hs; [assumption|].
  destruct (string_lt k' nm); [|assumption].
  apply IH. exact (map_sorted_tail _ _ Hs).
Qed.

(** [lower_bound != begin] exactly when an entry lies below [name]. *)
Lemma lower_bound_length (m : list (string * Z)) (nm : string) :
  (List.length (lower_bound nm m) <= List.length m)%nat.
Proof.
  induction m as [|[k' v'] m IH]; simpl; [lia|].
  destruct (string_lt k' nm); simpl; lia.
Qed.

Lemma lower_bound_begin (m : list (string * Z)) (nm : string) :
  map_sorted m ->
  Nat.eqb (List.length (lower_bound nm m)) (List.length m) = true ->
  lower_bound nm m = m.
Proof.
  destruct m as [|[k' v'] m]; simpl; intros Hs E; [reflexivity|].
  destruct (string_lt k' nm); [|reflexivity].
  apply Nat.eqb_eq in E. pose proof (lower_bound_length m nm). lia.
Qed.

Lemma lower_bound_erases (m : list (string * Z)) (nm : string) (k : string) (v : Z) :
  map_sorted m -> In (k, v) m -> string_lt k nm = true ->
  Nat.eqb (List.length (lower_bound nm m)) (List.length m) = false.
Proof.
  intros Hs Hin Hk. apply Nat.eqb_neq. intros E.
  apply Nat.eqb_eq in E. apply lower_bound_begin in E; [|assumption].
  rewrite <- E in Hin. apply lower_bound_In in Hin; [|assumption].
  destruct Hin as [_ Hk']. congruence.
Qed.

(** ** Range tombstones *)

Lemma newer_ge_stamp (minTime stamp : Z) :
  stamp <= (if (minTime =? STILL_ACTIVE) || (minTime <? stamp)
            then stamp else minTime).
Proof.
  destruct (minTime =? STILL_ACTIVE); simpl; [lia|].
  destruct (Z.ltb_spec minTime stamp); lia.
Qed.

Lemma newer_keeps (minTime stamp T : Z) :
  STILL_ACTIVE < T -> T <= minTime ->
  T <= (if (minTime =? STILL_ACTIVE) || (minTime <? stamp)
        then stamp else minTime).
Proof.
  intros HT Hle.
  destruct (Z.eqb_spec minTime STILL_ACTIVE); simpl; [lia|].
  destruct (Z.ltb_spec minTime stamp); lia.
Qed.

Lemma recalculate_ge_start (m : list (string * Z)) :
  forall minTime, STILL_ACTIVE < minTime -> minTime <= recalculate m minTime.
Proof.
  induction m as [|[k T] m IH]; simpl; intros minTime Hm; [lia|].
  pose proof (newer_keeps minTime T minTime Hm (Z.le_refl _)) as Hk.
  etransitivity; [exact Hk|]. apply IH. lia.
Qed.

Lemma recalculate_ge_entry (m : list (string * Z)) (k : string) (T : Z) :
  forall minTime, In (k, T) m -> STILL_ACTIVE < T -> T <= recalculate m minTime.
Proof.
  induction m as [|[k' T'] m IH]; simpl; intros minTime Hin HT; [contradiction|].
  destruct Hin as [E|Hin].
  - injection E as -> ->.
    pose proof (newer_ge_stamp minTime T) as Hs.
    etransitivity; [exact Hs|]. apply recalculate_ge_start. lia.
  - apply IH; assumption.
Qed.

Lemma covers_not_live (m : list (string * Z)) (minTime marked : Z)
      (K : string) (T : Z) (nm : string) (c : ColumnInfo) :
  covers m minTime marked -> In (K, T) m -> STILL_ACTIVE < T -> ts c <= T ->
  is_live nm c minTime = false.
Proof.
  intros [_ Hc] Hin HT Hts. specialize (Hc K T Hin HT).
  unfold is_live.
  destruct (Z.eqb_spec minTime STILL_ACTIVE); [lia|].
  destruct (Z.ltb_spec minTime (ts c)); [lia|].
  simpl. rewrite andb_false_r. reflexivity.
Qed.

Lemma erase_passed_spec (tombstones : list (string * Z)) (minTime marked : Z)
      (nm : string) (tombstones' : list (string * Z)) (minTime' : Z) :
  map_sorted tombstones -> covers tombstones minTime marked ->
  erase_passed tombstones minTime marked nm = (tombstones', minTime') ->
  map_sorted tombstones' /\ covers tombstones' minTime' marked
  /\ (forall K T, In (K, T) tombstones'
                  <-> In (K, T) tombstones /\ string_lt K nm = false)
  /\ ((exists K T, In (K, T) tombstones /\ string_lt K nm = true) ->
      minTime' = recalculate tombstones' marked).
Proof.
  intros Hs Hc. unfold erase_passed.
  destruct (Nat.eqb _ _) eqn:Hb; intros E; injection E as <- <-.
  - pose proof (lower_bound_begin _ _ Hs Hb) as Hlb.
    split; [assumption|]. split; [assumption|]. split.
    + intros K T. split; [|tauto].
      intros Hin. rewrite <- Hlb in Hin.
      apply lower_bound_In in Hin; [|assumption].
      exact Hin.
    + intros [K [T [Hin Hk]]].
      rewrite (lower_bound_erases _ _ _ _ Hs Hin Hk) in Hb. discriminate.
  - split; [apply lower_bound_sorted; assumption|].
    split; [|split].
    + split.
      * apply recalculate_ge_start.
      * intros k T Hin HT. eapply recalculate_ge_entry; eauto.
    + intros K T. apply lower_bound_In. assumption.
    + reflexivity.
Qed.

Section Tombstones.
Context {R : Type} `{SStable R}.

Lemma fold_tombstones_spec (tables : list R) (marked : Z) :
  forall matches tombstones minTime folded minTime',
    map_sorted tombstones -> covers tombstones minTime marked ->
    fold_tombstones tables matches tombstones minTime = Done (folded, minTime') ->
    map_sorted folded /\ covers folded minTime' marked
    /\ (forall K T, In (K, T) tombstones ->
                    exists T', In (K, T') folded /\ T <= T')
    /\ (forall i t, In i matches -> table_at tables i = Done t ->
                    range_tombstone (next_column t) = true ->
                    exists T', In (data (next_column t), T') folded
                               /\ ts (next_column t) <= T').
Proof.
  induction matches as [|this rest IH]; simpl;
    intros tombstones minTime folded minTime' Hs Hc E.
  - injection E as <- <-. repeat split; auto.
    + apply Hc.
    + apply Hc.
    + intros K T Hin. exists T. split; [assumption | lia].
    + intros i t [].
  - inv_bind E. rename a into t.
    destruct (range_tombstone (next_column t)) eqn:Hrt.
    + set (stamp := ts (next_column t)) in *.
      set (range_end := data (next_column t)) in *.
      set (tombs1 := match map_find range_end tombstones with
                     | Some found => if found <? stamp
                                     then map_assign range_end stamp tombstones
                                     else tombstones
                     | None => map_assign range_end stamp tombstones
                     end) in *.
      assert (Hs1 : map_sorted tombs1).
      { unfold tombs1. destruct (map_find range_end tombstones) as [found|];
          [destruct (found <? stamp)|]; auto using map_assign_sorted. }
      assert (Hold : forall K T, In (K, T) tombstones ->
                                 exists T', In (K, T') tombs1 /\ T <= T').
      { intros K T Hin. unfold tombs1.
        destruct (map_find range_end tombstones) as [found|] eqn:Hf.
        - destruct (Z.ltb_spec found stamp) as [Hlt|Hge].
          + destruct (String.eqb_spec K range_end) as [->|Hne].
            * exists stamp. split.
              -- apply map_assign_In; auto.
              -- apply map_find_In in Hf; [|assumption].
                 apply map_find_In in Hin; [|assumption].
                 apply map_find_In in Hf; [|assumption].
                 rewrite Hin in Hf. injection Hf as ->. lia.
            * exists T. split; [|lia]. apply map_assign_In; auto.
          + exists T. split; [assumption | lia].
        - destruct (String.eqb_spec K range_end) as [->|Hne].
          + exfalso. exact (map_find_None _ _ Hf T Hin).
          + exists T. split; [|lia]. apply map_assign_In; auto. }
      assert (Hnew : exists T', In (range_end, T') tombs1 /\ stamp <= T').
      { unfold tombs1.
        destruct (map_find range_end tombstones) as [found|] eqn:Hf.
        - destruct (Z.ltb_spec found stamp) as [Hlt|Hge].
          + exists stamp. split; [|lia]. apply map_assign_In; auto.
          + exists found. split; [|lia]. apply map_find_In; assumption.
        - exists stamp. split; [|lia]. apply map_assign_In; auto. }
      assert (Hin1 : forall K T, In (K, T) tombs1 ->
                                 In (K, T) tombstones \/ T = stamp).
      { intros K T. unfold tombs1.
        destruct (map_find range_end tombstones) as [found|];
          [destruct (found <? stamp)|]; auto;
          intros Hin; apply map_assign_In in Hin; auto;
          destruct Hin as [[_ ->]|[_ Hin]]; auto. }
      assert (Hc1 : covers tombs1
                      (if (minTime =? STILL_ACTIVE) || (minTime <? stamp)
                       then stamp else minTime) marked).
      { destruct Hc as [Hm He]. split.
        - intros Hmk. apply newer_keeps; auto.
        - intros K T Hin HT. destruct (Hin1 K T Hin) as [Hin0| ->].
          + apply newer_keeps; eauto.
          + apply newer_ge_stamp. }
      destruct (IH _ _ _ _ Hs1 Hc1 E) as [Hsf [Hcf [Holdf Hnewf]]].
      repeat split; auto.
      * apply Hcf.
      * apply Hcf.
      * intros K T Hin. destruct (Hold K T Hin) as [T1 [Hin1' Hle1]].
        destruct (Holdf K T1 Hin1') as [T2 [Hin2 Hle2]].
        exists T2. split; [assumption | lia].
      * intros i ti [<-|Hin] Hti Hr.
        -- rewrite Ha in Hti. injection Hti as <-.
           destruct Hnew as [T1 [Hin1' Hle1]].
           destruct (Holdf _ T1 Hin1') as [T2 [Hin2 Hle2]].
           exists T2. split; [assumption | unfold stamp in *; lia].
        -- eauto.
    + destruct (IH _ _ _ _ Hs Hc E) as [Hsf [Hcf [Holdf Hnewf]]].
      repeat split; auto.
      * apply Hcf.
      * apply Hcf.
      * intros i ti [<-|Hin] Hti Hr; [|eauto].
        rewrite Ha in Hti. injection Hti as <-. congruence.
Qed.

(** C2 (as amended): [update_tombstones], called for the current column
    name, keeps a stored range tombstone exactly while its end key is not
    less than the name: an entry whose end key is less than the name is
    erased, one whose end key equals the name stays.  While an entry with
    timestamp T stays, no cell with a timestamp up to T is delivered; and
    once an entry is erased, [minTime] is rebuilt from the partition
    tombstone and the entries that stay. *)
Theorem update_tombstones_keeps_from_name
        (tables : list R) (tombstones : list (string * Z)) (minTime : Z)
        (matches : list nat) (marked : Z) (nm : string)
        (tombstones' : list (string * Z)) (minTime' : Z) :
  map_sorted tombstones -> covers tombstones minTime marked ->
  update_tombstones tables tombstones minTime matches marked nm
  = Done (tombstones', minTime') ->
  map_sorted tombstones' /\ covers tombstones' minTime' marked
  /\ (forall K T, In (K, T) tombstones' -> string_lt K nm = false)
  /\ (forall K T, In (K, T) tombstones -> string_lt K nm = false ->
                  exists T', In (K, T') tombstones' /\ T <= T')
  /\ (forall i t, In i matches -> table_at tables i = Done t ->
                  range_tombstone (next_column t) = true ->
                  string_lt (data (next_column t)) nm = false ->
                  exists T', In (data (next_column t), T') tombstones'
                             /\ ts (next_column t) <= T')
  /\ (forall K T c, In (K, T) tombstones' -> STILL_ACTIVE < T -> ts c <= T ->
                    is_live nm c minTime' = false)
  /\ ((exists K T, In (K, T) tombstones /\ string_lt K nm = true) ->
      minTime' = recalculate tombstones' marked).
Proof.
  intros Hs Hc E. unfold update_tombstones in E.
  inv_bind E. destruct a as [folded mt]. injection E as E.
  destruct (fold_tombstones_spec _ _ _ _ _ _ _ Hs Hc Ha)
    as [Hsf [Hcf [Hold Hnew]]].
  destruct (erase_passed_spec _ _ _ _ _ _ Hsf Hcf E)
    as [Hs' [Hc' [Hiff Hre]]].
  split; [assumption|]. split; [assumption|].
  split; [|split; [|split; [|split]]].
  - intros K T Hin. apply Hiff in Hin. tauto.
  - intros K T Hin Hk. destruct (Hold K T Hin) as [T' [Hin' Hle]].
    exists T'. split; [|assumption]. apply Hiff. auto.
  - intros i t Hin Ht Hr Hk. destruct (Hnew i t Hin Ht Hr) as [T' [Hin' Hle]].
    exists T'. split; [|assumption]. apply Hiff. auto.
  - intros K T c Hin HT Hts. eapply covers_not_live; eauto.
  - intros [K [T [Hin Hk]]]. apply Hre.
    destruct (Hold K T Hin) as [T' [Hin' _]]. eauto.
Qed.

End Tombstones.

(** ** One turn of the column loop *)

Section Step.
Context {R : Type} `{SStable R}.
Variable partitioner : Partitioner.

Lemma deliver_event (it : iterator R) (first latest : nat)
      (it' : iterator R) (e : Event) :
  deliver it first latest = Done (it', e) ->
  exists t t' value ok,
    table_at (m_tables it) latest = Done t
    /\ read_column_data t EmptyString = Done (t', value, ok)
    /\ it' = with_table it latest t'
    /\ event_value e = Some value
    /\ event_ts e = Some (ts (next_column t'))
    /\ is_column e = true.
Proof.
  unfold deliver. intros E.
  inv_bind E. rename a into t. inv_bind E. destruct a as [[t' value] ok].
  inv_bind E.
  exists t, t', value, ok.
  destruct (expiring (next_column t')); injection E as <- <-; simpl; auto 10.
Qed.


End Step.

(** ** A whole record *)

Section Record.
Context {R : Type} `{SStable R}.
Variable partitioner : Partitioner.


Lemma deactivate_table_counters (it it' : iterator R) (index : nat) :
  deactivate_table it index = Done it' -> counters it' = counters it.
Proof.
  unfold deactivate_table. intros E. inv_bind E.
  injection E as <-. reflexivity.
Qed.



Lemma advance_counters :
  forall matched_columns (it it' : iterator R) matches matches',
    advance partitioner it matches matched_columns = Done (it', matches') ->
    counters it' = counters it.
Proof.
  induction matched_columns as [|index rest IH]; simpl;
    intros it it' matches matches' E.
  - injection E as <- <-. reflexivity.
  - inv_bind E. inv_bind E. destruct a0 as [t more]. destruct more.
    + apply IH in E. rewrite E. reflexivity.
    + inv_bind E. destruct a0 as [t' eof]. inv_bind E.
      apply IH in E. rewrite E.
      destruct eof.
      * apply deactivate_table_counters in Ha2. rewrite Ha2. reflexivity.
      * injection Ha2 as <-. reflexivity.
Qed.

Lemma column_step_columns (it : iterator R) (matches : list nat)
      (tombstones : list (string * Z)) (minTime marked : Z)
      (it' : iterator R) (matches' : list nat)
      (tombstones' : list (string * Z)) (minTime' : Z) (events : list Event) :
  column_step partitioner it matches tombstones minTime marked
  = Done (Some (it', matches', tombstones', minTime', events)) ->
  counters it' = counters it /\ forallb is_column events = true.
Proof.
  unfold column_step. intros E. inv_bind E.
  destruct a as [|first rest]; [discriminate|].
  inv_bind E. inv_bind E. destruct a0 as [tombs1 mt1].
  inv_bind E. inv_bind E. inv_bind E. destruct a2 as [it1 ev1].
  inv_bind E. destruct a2 as [it2 ms2].
  injection E as <- <- <- <- <-.
  apply advance_counters in Ha5. rewrite Ha5.
  destruct (is_live _ _ _).
  - inv_bind Ha4. destruct a2 as [it3 e]. injection Ha4 as <- <-.
    apply deliver_event in Ha6.
    destruct Ha6 as [t [t' [value [ok [_ [_ [-> [_ [_ Hc]]]]]]]]].
    split; [reflexivity|]. simpl. rewrite Hc. reflexivity.
  - injection Ha4 as <- <-. split; reflexivity.
Qed.

Lemma column_loop_columns :
  forall fuel (it : iterator R) matches tombstones minTime marked it' events,
    column_loop partitioner fuel it matches tombstones minTime marked
    = Done (it', events) ->
    counters it' = counters it /\ forallb is_column events = true.
Proof.
  induction fuel as [|fuel IH]; simpl;
    intros it matches tombstones minTime marked it' events E;
    [discriminate|].
  inv_bind E. destruct a as [[[[[it1 ms1] tb1] mt1] ev1]|].
  - inv_bind E. destruct a as [it2 more]. injection E as <- <-.
    apply column_step_columns in Ha. destruct Ha as [Hc1 He1].
    apply IH in Ha0. destruct Ha0 as [Hc2 He2].
    split; [congruence|]. rewrite forallb_app, He1, He2. reflexivity.
  - injection E as <- <-. split; reflexivity.
Qed.


End Record.

(** ** The scenarios *)


(** C2 (counterexample): the range tombstone ends at "m" with timestamp 8.
    The cell named "m", whose name is not less than the end key, is
    withheld all the same: with the tombstone only n is delivered, without
    it a, m and n are.  [update_tombstones] keeps the entry at the name
    "m". *)
Lemma cell_named_as_the_end_key_is_shadowed :
  Scenario.all_calls Scenario.ranged
  = Done [new_row "k"; new_column "n" "N" 5]
  /\ Scenario.all_calls Scenario.unranged
     = Done [new_row "k"; new_column "a" "A" 5; new_column "m" "M" 5;
             new_column "n" "N" 5]
  /\ erase_passed [("m"%string, 8)] 8 STILL_ACTIVE "m"
     = ([("m"%string, 8)], 8)
  /\ string_lt "m" "m" = false.
Proof. vm_compute. repeat split; reflexivity. Qed.

(** C10 (counterexample): tables 1 and 2 hold b with the same timestamp.
    Table 0 runs out first and the last row match, 2, takes its place, so
    the matches are scanned in the order 2, 1 and the cell delivered is the
    one of table 2, not the one of the lower index 1. *)
Lemma tie_goes_to_the_higher_table_index :
  Scenario.all_calls Scenario.tie
  = Done [new_row "k"; new_column "a" "A0" 1; new_column "b" "from2" 7]
  /\ (do it <- begin ByteOrderPartitioner Scenario.tie;
      Done (map (fun t => data_db (config t)) (m_tables it)))
     = Done (map data_db Scenario.tie)
  /\ snd Scenario.tie_after_a = [2; 1]%nat
  /\ choose_latest_match (m_tables (fst Scenario.tie_after_a)) [2; 1]%nat
     = Done 2%nat.
Proof. vm_compute. repeat split; reflexivity. Qed.

(** ** The theorems at the scenarios *)

Ltac evaluate := vm_compute; reflexivity.



Lemma update_tombstones_keeps_from_name_witness :
  update_tombstones (m_tables Scenario.ranged_it) [] STILL_ACTIVE [0%nat]
                    STILL_ACTIVE "a"
  = Done ([("m"%string, 8)], 8)
  /\ forall c, ts c <= 8 -> is_live "a" c 8 = false.
Proof.
  assert (E : update_tombstones (m_tables Scenario.ranged_it) [] STILL_ACTIVE
                                [0%nat] STILL_ACTIVE "a"
              = Done ([("m"%string, 8)], 8)) by evaluate.
  split; [exact E|].
  destruct (update_tombstones_keeps_from_name
              (m_tables Scenario.ranged_it) [] STILL_ACTIVE [0%nat]
              STILL_ACTIVE "a" [("m"%string, 8)] 8)
    as [_ [_ [_ [_ [_ [Hshadow _]]]]]].
  - constructor.
  - split; [intros Hlt; exfalso; exact (Z.lt_irrefl _ Hlt) | intros k T []].
  - exact E.
  - intros c Hts. apply (Hshadow "m"%string 8 c).
    + left. reflexivity.
    + reflexivity.
    + exact Hts.
Defined.

Lemma choose_latest_match_first_of_newest_witness :
  find_first_column_matches (m_tables (fst Scenario.tie_after_a)) [2; 1]%nat
  = Done [2; 1]%nat
  /\ choose_latest_match (m_tables (fst Scenario.tie_after_a)) [2; 1]%nat
     = Done 2%nat
  /\ exists pre post, [2; 1]%nat = pre ++ 2%nat :: post.
Proof.
  assert (E1 : find_first_column_matches (m_tables (fst Scenario.tie_after_a))
                                         [2; 1]%nat = Done [2; 1]%nat)
    by evaluate.
  assert (E2 : choose_latest_match (m_tables (fst Scenario.tie_after_a))
                                   [2; 1]%nat = Done 2%nat)
    by evaluate.
  split; [exact E1|]. split; [exact E2|].
  destruct (choose_latest_match_first_of_newest
              (m_tables (fst Scenario.tie_after_a)) [2; 1]%nat [2; 1]%nat
              2%nat E1 E2)
    as [_ [pre [post [tw [Hsplit _]]]]].
  exists pre, post. exact Hsplit.
Defined.

(** ** The order of the partitions *)

(** C4: two tables under the Murmur3 partitioner, one holding the single
    partition "a" and one the single partition "d", so the keys of each file
    are in order.  The iterator [find "d"] builds passes "d" and then "a" to
    [new_row], although "a" sorts before "d": [init_at_key] kept the first
    table with the empty key and position 0 it read at the end of the
    index, so the table is sorted after "d" and then read from its start. *)
Theorem find_delivers_keys_out_of_order :
  (do events <- Scenario.sink_calls
                  (find 10 Murmer3Partitioner
                        [Scenario.only_a; Scenario.only_d] "d");
   Done (new_row_keys events))
  = Done ["d"%string; "a"%string]
  /\ compare_token Murmer3Partitioner
       (assign_token Murmer3Partitioner (repeat 0 16) "d") "d"
       (assign_token Murmer3Partitioner (repeat 0 16) "a") "a" = 1
  /\ (do events <- Scenario.sink_calls
                     (begin Murmer3Partitioner
                            [Scenario.only_a; Scenario.only_d]);
      Done (new_row_keys events))
     = Done ["a"%string; "d"%string].
Proof. vm_compute. repeat split; reflexivity. Qed.

(** ** Lists, as the iterator uses them *)

Lemma subseq_NoDup {A : Type} (l1 l2 : list A) :
  subseq l1 l2 -> NoDup l2 -> NoDup l1.
Proof.
  induction 1; intros Hnd; auto.
  - inversion Hnd; subst. auto.
  - inversion Hnd; subst. constructor; auto.
    intros Hin. apply (subseq_In _ _ _ H) in Hin. contradiction.
Qed.

Lemma subseq_trans {A : Type} (l2 l3 : list A) :
  subseq l2 l3 -> forall l1, subseq l1 l2 -> subseq l1 l3.
Proof.
  induction 1; intros l0 H0.
  - exact H0.
  - apply subseq_skip. auto.
  - inversion H0; subst.
    + apply subseq_skip. auto.
    + apply subseq_take. auto.
Qed.

Lemma subseq_nil_l {A : Type} (l : list A) : subseq [] l.
Proof. induction l; constructor; assumption. Qed.

Lemma subseq_app_right {A : Type} (l1 l2 r : list A) :
  subseq l1 l2 -> subseq (l1 ++ r) (l2 ++ r).
Proof.
  induction 1; simpl.
  - apply subseq_refl.
  - apply subseq_skip. assumption.
  - apply subseq_take. assumption.
Qed.

Section Lists.
Context {R : Type}.

Lemma set_nth_length (tables : list R) :
  forall i t, List.length (set_nth tables i t) = List.length tables.
Proof.
  induction tables as [|x rest IH]; simpl; intros i t; [reflexivity|].
  destruct i; simpl; auto.
Qed.

Lemma nth_error_set_nth_same (tables : list R) :
  forall i t x, nth_error tables i = Some x ->
                nth_error (set_nth tables i t) i = Some t.
Proof.
  induction tables as [|y rest IH]; intros i t x E.
  - destruct i; discriminate.
  - destruct i; simpl in *; eauto.
Qed.

Lemma nth_error_set_nth_other (tables : list R) :
  forall i j t, i <> j ->
                nth_error (set_nth tables i t) j = nth_error tables j.
Proof.
  induction tables as [|y rest IH]; intros i j t Hne.
  - destruct i; reflexivity.
  - destruct i, j; simpl; try reflexivity; try congruence.
    apply IH. congruence.
Qed.

Lemma set_nth_set_nth (tables : list R) :
  forall i a b, set_nth (set_nth tables i a) i b = set_nth tables i b.
Proof.
  induction tables as [|y rest IH]; intros i a b; [destruct i; reflexivity|].
  destruct i; simpl; [reflexivity|]. rewrite IH. reflexivity.
Qed.

End Lists.

Lemma replace_first_split (index last : nat) (matches : list nat) :
  In index matches ->
  exists pre post,
    matches = pre ++ index :: post
    /\ replace_first index last matches = pre ++ last :: post.
Proof.
  induction matches as [|m rest IH]; simpl; intros Hin; [contradiction|].
  destruct (Nat.eqb_spec m index) as [->|Hne].
  - exists [], rest. auto.
  - destruct Hin as [E|Hin]; [contradiction|].
    destruct (IH Hin) as [pre [post [-> Hr]]].
    exists (m :: pre), post. simpl. rewrite Hr. auto.
Qed.

(** Taking [index] out of the row matches permutes the others. *)
Lemma remove_match_Permutation (matches : list nat) (index : nat) :
  In index matches ->
  Permutation matches (index :: remove_match matches index).
Proof.
  intros Hin. unfold remove_match.
  destruct (replace_first_split index
              (nth (pred (List.length matches)) matches O) matches Hin)
    as [pre [post [Hm Hr]]].
  rewrite Hr. clear Hr. subst matches.
  destruct (exists_last (l := index :: post)) as [body [l Hl]];
    [discriminate|].
  assert (Hlen : pred (List.length (pre ++ index :: post))
                 = List.length (pre ++ body)).
  { rewrite Hl. rewrite app_assoc. rewrite !length_app. simpl. lia. }
  rewrite Hlen.
  assert (Hlast : nth (List.length (pre ++ body)) (pre ++ index :: post) O = l).
  { rewrite Hl. rewrite app_assoc. apply nth_middle. }
  rewrite Hlast.
  destruct body as [|b body].
  - simpl in Hl. injection Hl as <- ->.
    rewrite app_nil_r.
    rewrite firstn_app, firstn_all, Nat.sub_diag. simpl. rewrite app_nil_r.
    symmetry. apply Permutation_cons_append.
  - simpl in Hl. injection Hl as <- ->.
    replace (pre ++ l :: body ++ [l]) with ((pre ++ l :: body) ++ [l])
      by (rewrite <- app_assoc; reflexivity).
    replace (List.length (pre ++ index :: body))
      with (List.length (pre ++ l :: body))
      by (rewrite !length_app; reflexivity).
    rewrite firstn_app, firstn_all, Nat.sub_diag. simpl. rewrite app_nil_r.
    etransitivity; [apply Permutation_sym, Permutation_middle|].
    apply perm_skip.
    replace (pre ++ body ++ [l]) with ((pre ++ body) ++ [l])
      by (rewrite <- app_assoc; reflexivity).
    etransitivity; [apply Permutation_sym, Permutation_cons_append|].
    apply Permutation_middle.
Qed.

Lemma remove_match_NoDup (matches : list nat) (index : nat) :
  NoDup matches -> In index matches ->
  NoDup (remove_match matches index) /\ ~ In index (remove_match matches index)
  /\ forall x, In x (remove_match matches index) <-> In x matches /\ x <> index.
Proof.
  intros Hnd Hin.
  pose proof (remove_match_Permutation _ _ Hin) as Hp.
  pose proof (Permutation_NoDup Hp Hnd) as Hnd'.
  inversion Hnd' as [|? ? Hni Hnd'']; subst.
  split; [assumption|]. split; [assumption|].
  intros x. split.
  - intros Hx. split.
    + apply (Permutation_in _ (Permutation_sym Hp)). right. assumption.
    + intros ->. contradiction.
  - intros [Hx Hne]. apply (Permutation_in _ Hp) in Hx.
    destruct Hx as [E|Hx]; [congruence | assumption].
Qed.

(** ** The row matches *)

Section RowMatches.
Context {R : Type} `{SStable R}.
Variable partitioner : Partitioner.

(** What [match_table] does with the comparison. *)
Lemma match_table_cases (tables : list R) (matches : list nat) (index : nat)
      (matches' : list nat) (matched : bool) :
  match_table partitioner tables matches index = Done (matches', matched) ->
  exists t,
    table_at tables index = Done t
    /\ ((matches = [] /\ matches' = [index] /\ matched = true)
        \/ exists m0 rest t0,
            matches = m0 :: rest /\ table_at tables m0 = Done t0
            /\ let c := compare_token partitioner (next_token t) (next_key t)
                                      (next_token t0) (next_key t0) in
               (c < 0 /\ matches' = [index] /\ matched = true)
               \/ (c = 0 /\ matches' = matches ++ [index] /\ matched = true)
               \/ (0 < c /\ matches' = matches /\ matched = false)).
Proof.
  unfold match_table. intros E. inv_bind E. rename a into t.
  exists t. split; [exact Ha|].
  destruct matches as [|m0 rest].
  - simpl in E. injection E as <- <-. left. auto.
  - right. inv_bind E. inv_bind Ha0. rename a0 into t0.
    injection Ha0 as <-.
    exists m0, rest, t0. split; [reflexivity|]. split; [assumption|].
    simpl.
    destruct (Z.ltb_spec (compare_token partitioner (next_token t) (next_key t)
                                        (next_token t0) (next_key t0)) 0).
    + injection E as <- <-. left. auto.
    + destruct (Z.eqb_spec (compare_token partitioner (next_token t) (next_key t)
                                          (next_token t0) (next_key t0)) 0).
      * injection E as <- <-. right. left. auto.
      * injection E as <- <-. right. right. split; [lia | auto].
Qed.

Lemma match_table_subseq (tables : list R) (matches : list nat) (index : nat)
      (matches' : list nat) (matched : bool) :
  match_table partitioner tables matches index = Done (matches', matched) ->
  subseq matches' (matches ++ [index])
  /\ (matched = false -> matches' = matches).
Proof.
  intros E. apply match_table_cases in E.
  destruct E as [t [_ [[-> [-> ->]]|[m0 [rest [t0 [-> [_ Hc]]]]]]]].
  - split; [apply subseq_refl | discriminate].
  - simpl in Hc. destruct Hc as [[_ [-> ->]]|[[_ [-> ->]]|[_ [-> ->]]]].
    + split; [|discriminate]. apply subseq_app_left. apply subseq_refl.
    + split; [apply subseq_refl | discriminate].
    + split; [|reflexivity].
      pose proof (subseq_app_skip (m0 :: rest) index (m0 :: rest) []) as Hs.
      apply Hs. rewrite app_nil_r. apply subseq_refl.
Qed.

Lemma match_active_subseq (tables : list R) :
  forall active matches matches',
    match_active partitioner tables active matches = Done matches' ->
    subseq matches' (matches ++ active).
Proof.
  induction active as [|index rest IH]; simpl; intros matches matches' E.
  - injection E as <-. rewrite app_nil_r. apply subseq_refl.
  - inv_bind E. destruct a as [ms matched].
    apply match_table_subseq in Ha. destruct Ha as [Hs _].
    apply IH in E.
    replace (matches ++ index :: rest) with ((matches ++ [index]) ++ rest)
      by (rewrite <- app_assoc; reflexivity).
    eapply subseq_trans; [|exact E].
    apply subseq_app_right. exact Hs.
Qed.

End RowMatches.

(** ** The order of the keys: readers that keep the laws *)

Lemma set_insert_In (x : nat) (s : list nat) (y : nat) :
  In y (set_insert x s) <-> y = x \/ In y s.
Proof.
  induction s as [|z s IH]; simpl.
  - intuition.
  - destruct (x <? z)%nat; [simpl; intuition|].
    destruct (Nat.eqb_spec x z) as [->|Hne]; simpl; [intuition|].
    rewrite IH. intuition.
Qed.

Lemma set_insert_NoDup (x : nat) (s : list nat) :
  NoDup s -> ~ In x s -> NoDup (set_insert x s).
Proof.
  induction s as [|z s IH]; simpl; intros Hnd Hni.
  - constructor; [intros [] | constructor].
  - destruct (x <? z)%nat.
    + constructor; [simpl; exact Hni | exact Hnd].
    + destruct (Nat.eqb_spec x z) as [->|Hne]; [exact Hnd|].
      inversion Hnd; subst. constructor.
      * rewrite set_insert_In. intros [E|Hin]; [congruence | contradiction].
      * apply IH; [assumption|]. intros Hin. apply Hni. right. assumption.
Qed.

Lemma set_erase_In (x : nat) (s : list nat) (y : nat) :
  NoDup s -> (In y (set_erase x s) <-> In y s /\ y <> x).
Proof.
  induction s as [|z s IH]; simpl; intros Hnd.
  - intuition.
  - inversion Hnd; subst.
    destruct (Nat.eqb_spec x z) as [->|Hne].
    + split.
      * intros Hin. split; [right; assumption|]. intros ->. contradiction.
      * intros [[E|Hin] Hy]; [congruence | assumption].
    + simpl. rewrite (IH H2). split.
      * intros [E|[Hin Hy]]; [subst; split; [left; reflexivity | congruence]|].
        split; [right; assumption | assumption].
      * intros [[E|Hin] Hy]; [left; assumption | right; split; assumption].
Qed.

Lemma set_erase_NoDup (x : nat) (s : list nat) :
  NoDup s -> NoDup (set_erase x s).
Proof.
  induction s as [|z s IH]; simpl; intros Hnd; [constructor|].
  inversion Hnd; subst.
  destruct (Nat.eqb_spec x z) as [->|Hne]; [assumption|].
  constructor; [|auto].
  rewrite (set_erase_In x s z H2). intros [Hin _]. contradiction.
Qed.

Section Order.
Context {R : Type} `{SStable R}.
Variable partitioner : Partitioner.
Variables fresh ok : R -> Prop.
Hypothesis laws : reader_laws partitioner fresh ok.

Lemma key_le_refl (a : string) : key_le partitioner a a.
Proof.
  destruct (Z_le_gt_dec (key_cmp partitioner a a) 0) as [Hle|Hgt].
  - exact Hle.
  - apply (order_flip _ _ _ laws). lia.
Qed.

Lemma above_trans (bound : option string) (a b : string) :
  above partitioner bound a -> key_le partitioner a b ->
  above partitioner bound b.
Proof.
  destruct bound as [k|]; simpl; [|auto].
  intros Hk Hab. exact (order_trans _ _ _ laws _ _ _ Hk Hab).
Qed.

(** On readers that keep the laws the comparison is the one of the keys. *)
Lemma compare_known (t t0 : R) :
  fresh t \/ ok t -> fresh t0 \/ ok t0 ->
  compare_token partitioner (next_token t) (next_key t)
                (next_token t0) (next_key t0)
  = key_cmp partitioner (next_key t) (next_key t0).
Proof.
  intros Ht Ht0. unfold key_cmp.
  assert (E : next_token t = token_of partitioner (next_key t)).
  { destruct Ht; [apply (fresh_token _ _ _ laws) | apply (ok_token _ _ _ laws)];
      assumption. }
  assert (E0 : next_token t0 = token_of partitioner (next_key t0)).
  { destruct Ht0; [apply (fresh_token _ _ _ laws) | apply (ok_token _ _ _ laws)];
      assumption. }
  rewrite E, E0. reflexivity.
Qed.

Lemma table_at_Some (tables : list R) (i : nat) (t : R) :
  table_at tables i = Done t <-> nth_error tables i = Some t.
Proof.
  unfold table_at. destruct (nth_error tables i); split; intros E; congruence.
Qed.

Lemma positioned_known (bound : option string) (it : iterator R) (i : nat) (t : R) :
  positioned partitioner fresh ok bound it ->
  nth_error (m_tables it) i = Some t ->
  In i (m_active_tables it) \/ (m_next_table it <= i)%nat ->
  (fresh t \/ ok t) /\ above partitioner bound (next_key t).
Proof.
  intros [_ [Hact [Hun _]]] Ht [Hin|Hge].
  - destruct (Hact i Hin) as [_ [t' [Ht' [Hok Hab]]]].
    rewrite Ht in Ht'. injection Ht' as <-. auto.
  - destruct (Hun i t Hge Ht). auto.
Qed.

(** An active table moves on within its file. *)
Lemma positioned_with_table (bound : option string) (it : iterator R)
      (i : nat) (t' : R) :
  positioned partitioner fresh ok bound it ->
  In i (m_active_tables it) ->
  ok t' -> above partitioner bound (next_key t') ->
  positioned partitioner fresh ok bound (with_table it i t').
Proof.
  intros [Hnd [Hact [Hun Hsorted]]] Hin Hok Hab.
  destruct (Hact i Hin) as [Hlt [t [Ht _]]].
  unfold positioned. simpl.
  split; [assumption|]. split; [|split].
  - intros j Hj. destruct (Hact j Hj) as [Hjlt [tj [Htj [Hokj Habj]]]].
    split; [assumption|].
    destruct (Nat.eq_dec i j) as [<-|Hne].
    + exists t'. split; [|auto]. eapply nth_error_set_nth_same; eauto.
    + exists tj. rewrite nth_error_set_nth_other by assumption. auto.
  - intros j tj Hge Htj.
    rewrite nth_error_set_nth_other in Htj by lia. eauto.
  - intros j1 j2 t1 t2 Hge Hle Ht1 Ht2.
    rewrite nth_error_set_nth_other in Ht1 by lia.
    rewrite nth_error_set_nth_other in Ht2 by lia. eauto.
Qed.

(** An active table is closed at the end of its file. *)
Lemma positioned_deactivate (bound : option string) (it : iterator R)
      (i : nat) (t' : R) :
  positioned partitioner fresh ok bound it ->
  In i (m_active_tables it) ->
  positioned partitioner fresh ok bound
    (with_active (with_table it i t') (set_erase i (m_active_tables it))).
Proof.
  intros [Hnd [Hact [Hun Hsorted]]] Hin.
  destruct (Hact i Hin) as [Hlt _].
  unfold positioned. simpl.
  split; [apply set_erase_NoDup; assumption|]. split; [|split].
  - intros j Hj. apply set_erase_In in Hj; [|assumption].
    destruct Hj as [Hj Hne].
    destruct (Hact j Hj) as [Hjlt [tj [Htj [Hokj Habj]]]].
    split; [assumption|]. exists tj.
    rewrite nth_error_set_nth_other by congruence. auto.
  - intros j tj Hge Htj.
    rewrite nth_error_set_nth_other in Htj by lia. eauto.
  - intros j1 j2 t1 t2 Hge Hle Ht1 Ht2.
    rewrite nth_error_set_nth_other in Ht1 by lia.
    rewrite nth_error_set_nth_other in Ht2 by lia. eauto.
Qed.

(** The next table is opened: [activate_table(m_next_table++)]. *)
Lemma activate_next_table (bound : option string) (it it' : iterator R) :
  positioned partitioner fresh ok bound it ->
  (m_next_table it < List.length (m_tables it))%nat ->
  activate_table partitioner (with_next_table it (S (m_next_table it)))
                 (m_next_table it) = Done it' ->
  exists t t2,
    nth_error (m_tables it) (m_next_table it) = Some t
    /\ ok t2 /\ next_key t2 = next_key t
    /\ it' = with_active
               (with_table (with_next_table it (S (m_next_table it)))
                           (m_next_table it) t2)
               (set_insert (m_next_table it) (m_active_tables it))
    /\ positioned partitioner fresh ok bound it'.
Proof.
  intros Hpos Hlt E. unfold activate_table in E. simpl in E.
  inv_bind E. rename a into t. apply table_at_Some in Ha.
  destruct Hpos as [Hnd [Hact [Hun Hsorted]]].
  destruct (Hun _ _ (Nat.le_refl _) Ha) as [Hfresh Hab].
  destruct (open t) as [t1 opened] eqn:Hopen.
  destruct (fresh_activate _ _ _ laws _ _ _ Hfresh Hopen) as [-> Hrow].
  inv_bind E. destruct a as [t2 eof].
  destruct (Hrow _ _ Ha0) as [-> [Hok2 Hkey]].
  injection E as <-.
  exists t, t2. split; [assumption|]. split; [assumption|].
  split; [assumption|]. split; [reflexivity|].
  assert (Hni : ~ In (m_next_table it) (m_active_tables it)).
  { intros Hin. destruct (Hact _ Hin) as [Hlt' _]. lia. }
  unfold positioned. simpl.
  split; [apply set_insert_NoDup; assumption|]. split; [|split].
  - intros j Hj. apply set_insert_In in Hj. destruct Hj as [->|Hj].
    + split; [lia|]. exists t2.
      split; [eapply nth_error_set_nth_same; eauto|].
      split; [assumption|]. rewrite Hkey. assumption.
    + destruct (Hact j Hj) as [Hjlt [tj [Htj [Hokj Habj]]]].
      split; [lia|]. exists tj.
      rewrite nth_error_set_nth_other by lia. auto.
  - intros j tj Hge Htj.
    rewrite nth_error_set_nth_other in Htj by lia.
    apply (Hun j tj); [lia | assumption].
  - intros j1 j2 t1' t2' Hge Hle Ht1 Ht2.
    rewrite nth_error_set_nth_other in Ht1 by lia.
    rewrite nth_error_set_nth_other in Ht2 by lia.
    apply (Hsorted j1 j2); auto; lia.
Qed.

(** One more table is compared with the row matches. *)
Lemma least_match_table (tables : list R) (scanned matches : list nat)
      (index : nat) (t : R) (matches' : list nat) (matched : bool) :
  (forall j tj, In j scanned -> nth_error tables j = Some tj ->
                fresh tj \/ ok tj) ->
  least partitioner tables scanned matches ->
  ~ In index scanned ->
  nth_error tables index = Some t -> fresh t \/ ok t ->
  match_table partitioner tables matches index = Done (matches', matched) ->
  least partitioner tables (scanned ++ [index]) matches'
  /\ matches' <> []
  /\ (matched = false -> matches' = matches).
Proof.
  intros Hknown [Hnd [Hincl Hleast]] Hni Ht Hkt E.
  apply match_table_cases in E.
  destruct E as [t' [Ht' [[-> [-> ->]]|[m0 [rest [t0 [-> [Ht0 Hc]]]]]]]];
    apply table_at_Some in Ht'; rewrite Ht in Ht'; injection Ht' as <-.
  - split; [|split; discriminate]. subst scanned.
    split; [constructor; [intros [] | constructor]|].
    split; [intros x Hx; exact Hx|].
    exists t. split; [assumption|].
    intros i ti [<-|[]] Hti. rewrite Ht in Hti. injection Hti as <-.
    apply key_le_refl.
  - apply table_at_Some in Ht0.
    destruct Hleast as [t0' [Ht0' Hmin]].
    rewrite Ht0 in Ht0'. injection Ht0' as <-.
    assert (Hk0 : fresh t0 \/ ok t0).
    { apply (Hknown m0); [apply Hincl; left; reflexivity | assumption]. }
    simpl in Hc. rewrite (compare_known t t0 Hkt Hk0) in Hc.
    destruct Hc as [[Hlt [-> ->]]|[[Heq [-> ->]]|[Hgt [-> ->]]]].
    + split; [|split; discriminate].
      split; [constructor; [intros [] | constructor]|].
      split; [intros x [<-|[]]; apply in_or_app; right; left; reflexivity|].
      exists t. split; [assumption|].
      intros i ti Hi Hti. apply in_app_or in Hi. destruct Hi as [Hi|[<-|[]]].
      * apply (order_trans _ _ _ laws _ (next_key t0)).
        -- unfold key_le. lia.
        -- eapply Hmin; eauto.
      * rewrite Ht in Hti. injection Hti as <-. apply key_le_refl.
    + split; [|split; [destruct rest|]; discriminate].
      split.
      { change (NoDup ((m0 :: rest) ++ [index])).
        apply NoDup_app; [assumption | |].
        - constructor; [intros [] | constructor].
        - intros x Hx [<-|[]]. apply Hni. apply Hincl. assumption. }
      split.
      { intros x Hx. change (In x ((m0 :: rest) ++ [index])) in Hx.
        apply in_app_or in Hx. apply in_or_app.
        destruct Hx as [Hx|Hx]; [left; apply Hincl | right]; assumption. }
      simpl. exists t0. split; [assumption|].
      intros i ti Hi Hti. apply in_app_or in Hi. destruct Hi as [Hi|[<-|[]]].
      * eapply Hmin; eauto.
      * rewrite Ht in Hti. injection Hti as <-.
        apply (order_flip _ _ _ laws). lia.
    + split; [|split; [discriminate | reflexivity]].
      split; [assumption|].
      split.
      { intros x Hx. apply in_or_app. left. apply Hincl. assumption. }
      exists t0. split; [assumption|].
      intros i ti Hi Hti. apply in_app_or in Hi. destruct Hi as [Hi|[<-|[]]].
      * eapply Hmin; eauto.
      * rewrite Ht in Hti. injection Hti as <-.
        apply (order_flip _ _ _ laws). lia.
Qed.

Lemma match_active_least (tables : list R) :
  forall active scanned matches matches',
    (forall j, In j (scanned ++ active) ->
               exists tj, nth_error tables j = Some tj /\ (fresh tj \/ ok tj)) ->
    NoDup (scanned ++ active) ->
    least partitioner tables scanned matches ->
    match_active partitioner tables active matches = Done matches' ->
    least partitioner tables (scanned ++ active) matches'.
Proof.
  induction active as [|index rest IH]; simpl;
    intros scanned matches matches' Hknown Hnd Hleast E.
  - injection E as <-. rewrite app_nil_r. assumption.
  - inv_bind E. destruct a as [ms matched].
    destruct (Hknown index) as [t [Ht Hkt]];
      [apply in_or_app; right; left; reflexivity|].
    assert (Hni : ~ In index scanned).
    { apply NoDup_remove_2 in Hnd. intros Hin. apply Hnd.
      apply in_or_app. left. assumption. }
    destruct (least_match_table tables scanned matches index t ms matched)
      as [Hleast' _]; auto.
    { intros j tj Hj Htj. destruct (Hknown j) as [tj' [Htj' Hk]];
        [apply in_or_app; left; assumption|].
      rewrite Htj in Htj'. injection Htj' as <-. assumption. }
    replace (scanned ++ index :: rest) with ((scanned ++ [index]) ++ rest)
      in * by (rewrite <- app_assoc; reflexivity).
    eapply IH; eauto.
Qed.

Lemma least_transfer (tables tables' : list R) (scanned scanned' : list nat)
      (matches : list nat) :
  matches <> [] ->
  least partitioner tables scanned matches ->
  (forall j, In j scanned <-> In j scanned') ->
  (forall j t', In j scanned' -> nth_error tables' j = Some t' ->
                exists t, nth_error tables j = Some t
                          /\ next_key t = next_key t') ->
  (forall j t, In j scanned -> nth_error tables j = Some t ->
               exists t', nth_error tables' j = Some t'
                          /\ next_key t = next_key t') ->
  least partitioner tables' scanned' matches.
Proof.
  intros Hne [Hnd [Hincl Hleast]] Hsame Hback Hforth.
  split; [assumption|]. split.
  - intros x Hx. apply Hsame. apply Hincl. assumption.
  - destruct matches as [|m0 rest]; [congruence|].
    destruct Hleast as [t0 [Ht0 Hmin]].
    destruct (Hforth m0 t0) as [t0' [Ht0' Hk0]];
      [apply Hincl; left; reflexivity | assumption |].
    exists t0'. split; [assumption|].
    intros i ti' Hi Hti'.
    destruct (Hback i ti' Hi Hti') as [ti [Hti Hki]].
    rewrite <- Hk0, <- Hki. eapply Hmin; eauto. apply Hsame. assumption.
Qed.

(** The second loop of [find_first_row_matches]. *)
Lemma open_more_least (bound : option string) :
  forall n (it : iterator R) matches it' matches',
    positioned partitioner fresh ok bound it ->
    n = (List.length (m_tables it) - m_next_table it)%nat ->
    least partitioner (m_tables it) (m_active_tables it) matches ->
    open_more_tables partitioner n it matches = Done (it', matches') ->
    positioned partitioner fresh ok bound it'
    /\ least partitioner (m_tables it') (m_active_tables it') matches'
    /\ match matches' with
       | [] => (List.length (m_tables it') <= m_next_table it')%nat
       | m0 :: _ =>
           forall t0 j t,
             nth_error (m_tables it') m0 = Some t0 ->
             (m_next_table it' <= j)%nat ->
             nth_error (m_tables it') j = Some t ->
             key_le partitioner (next_key t0) (next_key t)
       end.
Proof.
  induction n as [|n IH]; simpl; intros it matches it' matches' Hpos Hn Hleast E.
  - injection E as <- <-. split; [assumption|]. split; [assumption|].
    destruct matches as [|m0 rest]; [lia|].
    intros t0 j t _ Hj Ht.
    assert (Hlt : (j < List.length (m_tables it))%nat)
      by (apply nth_error_Some; congruence).
    lia.
  - assert (Hlt : (m_next_table it < List.length (m_tables it))%nat) by lia.
    destruct (Nat.ltb_spec (m_next_table it) (List.length (m_tables it)));
      [|lia].
    inv_bind E. destruct a as [ms1 matched].
    pose proof Ha as Hcases. apply match_table_cases in Hcases.
    destruct Hcases as [t [Ht _]]. apply table_at_Some in Ht.
    pose proof Hpos as [Hnd [Hact [Hun Hsorted]]].
    assert (Hni : ~ In (m_next_table it) (m_active_tables it)).
    { intros Hin. destruct (Hact _ Hin) as [Hlt' _]. lia. }
    destruct (Hun _ _ (Nat.le_refl _) Ht) as [Hfresh _].
    destruct (least_match_table (m_tables it) (m_active_tables it) matches
                (m_next_table it) t ms1 matched)
      as [Hleast1 [Hne1 Hfalse]]; auto.
    { intros j tj Hj Htj. right.
      destruct (Hact j Hj) as [_ [tj' [Htj' [Hok _]]]].
      rewrite Htj in Htj'. injection Htj' as <-. assumption. }
    destruct matched.
    + inv_bind E. rename a into it1.
      destruct (activate_next_table bound it it1 Hpos Hlt Ha0)
        as [t' [t2 [Ht' [Hok2 [Hkey [Hit1 Hpos1]]]]]].
      rewrite Ht in Ht'. injection Ht' as <-.
      apply (IH it1 ms1 it' matches' Hpos1); [| |exact E].
      * rewrite Hit1. simpl. rewrite set_nth_length. lia.
      * apply (least_transfer (m_tables it) (m_tables it1)
                 (m_active_tables it ++ [m_next_table it])
                 (m_active_tables it1) ms1 Hne1 Hleast1).
        -- intros j. rewrite Hit1. simpl. rewrite set_insert_In.
           rewrite in_app_iff. simpl. intuition.
        -- intros j tj' Hj Htj'. rewrite Hit1 in Htj'. simpl in Htj'.
           destruct (Nat.eq_dec (m_next_table it) j) as [<-|Hne].
           ++ rewrite (nth_error_set_nth_same _ _ _ _ Ht) in Htj'.
              injection Htj' as <-. exists t. auto.
           ++ rewrite nth_error_set_nth_other in Htj' by assumption.
              exists tj'. auto.
        -- intros j tj Hj Htj. rewrite Hit1. simpl.
           destruct (Nat.eq_dec (m_next_table it) j) as [<-|Hne].
           ++ rewrite (nth_error_set_nth_same _ _ _ _ Ht).
              rewrite Ht in Htj. injection Htj as <-. exists t2. auto.
           ++ rewrite nth_error_set_nth_other by assumption.
              exists tj. auto.
    + injection E as <- <-. rewrite (Hfalse eq_refl) in *.
      split; [assumption|]. split; [assumption|].
      destruct matches as [|m0 rest]; [congruence|].
      destruct Hleast1 as [_ [_ [t0 [Ht0 Hmin]]]].
      intros t0' j tj Ht0' Hj Htj.
      rewrite Ht0 in Ht0'. injection Ht0' as <-.
      apply (order_trans _ _ _ laws _ (next_key t)).
      * apply (Hmin (m_next_table it) t); [|assumption].
        apply in_or_app. right. left. reflexivity.
      * apply (Hsorted (m_next_table it) j); auto.
Qed.

(** [find_first_row_matches]: the row matches are distinct active tables,
    and the key of the first is the least of all the keys pending. *)
Lemma find_first_row_matches_least (bound : option string)
      (it it' : iterator R) (matches : list nat) :
  positioned partitioner fresh ok bound it ->
  find_first_row_matches partitioner it = Done (it', matches) ->
  positioned partitioner fresh ok bound it'
  /\ NoDup matches /\ incl matches (m_active_tables it')
  /\ match matches with
     | [] => True
     | m0 :: _ =>
         exists t0, nth_error (m_tables it') m0 = Some t0
                    /\ above partitioner bound (next_key t0)
                    /\ positioned partitioner fresh ok
                                  (Some (next_key t0)) it'
     end.
Proof.
  intros Hpos E. unfold find_first_row_matches in E.
  inv_bind E. rename a into ms0. inv_bind E. destruct a as [it1 ms1].
  inv_bind E. injection E as <- <-.
  pose proof Hpos as [Hnd [Hact [Hun Hsorted]]].
  assert (Hleast0 : least partitioner (m_tables it) (m_active_tables it) ms0).
  { apply (match_active_least (m_tables it) (m_active_tables it) [] [] ms0);
      simpl; auto.
    - intros j Hj. destruct (Hact j Hj) as [_ [tj [Htj [Hok _]]]]. eauto.
    - split; [constructor|]. split; [intros x []|reflexivity]. }
  destruct (open_more_least bound _ it ms0 it1 ms1 Hpos eq_refl Hleast0 Ha0)
    as [Hpos1 [Hleast1 Hrest]].
  split; [assumption|].
  destruct Hleast1 as [Hnd1 [Hincl1 Hmin1]].
  split; [assumption|]. split; [assumption|].
  destruct ms1 as [|m0 rest]; [exact I|].
  destruct Hmin1 as [t0 [Ht0 Hmin]].
  pose proof Hpos1 as [Hnd' [Hact' [Hun' Hsorted']]].
  destruct (Hact' m0 (Hincl1 m0 (or_introl eq_refl)))
    as [_ [t0' [Ht0' [_ Hab0]]]].
  rewrite Ht0 in Ht0'. injection Ht0' as <-.
  exists t0. split; [assumption|]. split; [assumption|].
  unfold positioned. split; [assumption|]. split; [|split].
  - intros i Hi. destruct (Hact' i Hi) as [Hlt [ti [Hti [Hok _]]]].
    split; [assumption|]. exists ti. split; [assumption|].
    split; [assumption|]. simpl. eapply Hmin; eauto.
  - intros j tj Hj Htj. destruct (Hun' j tj Hj Htj) as [Hf _].
    split; [assumption|]. simpl. eapply Hrest; eauto.
  - assumption.
Qed.

(** The statistics do not matter to the position. *)
Lemma positioned_counters (bound : option string) (it : iterator R)
      (skipped records : Z) :
  positioned partitioner fresh ok bound it ->
  positioned partitioner fresh ok bound
    (mkIterator (m_next_table it) (m_active_tables it) (m_tables it)
                skipped records).
Proof. intros Hpos. exact Hpos. Qed.

Lemma choose_latest_match_In (tables : list R) (matched_columns : list nat)
      (w : nat) :
  choose_latest_match tables matched_columns = Done w -> In w matched_columns.
Proof.
  unfold choose_latest_match. destruct matched_columns as [|first rest];
    [discriminate|].
  intros E. inv_bind E. apply latest_loop_spec in E.
  destruct E as [[-> _]|[pre [post [tw [-> _]]]]].
  - left. reflexivity.
  - right. apply in_or_app. right. left. reflexivity.
Qed.

Lemma deliver_positioned (bound : option string) (it it' : iterator R)
      (first latest : nat) (e : Event) :
  positioned partitioner fresh ok bound it ->
  In latest (m_active_tables it) ->
  deliver it first latest = Done (it', e) ->
  positioned partitioner fresh ok bound it'
  /\ m_active_tables it' = m_active_tables it.
Proof.
  intros Hpos Hin E. apply deliver_event in E.
  destruct E as [t [t' [value [good [Ht [Hr [-> _]]]]]]].
  apply table_at_Some in Ht.
  pose proof Hpos as [_ [Hact _]].
  destruct (Hact latest Hin) as [_ [t0 [Ht0 [Hok Hab]]]].
  rewrite Ht in Ht0. injection Ht0 as <-.
  destruct (ok_read_column_data _ _ _ laws _ _ _ _ _ Hok Hr) as [Hok' Hkey].
  split; [|reflexivity].
  apply positioned_with_table; auto. rewrite Hkey. assumption.
Qed.

(** "For each matched column, move on." *)
Lemma advance_positioned (bound : option string) :
  forall matched_columns (it : iterator R) matches it' matches',
    positioned partitioner fresh ok bound it ->
    NoDup matches -> incl matches (m_active_tables it) ->
    NoDup matched_columns -> incl matched_columns matches ->
    advance partitioner it matches matched_columns = Done (it', matches') ->
    positioned partitioner fresh ok bound it'
    /\ NoDup matches' /\ incl matches' (m_active_tables it').
Proof.
  induction matched_columns as [|index rest IH]; simpl;
    intros it matches it' matches' Hpos Hnd Hincl Hndc Hinclc E.
  - injection E as <- <-. auto.
  - inv_bind E. rename a into t. apply table_at_Some in Ha.
    inv_bind E. destruct a as [t1 more].
    assert (Hin : In index matches) by (apply Hinclc; left; reflexivity).
    assert (Hact : In index (m_active_tables it)) by (apply Hincl; assumption).
    pose proof Hpos as [Hnda [Hactive _]].
    destruct (Hactive index Hact) as [_ [t0 [Ht0 [Hok Hab]]]].
    rewrite Ha in Ht0. injection Ht0 as <-.
    destruct (ok_read_column _ _ _ laws _ _ _ Hok Ha0) as [Hok1 Hkey1].
    assert (Hpos1 : positioned partitioner fresh ok bound (with_table it index t1)).
    { apply positioned_with_table; auto. rewrite Hkey1. assumption. }
    inversion Hndc as [|? ? Hnotin Hndrest]; subst.
    destruct more.
    + apply (IH _ _ _ _ Hpos1 Hnd) in E; auto.
      intros x Hx. apply Hinclc. right. assumption.
    + inv_bind E. destruct a as [t2 eof]. inv_bind E. rename a into it2.
      simpl in Ha1.
      destruct (remove_match_NoDup matches index Hnd Hin)
        as [Hnd' [Hni' Hiff]].
      assert (Hrest : incl rest (remove_match matches index)).
      { intros x Hx. apply Hiff. split.
        - apply Hinclc. right. assumption.
        - intros ->. contradiction. }
      destruct eof.
      * unfold deactivate_table in Ha2. simpl in Ha2.
        inv_bind Ha2. injection Ha2 as <-.
        replace (with_active
                   (with_table (with_table (with_table it index t1) index t2)
                               index (close a))
                   (set_erase index (m_active_tables it)))
          with (with_active (with_table it index (close a))
                            (set_erase index (m_active_tables it))) in E
          by (unfold with_active, with_table; simpl;
              rewrite !set_nth_set_nth; reflexivity).
        apply (IH _ _ _ _
                 (positioned_deactivate bound it index (close a) Hpos Hact)
                 Hnd') in E; auto.
        simpl. intros x Hx. apply Hiff in Hx. destruct Hx as [Hx Hne].
        apply set_erase_In; auto.
      * injection Ha2 as <-.
        destruct (ok_read_row _ _ _ laws _ _ Hok1 Ha1) as [Hok2 Hle].
        assert (Hpos2 : positioned partitioner fresh ok bound
                          (with_table (with_table it index t1) index t2)).
        { apply positioned_with_table; auto.
          apply (above_trans bound (next_key t1)); [|assumption].
          rewrite Hkey1. assumption. }
        apply (IH _ _ _ _ Hpos2 Hnd') in E; auto.
        simpl. intros x Hx. apply Hiff in Hx. destruct Hx as [Hx _].
        apply Hincl. assumption.
Qed.

Lemma column_step_positioned (bound : option string) (it : iterator R)
      (matches : list nat) (tombstones : list (string * Z))
      (minTime marked : Z) (it' : iterator R) (matches' : list nat)
      (tombstones' : list (string * Z)) (minTime' : Z) (events : list Event) :
  positioned partitioner fresh ok bound it ->
  NoDup matches -> incl matches (m_active_tables it) ->
  column_step partitioner it matches tombstones minTime marked
  = Done (Some (it', matches', tombstones', minTime', events)) ->
  positioned partitioner fresh ok bound it'
  /\ NoDup matches' /\ incl matches' (m_active_tables it').
Proof.
  intros Hpos Hnd Hincl E. unfold column_step in E. inv_bind E.
  rename a into matched_columns.
  pose proof (find_first_column_matches_subseq _ _ _ Ha) as Hsub.
  destruct matched_columns as [|first rest]; [discriminate|].
  inv_bind E. inv_bind E. destruct a0 as [tombs1 mt1].
  inv_bind E. rename a0 into latest. inv_bind E. inv_bind E.
  destruct a1 as [it1 ev1]. inv_bind E. destruct a1 as [it2 ms2].
  injection E as <- <- <- <- <-.
  assert (Hlatest : In latest (m_active_tables it)).
  { apply Hincl. apply (subseq_In _ _ _ Hsub).
    apply (choose_latest_match_In _ _ _ Ha2). }
  assert (H1 : positioned partitioner fresh ok bound it1
               /\ m_active_tables it1 = m_active_tables it).
  { destruct (is_live _ _ _).
    - inv_bind Ha4. destruct a1 as [it3 e]. injection Ha4 as <- <-.
      eapply deliver_positioned; eauto.
    - injection Ha4 as <- <-. auto. }
  destruct H1 as [Hpos1 Hact1].
  apply (advance_positioned bound (first :: rest) it1 matches it2 ms2
                            Hpos1 Hnd).
  - rewrite Hact1. assumption.
  - eapply subseq_NoDup; eauto.
  - intros x Hx. eapply subseq_In; eauto.
  - exact Ha5.
Qed.

Lemma column_loop_positioned (bound : option string) :
  forall fuel (it : iterator R) matches tombstones minTime marked it' events,
    positioned partitioner fresh ok bound it ->
    NoDup matches -> incl matches (m_active_tables it) ->
    column_loop partitioner fuel it matches tombstones minTime marked
    = Done (it', events) ->
    positioned partitioner fresh ok bound it'.
Proof.
  induction fuel as [|fuel IH]; simpl;
    intros it matches tombstones minTime marked it' events Hpos Hnd Hincl E;
    [discriminate|].
  inv_bind E. destruct a as [[[[[it1 ms1] tb1] mt1] ev1]|].
  - inv_bind E. destruct a as [it2 more]. injection E as <- <-.
    destruct (column_step_positioned _ _ _ _ _ _ _ _ _ _ _ Hpos Hnd Hincl Ha)
      as [Hpos1 [Hnd1 Hincl1]].
    eapply IH; eauto.
  - injection E as <- <-. assumption.
Qed.

(** A record: the key passed to [new_row] is not below the bound, and all
    the keys pending afterwards are not below that key. *)
Lemma next_record_positioned (bound : option string) (fuel : nat)
      (it it' : iterator R) (events : list Event) (live : bool) :
  positioned partitioner fresh ok bound it ->
  next_record partitioner fuel it = Done (it', events, live) ->
  (events = [] /\ positioned partitioner fresh ok bound it')
  \/ exists key columns,
      events = new_row key :: columns
      /\ forallb is_column columns = true
      /\ above partitioner bound key
      /\ positioned partitioner fresh ok (Some key) it'.
Proof.
  intros Hpos E. unfold next_record in E. inv_bind E. destruct a as [it1 matches].
  destruct (find_first_row_matches_least bound it it1 matches Hpos Ha)
    as [Hpos1 [Hnd [Hincl Hmin]]].
  destruct matches as [|m0 rest].
  - injection E as <- <- <-. left. auto.
  - right. inv_bind E. rename a into t0. apply table_at_Some in Ha0.
    inv_bind E. rename a into marked. inv_bind E. destruct a as [it2 columns].
    destruct Hmin as [t0' [Ht0' [Hab Hposk]]].
    rewrite Ha0 in Ht0'. injection Ht0' as <-.
    pose proof (column_loop_columns _ _ _ _ _ _ _ _ _ Ha2) as [_ Hcols].
    pose proof (column_loop_positioned _ _ _ _ _ _ _ _ _ Hposk Hnd Hincl Ha2)
      as Hpos2.
    exists (next_key t0), columns.
    destruct (negb (marked =? STILL_ACTIVE) && negb (has_columns columns));
      injection E as <- <- <-;
      (split; [reflexivity|]; split; [assumption|]; split; [assumption|];
       exact Hpos2).
Qed.

Lemma new_row_keys_app (a b : list Event) :
  new_row_keys (a ++ b) = new_row_keys a ++ new_row_keys b.
Proof. unfold new_row_keys. apply flat_map_app. Qed.

Lemma new_row_keys_columns (columns : list Event) :
  forallb is_column columns = true -> new_row_keys columns = [].
Proof.
  induction columns as [|e rest IH]; simpl; intros Hc; [reflexivity|].
  apply andb_prop in Hc. destruct Hc as [He Hrest].
  destruct e; simpl in *; try discriminate; auto.
Qed.

Lemma last_key_app (bound : option string) (a b : list string) :
  last_key bound (a ++ b) = last_key (last_key bound a) b.
Proof. unfold last_key. apply fold_left_app. Qed.

Lemma ordered_app (a b : list string) :
  forall bound,
    ordered partitioner bound a ->
    ordered partitioner (last_key bound a) b ->
    ordered partitioner bound (a ++ b).
Proof.
  induction a as [|k rest IH]; simpl; intros bound Ha Hb; [assumption|].
  destruct Ha as [Hk Hrest]. split; [assumption|].
  apply IH; assumption.
Qed.

(** One call of [next]. *)
Lemma next_positioned :
  forall fuel (bound : option string) (it it' : iterator R)
         (events : list Event) (more : bool),
    positioned partitioner fresh ok bound it ->
    next partitioner fuel it = Done (it', events, more) ->
    ordered partitioner bound (new_row_keys events)
    /\ positioned partitioner fresh ok
                  (last_key bound (new_row_keys events)) it'.
Proof.
  induction fuel as [|fuel IH]; intros bound it it' events more Hpos E;
    [discriminate|].
  cbn [next] in E. inv_bind E.
  assert (Hstart : match a with
                   | None => True
                   | Some it1 => positioned partitioner fresh ok bound it1
                   end).
  { destruct (Nat.eqb (List.length (m_active_tables it)) 0).
    - destruct (Nat.leb_spec (List.length (m_tables it)) (m_next_table it)).
      + injection Ha as <-. exact I.
      + inv_bind Ha. injection Ha as <-.
        destruct (activate_next_table bound it a0 Hpos H0 Ha0)
          as [_ [_ [_ [_ [_ [_ Hpos']]]]]].
        exact Hpos'.
    - injection Ha as <-. exact Hpos. }
  destruct a as [it1|].
  - inv_bind E. destruct a as [[it2 ev] live].
    destruct (next_record_positioned bound _ _ _ _ _ Hstart Ha0)
      as [[-> Hpos2]|[key [columns [-> [Hcols [Hab Hpos2]]]]]].
    + destruct live.
      * injection E as <- <- <-. simpl. auto.
      * inv_bind E. destruct a as [[it3 rest] r]. injection E as <- <- <-.
        simpl. eapply IH; eauto.
    + assert (Hkeys : new_row_keys (new_row key :: columns) = [key]).
      { change (new_row key :: columns) with ([new_row key] ++ columns).
        rewrite new_row_keys_app, (new_row_keys_columns _ Hcols).
        reflexivity. }
      destruct live.
      * injection E as <- <- <-. rewrite Hkeys. simpl. auto.
      * inv_bind E. destruct a as [[it3 rest] r]. injection E as <- <- <-.
        destruct (IH _ _ _ _ _ Hpos2 Ha1) as [Hord Hpos3].
        change (new_row key :: columns ++ rest)
          with ([new_row key] ++ columns ++ rest).
        rewrite !new_row_keys_app, (new_row_keys_columns _ Hcols).
        simpl. auto.
  - injection E as <- <- <-. simpl. auto.
Qed.

(** The iterator [begin] builds, when its tables are fresh and sorted. *)
Lemma iterator_new_positioned (tables : list R) :
  (forall t, In t tables -> fresh t) ->
  (forall j1 j2 t1 t2, (j1 <= j2)%nat ->
                       nth_error tables j1 = Some t1 ->
                       nth_error tables j2 = Some t2 ->
                       key_le partitioner (next_key t1) (next_key t2)) ->
  positioned partitioner fresh ok None (iterator_new tables).
Proof.
  intros Hfresh Hsorted. unfold positioned, iterator_new. simpl.
  split; [constructor|]. split; [intros i []|]. split.
  - intros j t _ Ht. split; [|exact I].
    apply Hfresh. eapply nth_error_In; eauto.
  - intros j1 j2 t1 t2 _. apply Hsorted.
Qed.

(** Monotone output, for an iterator whose readers keep the laws: in any
    sequence of calls of [next], the keys passed to [new_row] follow one
    another in the order of the partitioner. *)
Lemma next_calls_in_order (bound : option string) (it it' : iterator R)
      (events : list Event) :
  positioned partitioner fresh ok bound it ->
  next_calls partitioner it events it' ->
  ordered partitioner bound (new_row_keys events)
  /\ positioned partitioner fresh ok
                (last_key bound (new_row_keys events)) it'.
Proof.
  intros Hpos Hcalls. revert bound Hpos.
  induction Hcalls as [it|fuel it it1 it2 events rest more E Hcalls IH];
    intros bound Hpos.
  - simpl. auto.
  - destruct (next_positioned _ _ _ _ _ _ Hpos E) as [Hord Hpos1].
    destruct (IH _ Hpos1) as [Hord' Hpos2].
    rewrite new_row_keys_app, last_key_app.
    split; [apply ordered_app; assumption | assumption].
Qed.

End Order.


(** ** The laws, kept by the readers of a pair of tables *)

Lemma order_preserving_cmp (a b : string) :
  key_cmp OrderPreservingPartitioner a b
  = match String.compare a b with Lt => -1 | Eq => 0 | Gt => 1 end.
Proof. reflexivity. Qed.

Lemma order_preserving_trans (a b c : string) :
  key_le OrderPreservingPartitioner a b ->
  key_le OrderPreservingPartitioner b c ->
  key_le OrderPreservingPartitioner a c.
Proof.
  unfold key_le. rewrite !order_preserving_cmp.
  destruct (String.compare a b) eqn:Eab; try lia;
    destruct (String.compare b c) eqn:Ebc; try lia; intros _ _.
  - apply String_as_OT.cmp_eq in Eab, Ebc. subst.
    replace (String.compare c c) with Eq; [lia|].
    symmetry. apply String_as_OT.cmp_eq. reflexivity.
  - apply String_as_OT.cmp_eq in Eab. subst. rewrite Ebc. lia.
  - apply String_as_OT.cmp_eq in Ebc. subst. rewrite Eab. lia.
  - apply String_as_OT.cmp_lt in Eab, Ebc.
    pose proof (String_as_OT.lt_trans _ _ _ Eab Ebc) as Hac.
    apply String_as_OT.cmp_lt in Hac. unfold String_as_OT.cmp in Hac.
    rewrite Hac. lia.
Qed.

Lemma order_preserving_flip (a b : string) :
  0 <= key_cmp OrderPreservingPartitioner a b ->
  key_le OrderPreservingPartitioner b a.
Proof.
  unfold key_le. rewrite !order_preserving_cmp.
  rewrite (String.compare_antisym a b).
  destruct (String.compare b a); simpl; lia.
Qed.

Ltac in_states := simpl; repeat (first [left; reflexivity | right]).

Lemma interleaved_laws :
  reader_laws OrderPreservingPartitioner interleaved_fresh interleaved_ok.
Proof.
  constructor.
  - exact order_preserving_trans.
  - exact order_preserving_flip.
  - intros t Ht. unfold interleaved_fresh in Ht. simpl in Ht.
    repeat (destruct Ht as [<-|Ht]; [reflexivity|]). contradiction.
  - intros t Ht. unfold interleaved_ok in Ht. simpl in Ht.
    repeat (destruct Ht as [<-|Ht]; [reflexivity|]). contradiction.
  - intros t t1 opened Ht E. unfold interleaved_fresh in Ht. simpl in Ht.
    repeat (destruct Ht as [<-|Ht];
            [vm_compute in E; injection E as <- <-;
             split; [reflexivity|];
             intros t2 eof E2; vm_compute in E2; injection E2 as <- <-;
             split; [reflexivity|]; split; [unfold interleaved_ok; in_states|];
             reflexivity|]).
    contradiction.
  - intros t t' Ht E. unfold interleaved_ok in Ht. simpl in Ht.
    repeat (destruct Ht as [<-|Ht];
            [vm_compute in E;
             first [discriminate E
                   | injection E as <-;
                     split; [unfold interleaved_ok; in_states
                            | vm_compute; discriminate]]|]).
    contradiction.
  - intros t t' more Ht E. unfold interleaved_ok in Ht. simpl in Ht.
    repeat (destruct Ht as [<-|Ht];
            [vm_compute in E;
             first [discriminate E
                   | injection E as <- <-;
                     split; [unfold interleaved_ok; in_states
                            | reflexivity]]|]).
    contradiction.
  - intros t out t' value good Ht E. unfold interleaved_ok in Ht. simpl in Ht.
    repeat (destruct Ht as [<-|Ht];
            [vm_compute in E;
             first [discriminate E
                   | injection E as <- <- <-;
                     split; [unfold interleaved_ok; in_states
                            | reflexivity]]|]).
    contradiction.
Qed.

Lemma interleaved_positioned :
  positioned OrderPreservingPartitioner interleaved_fresh interleaved_ok None
             Scenario.interleaved_it.
Proof.
  apply (iterator_new_positioned OrderPreservingPartitioner interleaved_fresh
           interleaved_ok Scenario.fresh_states).
  - intros t Ht. exact Ht.
  - intros j1 j2 t1 t2 Hle E1 E2.
    destruct j1 as [|[|j1]]; destruct j2 as [|[|j2]];
      try lia; simpl in E1, E2; try discriminate;
      try (destruct j1; discriminate); try (destruct j2; discriminate);
      injection E1 as <-; injection E2 as <-; vm_compute; discriminate.
Qed.

(** The three partitions of the pair of tables come out as a, b, c. *)
Lemma interleaved_keys_in_order :
  exists events it',
    next_calls OrderPreservingPartitioner Scenario.interleaved_it events it'
    /\ new_row_keys events = ["a"; "b"; "c"]%string
    /\ ordered OrderPreservingPartitioner None (new_row_keys events).
Proof.
  destruct Scenario.three_calls as [[r1 r2] r3] eqn:E.
  vm_compute in E.
  injection E as E1 E2 E3.
  match type of E1 with Done (?it1, ?e1, ?m1) = _ =>
  match type of E2 with Done (?it2, ?e2, ?m2) = _ =>
  match type of E3 with Done (?it3, ?e3, ?m3) = _ =>
    assert (Hcalls : next_calls OrderPreservingPartitioner
                                Scenario.interleaved_it
                                (e1 ++ e2 ++ e3 ++ []) it3)
      by (apply (calls_more _ 10 _ it1 it3 e1 _ m1); [evaluate|];
          apply (calls_more _ 10 _ it2 it3 e2 _ m2); [evaluate|];
          apply (calls_more _ 10 _ it3 it3 e3 _ m3); [evaluate|];
          apply calls_none);
    exists (e1 ++ e2 ++ e3 ++ []), it3
  end end end.
  split; [exact Hcalls|]. split; [reflexivity|].
  apply (next_calls_in_order OrderPreservingPartitioner interleaved_fresh
           interleaved_ok interleaved_laws None _ _ _
           interleaved_positioned Hcalls).
Qed.

(** ** The column loop returns *)

Lemma bind_returns {A B : Type} (c : result A) (k : A -> result B) :
  c <> Timeout -> (forall a, c = Done a -> k a <> Timeout) ->
  bind c k <> Timeout.
Proof.
  destruct c; simpl; intros Hc Hk; [apply Hk; reflexivity | discriminate | congruence].
Qed.

Section Weight.
Context {R : Type}.
Variable size_of : R -> nat.

Lemma weight_other (tables : list R) (i : nat) (t : R) (matches : list nat) :
  ~ In i matches ->
  weight size_of (set_nth tables i t) matches = weight size_of tables matches.
Proof.
  unfold weight. induction matches as [|m rest IH]; simpl; intros Hni;
    [reflexivity|].
  rewrite nth_error_set_nth_other by (intros ->; apply Hni; left; reflexivity).
  rewrite IH; [reflexivity|]. intros Hin. apply Hni. right. assumption.
Qed.

Lemma weight_same (tables : list R) (i : nat) (t t' : R) (matches : list nat) :
  NoDup matches -> In i matches -> nth_error tables i = Some t ->
  (weight size_of (set_nth tables i t') matches + size_of t
   = weight size_of tables matches + size_of t')%nat.
Proof.
  intros Hnd Hin Ht. induction matches as [|m rest IH]; [contradiction|].
  inversion Hnd as [|? ? Hni Hnd']; subst.
  change (weight size_of ?tb (m :: rest))
    with ((match nth_error tb m with Some x => S (size_of x) | None => O end)
          + weight size_of tb rest)%nat.
  destruct Hin as [->|Hin].
  - rewrite (nth_error_set_nth_same _ _ _ _ Ht), Ht.
    rewrite (weight_other _ _ _ _ Hni). lia.
  - assert (Hne : i <> m) by (intros ->; contradiction).
    rewrite nth_error_set_nth_other by assumption.
    specialize (IH Hnd' Hin). lia.
Qed.

Lemma weight_Permutation (tables : list R) (a b : list nat) :
  Permutation a b -> weight size_of tables a = weight size_of tables b.
Proof.
  intros Hp. unfold weight. induction Hp; simpl; lia.
Qed.

End Weight.

Section Progress.
Context {R : Type} `{SStable R}.
Variable partitioner : Partitioner.
Variables fresh ok : R -> Prop.
Variable size_of : R -> nat.
Hypothesis laws : reader_laws partitioner fresh ok.
Hypothesis progress : reader_progress partitioner ok size_of.

Lemma table_at_returns (tables : list R) (i : nat) : table_at tables i <> Timeout.
Proof. unfold table_at. destruct (nth_error tables i); discriminate. Qed.

Lemma deactivate_table_returns (it : iterator R) (i : nat) :
  deactivate_table it i <> Timeout.
Proof.
  unfold deactivate_table. apply bind_returns; [apply table_at_returns|].
  discriminate.
Qed.

Lemma advance_returns :
  forall matched_columns (it : iterator R) matches,
    advance partitioner it matches matched_columns <> Timeout.
Proof.
  induction matched_columns as [|index rest IH]; simpl; intros it matches;
    [discriminate|].
  apply bind_returns; [apply table_at_returns|]. intros t _.
  apply bind_returns; [apply (read_column_returns _ _ _ progress)|].
  intros [t1 more] _. destruct more; [apply IH|].
  apply bind_returns; [apply (read_row_returns _ _ _ progress)|].
  intros [t2 eof] _.
  apply bind_returns; [|intros; apply IH].
  destruct eof; [apply deactivate_table_returns | discriminate].
Qed.

Lemma first_column_loop_returns (tables : list R) :
  forall matches pMinString acc,
    first_column_loop tables matches pMinString acc <> Timeout.
Proof.
  induction matches as [|m rest IH]; simpl; intros pMin acc; [discriminate|].
  apply bind_returns; [apply table_at_returns|]. intros t _.
  destruct (_ <? 0); [apply IH|]. destruct (_ =? 0); apply IH.
Qed.

Lemma latest_loop_returns (tables : list R) :
  forall rest lastTs index, latest_loop tables rest lastTs index <> Timeout.
Proof.
  induction rest as [|m rest IH]; simpl; intros lastTs index; [discriminate|].
  apply bind_returns; [apply table_at_returns|]. intros t _.
  destruct (_ >? _); apply IH.
Qed.

Lemma fold_tombstones_returns (tables : list R) :
  forall matches tombstones minTime,
    fold_tombstones tables matches tombstones minTime <> Timeout.
Proof.
  induction matches as [|m rest IH]; simpl; intros tombstones minTime;
    [discriminate|].
  apply bind_returns; [apply table_at_returns|]. intros t _.
  destruct (range_tombstone (next_column t)); apply IH.
Qed.

Lemma column_step_returns (it : iterator R) (matches : list nat)
      (tombstones : list (string * Z)) (minTime marked : Z) :
  column_step partitioner it matches tombstones minTime marked <> Timeout.
Proof.
  unfold column_step.
  apply bind_returns; [apply first_column_loop_returns|].
  intros [|first rest] _; [discriminate|].
  apply bind_returns; [apply table_at_returns|]. intros t0 _.
  apply bind_returns.
  { unfold update_tombstones.
    apply bind_returns; [apply fold_tombstones_returns|].
    intros [tb mt] _. discriminate. }
  intros [tb mt] _.
  apply bind_returns.
  { unfold choose_latest_match.
    apply bind_returns; [apply table_at_returns|].
    intros; apply latest_loop_returns. }
  intros latest _.
  apply bind_returns; [apply table_at_returns|]. intros lt _.
  apply bind_returns.
  { destruct (is_live _ _ _); [|discriminate].
    apply bind_returns; [|intros [? ?] _; discriminate].
    unfold deliver.
    apply bind_returns; [apply table_at_returns|]. intros t _.
    apply bind_returns; [apply (read_column_data_returns _ _ _ progress)|].
    intros [[t' value] good] _.
    apply bind_returns; [apply table_at_returns|]. intros t1 _.
    destruct (expiring (next_column t')); discriminate. }
  intros [it1 ev] _.
  apply bind_returns; [apply advance_returns|].
  intros [it2 ms] _. discriminate.
Qed.

(** Every reader moved on takes at least one off the weight. *)
Lemma advance_weight (bound : option string) :
  forall matched_columns (it : iterator R) matches it' matches',
    positioned partitioner fresh ok bound it ->
    NoDup matches -> incl matches (m_active_tables it) ->
    NoDup matched_columns -> incl matched_columns matches ->
    advance partitioner it matches matched_columns = Done (it', matches') ->
    (weight size_of (m_tables it') matches' + List.length matched_columns
     <= weight size_of (m_tables it) matches)%nat.
Proof.
  induction matched_columns as [|index rest IH]; simpl;
    intros it matches it' matches' Hpos Hnd Hincl Hndc Hinclc E.
  - injection E as <- <-. lia.
  - inv_bind E. rename a into t. apply (table_at_Some (R := R)) in Ha.
    inv_bind E. destruct a as [t1 more].
    assert (Hin : In index matches) by (apply Hinclc; left; reflexivity).
    assert (Hact : In index (m_active_tables it)) by (apply Hincl; assumption).
    pose proof Hpos as [Hnda [Hactive _]].
    destruct (Hactive index Hact) as [_ [t0 [Ht0 [Hok Hab]]]].
    rewrite Ha in Ht0. injection Ht0 as <-.
    destruct (ok_read_column _ _ _ laws _ _ _ Hok Ha0) as [Hok1 Hkey1].
    assert (Hpos1 : positioned partitioner fresh ok bound (with_table it index t1)).
    { apply positioned_with_table; auto.
      rewrite Hkey1. assumption. }
    inversion Hndc as [|? ? Hnotin Hndrest]; subst.
    destruct more.
    + pose proof (read_column_progress _ _ _ progress _ _ Hok Ha0) as Hlt.
      apply (IH _ _ _ _ Hpos1 Hnd) in E; auto;
        [|intros x Hx; apply Hinclc; right; assumption].
      simpl in E.
      pose proof (weight_same size_of (m_tables it) index t t1 matches
                              Hnd Hin Ha) as Hw.
      lia.
    + inv_bind E. destruct a as [t2 eof]. inv_bind E. rename a into it2.
      simpl in Ha1.
      destruct (remove_match_NoDup matches index Hnd Hin)
        as [Hnd' [Hni' Hiff]].
      assert (Hrest : incl rest (remove_match matches index)).
      { intros x Hx. apply Hiff. split.
        - apply Hinclc. right. assumption.
        - intros ->. contradiction. }
      pose proof (weight_Permutation size_of (m_tables it) _ _
                    (remove_match_Permutation matches index Hin)) as Hperm.
      unfold weight in Hperm at 2. simpl in Hperm. rewrite Ha in Hperm.
      fold (weight size_of (m_tables it) (remove_match matches index)) in Hperm.
      destruct eof.
      * unfold deactivate_table in Ha2. simpl in Ha2.
        inv_bind Ha2. injection Ha2 as <-.
        replace (with_active
                   (with_table (with_table (with_table it index t1) index t2)
                               index (close a))
                   (set_erase index (m_active_tables it)))
          with (with_active (with_table it index (close a))
                            (set_erase index (m_active_tables it))) in E
          by (unfold with_active, with_table; simpl;
              rewrite !set_nth_set_nth; reflexivity).
        apply (IH _ _ _ _
                 (positioned_deactivate _ _ _ bound it index
                                        (close a) Hpos Hact)
                 Hnd') in E; auto.
        -- simpl in E. rewrite (weight_other size_of _ _ _ _ Hni') in E. lia.
        -- simpl. intros x Hx. apply Hiff in Hx. destruct Hx as [Hx Hne].
           apply set_erase_In; auto.
      * injection Ha2 as <-.
        destruct (ok_read_row _ _ _ laws _ _ Hok1 Ha1) as [Hok2 Hle].
        assert (Hpos2 : positioned partitioner fresh ok bound
                          (with_table (with_table it index t1) index t2)).
        { apply positioned_with_table; auto.
          apply (above_trans partitioner fresh ok laws bound (next_key t1));
            [|assumption].
          rewrite Hkey1. assumption. }
        apply (IH _ _ _ _ Hpos2 Hnd') in E; auto.
        -- simpl in E. rewrite set_nth_set_nth in E.
           rewrite (weight_other size_of _ _ _ _ Hni') in E. lia.
        -- simpl. intros x Hx. apply Hiff in Hx. destruct Hx as [Hx _].
           apply Hincl. assumption.
Qed.

Lemma match_table_returns (tables : list R) (matches : list nat) (index : nat) :
  match_table partitioner tables matches index <> Timeout.
Proof.
  unfold match_table.
  apply bind_returns; [apply table_at_returns|]. intros t _.
  apply bind_returns.
  - destruct matches; [discriminate|].
    apply bind_returns; [apply table_at_returns|]. discriminate.
  - intros comparison _. destruct (_ <? 0); [discriminate|].
    destruct (_ =? 0); discriminate.
Qed.

Lemma match_active_returns (tables : list R) :
  forall active matches, match_active partitioner tables active matches <> Timeout.
Proof.
  induction active as [|index rest IH]; simpl; intros matches; [discriminate|].
  apply bind_returns; [apply match_table_returns|].
  intros [ms b] _. apply IH.
Qed.

Lemma activate_table_returns (it : iterator R) (index : nat) :
  activate_table partitioner it index <> Timeout.
Proof.
  unfold activate_table.
  apply bind_returns; [apply table_at_returns|]. intros t _.
  destruct (open t) as [t1 opened]. destruct opened; [|discriminate].
  apply bind_returns; [apply (read_row_returns _ _ _ progress)|].
  intros [t2 eof] _. destruct eof; discriminate.
Qed.

Lemma open_more_tables_returns :
  forall n (it : iterator R) matches,
    open_more_tables partitioner n it matches <> Timeout.
Proof.
  induction n as [|n IH]; simpl; intros it matches; [discriminate|].
  destruct (_ <? _)%nat; [|discriminate].
  apply bind_returns; [apply match_table_returns|].
  intros [ms matched] _. destruct matched; [|discriminate].
  apply bind_returns; [apply activate_table_returns|].
  intros it' _. apply IH.
Qed.

Lemma find_first_row_matches_returns (it : iterator R) :
  find_first_row_matches partitioner it <> Timeout.
Proof.
  unfold find_first_row_matches.
  apply bind_returns; [apply match_active_returns|]. intros ms _.
  apply bind_returns; [apply open_more_tables_returns|]. intros [it1 ms1] _.
  apply bind_returns; [|discriminate].
  unfold assert. destruct (_ || _); discriminate.
Qed.

Lemma row_deletion_returns (tables : list R) :
  forall matches marked, row_deletion tables matches marked <> Timeout.
Proof.
  induction matches as [|m rest IH]; simpl; intros marked; [discriminate|].
  apply bind_returns; [apply table_at_returns|]. intros t _.
  destruct (_ && _); apply IH.
Qed.

(** Reading a payload does not add to the weight. *)
Lemma deliver_weight (bound : option string) (it it' : iterator R)
      (first latest : nat) (e : Event) (matches : list nat) :
  positioned partitioner fresh ok bound it ->
  NoDup matches -> In latest matches -> In latest (m_active_tables it) ->
  deliver it first latest = Done (it', e) ->
  (weight size_of (m_tables it') matches
   <= weight size_of (m_tables it) matches)%nat.
Proof.
  intros Hpos Hnd Hin Hact E. apply deliver_event in E.
  destruct E as [t [t' [value [good [Ht [Hr [-> _]]]]]]].
  apply (table_at_Some (R := R)) in Ht.
  pose proof Hpos as [_ [Hactive _]].
  destruct (Hactive latest Hact) as [_ [t0 [Ht0 [Hok _]]]].
  rewrite Ht in Ht0. injection Ht0 as <-.
  pose proof (read_column_data_progress _ _ _ progress _ _ _ _ _ Hok Hr) as Hle.
  pose proof (weight_same size_of (m_tables it) latest t t' matches Hnd Hin Ht)
    as Hw.
  simpl. lia.
Qed.

(** A turn of the column loop that goes on takes at least one off the
    weight of the matched readers. *)
Lemma column_step_weight (bound : option string) (it : iterator R)
      (matches : list nat) (tombstones : list (string * Z))
      (minTime marked : Z) (it' : iterator R) (matches' : list nat)
      (tombstones' : list (string * Z)) (minTime' : Z) (events : list Event) :
  positioned partitioner fresh ok bound it ->
  NoDup matches -> incl matches (m_active_tables it) ->
  column_step partitioner it matches tombstones minTime marked
  = Done (Some (it', matches', tombstones', minTime', events)) ->
  (weight size_of (m_tables it') matches'
   < weight size_of (m_tables it) matches)%nat.
Proof.
  intros Hpos Hnd Hincl E. unfold column_step in E. inv_bind E.
  rename a into matched_columns.
  pose proof (find_first_column_matches_subseq _ _ _ Ha) as Hsub.
  destruct matched_columns as [|first rest]; [discriminate|].
  inv_bind E. inv_bind E. destruct a0 as [tombs1 mt1].
  inv_bind E. rename a0 into latest. inv_bind E. inv_bind E.
  destruct a1 as [it1 ev1]. inv_bind E. destruct a1 as [it2 ms2].
  injection E as <- <- <- <- <-.
  assert (Hlm : In latest matches).
  { apply (subseq_In _ _ _ Hsub). apply (choose_latest_match_In _ _ _ Ha2). }
  assert (Hlatest : In latest (m_active_tables it)) by (apply Hincl; assumption).
  assert (H1 : positioned partitioner fresh ok bound it1
               /\ m_active_tables it1 = m_active_tables it
               /\ (weight size_of (m_tables it1) matches
                   <= weight size_of (m_tables it) matches)%nat).
  { destruct (is_live _ _ _).
    - inv_bind Ha4. destruct a1 as [it3 e]. injection Ha4 as <- <-.
      destruct (deliver_positioned partitioner fresh ok laws bound _ _ _ _ _
                                   Hpos Hlatest Ha6) as [Hp Ha'].
      split; [assumption|]. split; [assumption|].
      eapply deliver_weight; eauto.
    - injection Ha4 as <- <-. auto. }
  destruct H1 as [Hpos1 [Hact1 Hw1]].
  pose proof (advance_weight bound (first :: rest) it1 matches it2 ms2
                             Hpos1 Hnd) as Hw2.
  simpl in Hw2. rewrite Hact1 in Hw2.
  specialize (Hw2 Hincl (subseq_NoDup _ _ Hsub Hnd)
                  (fun x Hx => subseq_In _ _ x Hsub Hx) Ha5).
  lia.
Qed.

(** The column loop of a record ends: fuel above the weight of the matched
    readers is enough. *)
Lemma column_loop_returns (bound : option string) :
  forall fuel (it : iterator R) matches tombstones minTime marked,
    positioned partitioner fresh ok bound it ->
    NoDup matches -> incl matches (m_active_tables it) ->
    (weight size_of (m_tables it) matches < fuel)%nat ->
    column_loop partitioner fuel it matches tombstones minTime marked <> Timeout.
Proof.
  induction fuel as [|fuel IH]; simpl;
    intros it matches tombstones minTime marked Hpos Hnd Hincl Hfuel; [lia|].
  apply bind_returns; [apply column_step_returns|].
  intros [[[[[it1 ms1] tb1] mt1] ev1]|] E; [|discriminate].
  destruct (column_step_positioned partitioner fresh ok laws
              _ _ _ _ _ _ _ _ _ _ _ Hpos Hnd Hincl E) as [Hpos1 [Hnd1 Hincl1]].
  pose proof (column_step_weight _ _ _ _ _ _ _ _ _ _ _ Hpos Hnd Hincl E) as Hlt.
  apply bind_returns; [|intros [it2 more] _; discriminate].
  apply IH; auto. lia.
Qed.

(** [next_record] returns or stops on an assertion; it does not run on.
    The fuel needed is one more than the bytes the matched readers have
    left, plus one for each of them. *)
Lemma next_record_returns (bound : option string) (fuel : nat)
      (it : iterator R) :
  positioned partitioner fresh ok bound it ->
  (forall it1 matches,
      find_first_row_matches partitioner it = Done (it1, matches) ->
      (weight size_of (m_tables it1) matches < fuel)%nat) ->
  next_record partitioner fuel it <> Timeout.
Proof.
  intros Hpos Hfuel. unfold next_record.
  apply bind_returns; [apply find_first_row_matches_returns|].
  intros [it1 matches] E.
  destruct (find_first_row_matches_least partitioner fresh ok laws
              bound it it1 matches Hpos E) as [Hpos1 [Hnd [Hincl _]]].
  specialize (Hfuel _ _ E).
  destruct matches as [|m0 rest]; [discriminate|].
  apply bind_returns; [apply table_at_returns|]. intros t0 _.
  apply bind_returns; [apply row_deletion_returns|]. intros marked _.
  apply bind_returns.
  - apply (column_loop_returns bound); auto.
  - intros [it2 columns] _. destruct (_ && _); discriminate.
Qed.

End Progress.

(** ** The readers of [Scenario.interleaved] make progress *)

Ltac returns :=
  repeat match goal with
         | |- Done _ <> Timeout => discriminate
         | |- Crash <> Timeout => discriminate
         | |- assert _ <> Timeout => unfold assert
         | |- buffer_of _ <> Timeout => unfold buffer_of
         | |- bind _ _ <> Timeout => apply bind_returns; [|intros ? _]
         | |- (match ?x with _ => _ end) <> Timeout => destruct x
         end.

Lemma read_byte_returns (b : CompressedBuffer) : read_byte b <> Timeout.
Proof. unfold read_byte. returns. Qed.

Lemma read_string_returns (b : CompressedBuffer) : read_string b <> Timeout.
Proof. unfold read_string. returns. Qed.

Lemma read_data_returns (b : CompressedBuffer) : read_data b <> Timeout.
Proof. unfold read_data. returns. Qed.

Lemma read_cell_returns (t : OldSStable) (b : CompressedBuffer) :
  read_cell t b <> Timeout.
Proof.
  unfold read_cell.
  apply bind_returns; [apply read_byte_returns|]. intros [b1 flags] _.
  destruct (flag_set flags RANGE_TOMBSTONE_MASK).
  - apply bind_returns; [apply read_string_returns|]. intros [b2 e] _.
    returns.
  - returns.
Qed.

Lemma read_name_returns (t : OldSStable) : read_name t <> Timeout.
Proof.
  unfold read_name.
  apply bind_returns; [returns|]. intros b _.
  apply bind_returns; [apply read_string_returns|]. intros [b1 nm] _.
  destruct (string_empty nm); [discriminate|]. apply read_cell_returns.
Qed.

Lemma OldSStable_read_column_returns (t : OldSStable) :
  OldSStable_read_column t <> Timeout.
Proof.
  unfold OldSStable_read_column.
  apply bind_returns; [unfold skip_unread_data; returns|]. intros t1 _.
  apply bind_returns; [returns|]. intros _ _.
  destruct (_ <? VERSION_JA); [|apply read_name_returns].
  destruct (_ >? 0); [apply read_name_returns | discriminate].
Qed.

Lemma OldSStable_read_row_returns (partitioner : Partitioner) (t : OldSStable) :
  OldSStable_read_row partitioner t <> Timeout.
Proof.
  unfold OldSStable_read_row.
  apply bind_returns; [returns|]. intros _ _.
  apply bind_returns; [returns|]. intros b _.
  apply bind_returns; [apply read_string_returns|]. intros [b1 key] _.
  destruct (is_eof b1); [discriminate|].
  destruct (read_longlong _) as [b2 deletion].
  match goal with
  | |- (let '(_, _) := ?x in _) <> Timeout => destruct x as [b3 t3]
  end.
  apply bind_returns; [apply OldSStable_read_column_returns|].
  intros [t4 more] _. returns.
Qed.

Lemma OldSStable_read_column_data_returns (t : OldSStable) (out : string) :
  OldSStable_read_column_data t out <> Timeout.
Proof.
  unfold OldSStable_read_column_data.
  apply bind_returns; [returns|]. intros _ _.
  apply bind_returns; [returns|]. intros b _.
  apply bind_returns; [apply read_data_returns|]. intros [b1 read] _.
  destruct read; discriminate.
Qed.

(** What a reader of the pair of tables has left shrinks with every column
    read. *)
Lemma interleaved_progress :
  reader_progress OrderPreservingPartitioner interleaved_ok bytes_left.
Proof.
  constructor.
  - intros t. apply OldSStable_read_row_returns.
  - intros t. apply OldSStable_read_column_returns.
  - intros t out. apply OldSStable_read_column_data_returns.
  - intros t t' Ht E. unfold interleaved_ok in Ht. simpl in Ht.
    repeat (destruct Ht as [<-|Ht];
            [vm_compute in E;
             first [discriminate E
                   | injection E as <-; vm_compute; lia]|]).
    contradiction.
  - intros t out t' value good Ht E. unfold interleaved_ok in Ht. simpl in Ht.
    repeat (destruct Ht as [<-|Ht];
            [vm_compute in E;
             first [discriminate E
                   | injection E as <- <- <-; vm_compute; lia]|]).
    contradiction.
Qed.

(** The first record of the pair of tables: any fuel above the 42 its
    one matched reader weighs is enough. *)
Lemma interleaved_next_record_returns (fuel : nat) :
  (42 < fuel)%nat ->
  next_record OrderPreservingPartitioner fuel Scenario.interleaved_it <> Timeout.
Proof.
  intros Hfuel.
  apply (next_record_returns OrderPreservingPartitioner interleaved_fresh
           interleaved_ok bytes_left interleaved_laws interleaved_progress None).
  - exact interleaved_positioned.
  - intros it1 matches E. vm_compute in E. injection E as <- <-.
    vm_compute. lia.
Qed.

(** * The rest of the code *)

(** ** Keys in hexadecimal *)

Lemma hex_pair (c : ascii) :
  let v := Z.land (char_of c) 0xff in
  hex_nibble_to_nibble (hex_digit (Z.shiftr v 4)) = Some (Z.shiftr v 4)
  /\ hex_nibble_to_nibble (hex_digit (Z.land v 0xf)) = Some (Z.land v 0xf)
  /\ ascii_of_byte (Z.lor (Z.shiftl (Z.shiftr v 4) 4) (Z.land v 0xf) mod 256) = c
  /\ (byte_of_ascii (hex_digit (Z.shiftr v 4)) =? 0) = false
  /\ (byte_of_ascii (hex_digit (Z.land v 0xf)) =? 0) = false.
Proof.
  destruct c as [[] [] [] [] [] [] [] []]; vm_compute; repeat split; reflexivity.
Qed.

Lemma parse_hex_key_binaryToHex (bin : string) :
  parse_hex_key (binaryToHex bin) = Some bin.
Proof.
  induction bin as [|c rest IH]; [reflexivity|].
  destruct (hex_pair c) as [Hhi [Hlo [Hc [Hz _]]]].
  cbn [binaryToHex parse_hex_key]. cbv zeta in Hhi, Hlo, Hc, Hz.
  rewrite Hz, Hhi, Hlo, IH, Hc. reflexivity.
Qed.

Lemma binaryToHex_length (bin : string) :
  String.length (binaryToHex bin) = (2 * String.length bin)%nat.
Proof.
  induction bin as [|c rest IH]; [reflexivity|].
  cbn [binaryToHex String.length]. rewrite IH. lia.
Qed.

Lemma binaryToHex_no_nul (bin : string) : no_nul (binaryToHex bin).
Proof.
  induction bin as [|c rest IH]; [exact I|].
  destruct (hex_pair c) as [_ [_ [_ [Hhi Hlo]]]]. cbv zeta in Hhi, Hlo.
  cbn [binaryToHex no_nul].
  apply Z.eqb_neq in Hhi. apply Z.eqb_neq in Hlo. auto.
Qed.

Lemma c_str_no_nul (s : string) : c_str s = s <-> no_nul s.
Proof.
  induction s as [|c rest IH]; cbn [c_str no_nul]; [tauto|].
  destruct (byte_of_ascii c =? 0) eqn:E.
  - apply Z.eqb_eq in E. split; [discriminate | tauto].
  - apply Z.eqb_neq in E. split.
    + intros Heq. injection Heq as Heq. tauto.
    + intros [_ Hn]. f_equal. tauto.
Qed.

Lemma c_str_idempotent (s : string) : c_str (c_str s) = c_str s.
Proof.
  induction s as [|c rest IH]; [reflexivity|]. cbn [c_str].
  destruct (byte_of_ascii c =? 0) eqn:E; [reflexivity|].
  cbn [c_str]. rewrite E, IH. reflexivity.
Qed.

(** X1: the hexadecimal form [binaryToHex] gives is two digits per byte and
    holds no NUL, and the loop of the [-S] option (with
    [hex_nibble_to_nibble]) reads it back as the bytes it came from. *)
Theorem hex_key_round_trip (bin : string) :
  parse_hex_key (binaryToHex bin) = Some bin
  /\ String.length (binaryToHex bin) = (2 * String.length bin)%nat
  /\ no_nul (binaryToHex bin).
Proof.
  split; [apply parse_hex_key_binaryToHex|].
  split; [apply binaryToHex_length | apply binaryToHex_no_nul].
Qed.

Lemma isPrintable_no_nul (val : string) : isPrintable val = true -> no_nul val.
Proof.
  induction val as [|c rest IH]; cbn [isPrintable no_nul]; [auto|].
  destruct ((char_of c <? char_of " ") || (char_of c >=? 0x7f)) eqn:E;
    [discriminate|].
  intros Hp. split; [|auto].
  intros Hz. unfold char_of in E. rewrite Hz in E. vm_compute in E.
  discriminate.
Qed.

(** X2: started again with the option that [do_transfer] prints for a key,
    the tool searches for that key cut at its first NUL; so it resumes at
    the key itself exactly when the key holds no NUL. *)
Theorem resume_hint_is_the_key_up_to_NUL (first_unsent : string) :
  first_key (resume_hint first_unsent) = Some (c_str first_unsent)
  /\ (first_key (resume_hint first_unsent) = Some first_unsent
      <-> no_nul first_unsent).
Proof.
  assert (E : first_key (resume_hint first_unsent) = Some (c_str first_unsent)).
  { unfold resume_hint. destruct (isPrintable first_unsent) eqn:Hp.
    - cbn [first_key]. rewrite c_str_idempotent. reflexivity.
    - cbn [first_key].
      rewrite (proj2 (c_str_no_nul _) (binaryToHex_no_nul first_unsent)).
      rewrite parse_hex_key_binaryToHex. reflexivity. }
  split; [exact E|]. rewrite E. rewrite <- c_str_no_nul.
  split; [intros Heq; injection Heq as Heq; exact Heq | intros ->; reflexivity].
Qed.

(** ** The names of the data files *)

Lemma c_str_app (a b : string) :
  no_nul a -> c_str (a ++ b) = (a ++ c_str b)%string.
Proof.
  induction a as [|c a IH]; cbn [no_nul append c_str]; [reflexivity|].
  intros [Hc Ha]. apply Z.eqb_neq in Hc. rewrite Hc, IH by assumption.
  reflexivity.
Qed.

Lemma char_of_inj (a b : ascii) : char_of a = char_of b -> a = b.
Proof.
  destruct a as [[] [] [] [] [] [] [] []]; destruct b as [[] [] [] [] [] [] [] []];
    vm_compute; intros E; first [reflexivity | discriminate E].
Qed.

Lemma strchr_app (c : ascii) (a b : string) :
  free_of c a -> strchr (a ++ String c b) c = Some (String c b).
Proof.
  induction a as [|x a IH]; cbn [free_of append strchr].
  - rewrite Ascii.eqb_refl. reflexivity.
  - intros [Hx Ha]. apply Ascii.eqb_neq in Hx. rewrite Hx. auto.
Qed.

Lemma isSSTableVersion_prefix (keyspace rest : string) :
  free_of "-" keyspace ->
  isSSTableVersion (keyspace ++ String "-" rest) "l"
  = isSSTableVersion (keyspace ++ "-") "l".
Proof.
  intros Hfree. unfold isSSTableVersion.
  destruct keyspace as [|k0 [|k1 [|k2 keyspace]]]; try reflexivity.
  cbn [append c_char String.get].
  change (char_of "-" >=? char_of "a") with false.
  rewrite !andb_false_r. reflexivity.
Qed.

(** X3: a file name of the layout before LA, keyspace-table-version-...,
    gives the version of its third part, unless the keyspace is two letters
    that pass for a version of LA or later: then the keyspace is taken for
    the version. *)
Theorem version_of_an_old_file_name
        (keyspace table rest : string) (a b : ascii) :
  no_nul keyspace -> no_nul table ->
  free_of "-" keyspace -> free_of "-" table ->
  is_lower a = true -> is_lower b = true ->
  getVersionFromFilename
    (keyspace ++ "-" ++ table ++ "-" ++ String a (String b (String "-" rest)))
  = if isSSTableVersion (keyspace ++ "-") "l"
    then version_of_chars (c_char keyspace 0) (c_char keyspace 1)
    else version_of_chars a b.
Proof.
  intros Hnk Hnt Hfk Hft Ha Hb. unfold getVersionFromFilename.
  assert (Hna : byte_of_ascii a <> 0).
  { intros E. unfold is_lower, char_of in Ha. rewrite E in Ha.
    vm_compute in Ha. discriminate. }
  assert (Hnb : byte_of_ascii b <> 0).
  { intros E. unfold is_lower, char_of in Hb. rewrite E in Hb.
    vm_compute in Hb. discriminate. }
  rewrite (c_str_app keyspace) by assumption.
  change ("-" ++ table ++ "-" ++ String a (String b (String "-" rest)))%string
    with (String "-" (table ++ "-" ++ String a (String b (String "-" rest)))).
  cbn [c_str]. change (byte_of_ascii "-" =? 0) with false. cbv iota.
  rewrite (c_str_app table) by assumption.
  change ("-" ++ String a (String b (String "-" rest)))%string
    with (String "-" (String a (String b (String "-" rest)))).
  cbn [c_str]. change (byte_of_ascii "-" =? 0) with false. cbv iota.
  apply Z.eqb_neq in Hna. apply Z.eqb_neq in Hnb. rewrite Hna, Hnb.
  set (tl := c_str rest).
  rewrite isSSTableVersion_prefix by assumption.
  destruct (isSSTableVersion (keyspace ++ "-") "l") eqn:Hv.
  - destruct keyspace as [|k0 [|k1 keyspace]]; [| |reflexivity].
    + vm_compute in Hv. discriminate.
    + unfold isSSTableVersion in Hv. cbn [append c_char String.get] in Hv.
      change (char_of "-" >=? char_of "a") with false in Hv.
      rewrite !andb_false_r in Hv. discriminate.
  - rewrite strchr_app by assumption. cbn [c_next].
    rewrite strchr_app by assumption. cbn [c_next].
    assert (Hs : isSSTableVersion (String a (String b (String "-" tl))) "a"
                 = true).
    { unfold isSSTableVersion, is_lower in *. cbn [c_char String.get].
      apply andb_prop in Ha. apply andb_prop in Hb.
      destruct Ha as [Ha1 Ha2]. destruct Hb as [Hb1 Hb2].
      rewrite Ha1, Ha2, Hb1, Hb2. rewrite Z.eqb_refl. reflexivity. }
    rewrite Hs. reflexivity.
Qed.

Lemma version_of_an_old_file_name_witness :
  getVersionFromFilename "ks-tbl-ka-1-Data.db" = VERSION_KA
  /\ getVersionFromFilename "my-tbl-ka-1-Data.db"
     = VERSION_STRING_TO_VERSION "m" "y".
Proof.
  split.
  - refine (version_of_an_old_file_name "ks" "tbl" "1-Data.db" "k" "a"
              _ _ _ _ _ _); vm_compute; intuition discriminate.
  - refine (version_of_an_old_file_name "my" "tbl" "1-Data.db" "k" "a"
              _ _ _ _ _ _); vm_compute; intuition discriminate.
Defined.

Lemma string_find_skip (c : ascii) (a b : string) (pos : nat) :
  string_find c (String.length a + pos) (a ++ b)
  = option_map (Nat.add (String.length a)) (string_find c pos b).
Proof.
  induction a as [|x a IH]; cbn [String.length append Nat.add].
  - destruct (string_find c pos b); reflexivity.
  - cbn [string_find]. rewrite IH.
    destruct (string_find c pos b); reflexivity.
Qed.

Lemma string_find_first (c : ascii) (a b : string) :
  free_of c a ->
  string_find c 0 (a ++ String c b) = Some (String.length a).
Proof.
  induction a as [|x a IH]; cbn [free_of append string_find String.length].
  - rewrite Ascii.eqb_refl. reflexivity.
  - intros [Hx Ha]. apply Ascii.eqb_neq in Hx. rewrite Hx, IH by assumption.
    reflexivity.
Qed.

Lemma string_find_none (c : ascii) (a : string) :
  free_of c a -> string_find c 0 a = None.
Proof.
  induction a as [|x a IH]; cbn [free_of string_find]; [reflexivity|].
  intros [Hx Ha]. apply Ascii.eqb_neq in Hx. rewrite Hx, IH by assumption.
  reflexivity.
Qed.

Lemma string_find_end (c : ascii) (a : string) :
  string_find c (String.length a) a = None.
Proof.
  induction a as [|x a IH]; cbn [String.length string_find]; [reflexivity|].
  rewrite IH. reflexivity.
Qed.

Lemma substring_prefix (a b : string) :
  substring 0 (String.length a) (a ++ b) = a.
Proof.
  induction a as [|x a IH]; cbn [String.length append substring].
  - destruct b; reflexivity.
  - rewrite IH. reflexivity.
Qed.

Lemma substring_middle (a b c : string) :
  substring (String.length a) (String.length b) (a ++ b ++ c) = b.
Proof.
  induction a as [|x a IH]; cbn [String.length append substring].
  - apply substring_prefix.
  - exact IH.
Qed.

Lemma length_app (a b : string) :
  String.length (a ++ b) = (String.length a + String.length b)%nat.
Proof.
  induction a as [|x a IH]; cbn [String.length append]; [reflexivity|].
  rewrite IH. reflexivity.
Qed.

Lemma append_assoc (a b c : string) : ((a ++ b) ++ c = a ++ b ++ c)%string.
Proof.
  induction a as [|x a IH]; cbn [append]; [reflexivity|].
  rewrite IH. reflexivity.
Qed.

(** X4: for a version before LA the keyspace and the table are the first
    two parts of the file name, whatever the directory is. *)
Theorem old_file_name_keyspace_and_table
        (version : Z) (keyspace table rest dir_string : string) :
  version < VERSION_LA ->
  free_of "-" keyspace -> free_of "-" table ->
  extractKeyspaceAndTable version (keyspace ++ "-" ++ table ++ "-" ++ rest)
                          dir_string
  = Some (keyspace, table).
Proof.
  intros Hv Hfk Hft. unfold extractKeyspaceAndTable.
  apply Z.ltb_lt in Hv. rewrite Hv.
  change ("-" ++ table ++ "-" ++ rest)%string
    with (String "-" (table ++ String "-" rest)).
  rewrite string_find_first by assumption.
  replace (String.length keyspace + 1)%nat
    with (String.length (keyspace ++ "-") + 0)%nat
    by (rewrite length_app; cbn; lia).
  replace (keyspace ++ String "-" (table ++ String "-" rest))%string
    with ((keyspace ++ "-") ++ table ++ String "-" rest)%string
    by (rewrite append_assoc; reflexivity).
  rewrite string_find_skip, string_find_first by assumption.
  cbn [option_map].
  rewrite append_assoc. rewrite substring_prefix. f_equal. f_equal.
  rewrite length_app. cbn [String.length].
  replace (String.length keyspace + 1 + String.length table
           - String.length keyspace - 1)%nat
    with (String.length table) by lia.
  replace (String.length keyspace + 1 + 0)%nat
    with (String.length (keyspace ++ "-")) by (rewrite length_app; cbn; lia).
  rewrite <- append_assoc.
  apply (substring_middle (keyspace ++ "-") table (String "-" rest)).
Qed.

Lemma old_file_name_keyspace_and_table_witness :
  extractKeyspaceAndTable VERSION_KA "ks-tbl-ka-1-Data.db" "/var/lib/"
  = Some ("ks"%string, "tbl"%string).
Proof.
  refine (old_file_name_keyspace_and_table VERSION_KA "ks" "tbl"
            "ka-1-Data.db" "/var/lib/" _ _ _);
    vm_compute; intuition discriminate.
Defined.

(** A string either holds no [c], or starts with a part free of [c] that a
    [c] ends. *)
Lemma split_at_first (c : ascii) (s : string) :
  free_of c s
  \/ exists a b, s = (a ++ String c b)%string /\ free_of c a.
Proof.
  induction s as [|x s IH]; [left; exact I|].
  destruct (Ascii.eqb_spec x c) as [->|Hne].
  - right. exists EmptyString, s. split; [reflexivity | exact I].
  - destruct IH as [Hf | [a [b [-> Hf]]]].
    + left. split; assumption.
    + right. exists (String x a), b. split; [reflexivity|]. split; assumption.
Qed.

(** The loop over the separators, from the start of a part of the path that
    ends in a separator: it comes to the end of that part. *)
Lemma separators_through (dir_string : string) :
  forall (n : nat) (done_ part rest : string) (fuel : nat)
         (lastSeperator previousSeperator : option nat),
    (String.length part <= n)%nat ->
    dir_string = (done_ ++ part ++ String "/" rest)%string ->
    (String.length dir_string < fuel + String.length done_)%nat ->
    exists fuel' last' previous',
      separators fuel dir_string (String.length done_)
                 lastSeperator previousSeperator
      = separators fuel' dir_string
                   (String.length done_ + String.length part + 1)
                   (Some last') previous'
      /\ (String.length dir_string
          < fuel' + (String.length done_ + String.length part + 1))%nat
      /\ (free_of "/" part ->
          last' = String.length done_ /\ previous' = lastSeperator).
Proof.
  induction n as [|n IH];
    intros done_ part rest fuel lastSeperator previousSeperator Hn Hdir Hfuel.
  - destruct part; [|cbn in Hn; lia].
    destruct fuel as [|fuel];
      [rewrite Hdir, !length_app in Hfuel; cbn in Hfuel; lia|].
    assert (Hfind : string_find "/" (String.length done_) dir_string
                    = Some (String.length done_)).
    { rewrite Hdir.
      replace (String.length done_) with (String.length done_ + 0)%nat at 1
        by lia.
      rewrite string_find_skip. cbn [append string_find].
      rewrite Ascii.eqb_refl. cbn [option_map]. f_equal. lia. }
    cbn [separators]. rewrite Hfind.
    exists fuel, (String.length done_), lastSeperator.
    cbn [String.length]. rewrite !Nat.add_0_r.
    replace (S (String.length done_)) with (String.length done_ + 1)%nat by lia.
    split; [reflexivity|]. split; [lia | auto].
  - destruct (split_at_first "/" part) as [Hfree | [a [b [-> Hfree]]]].
    + destruct fuel as [|fuel];
        [rewrite Hdir, !length_app in Hfuel; cbn in Hfuel; lia|].
      assert (Hfind : string_find "/" (String.length done_) dir_string
                      = Some (String.length done_ + String.length part)%nat).
      { rewrite Hdir.
        replace (String.length done_) with (String.length done_ + 0)%nat at 1
          by lia.
        rewrite string_find_skip.
        rewrite string_find_first by assumption. reflexivity. }
      cbn [separators]. rewrite Hfind.
      exists fuel, (String.length done_), lastSeperator.
      replace (S (String.length done_ + String.length part))
        with (String.length done_ + String.length part + 1)%nat by lia.
      split; [reflexivity|]. split; [lia | auto].
    + destruct fuel as [|fuel];
        [rewrite Hdir, !length_app in Hfuel; cbn in Hfuel; lia|].
      assert (Hfind : string_find "/" (String.length done_) dir_string
                      = Some (String.length done_ + String.length a)%nat).
      { rewrite Hdir.
        replace (String.length done_) with (String.length done_ + 0)%nat at 1
          by lia.
        rewrite append_assoc. rewrite string_find_skip.
        change (String "/" b ++ String "/" rest)%string
          with (String "/" (b ++ String "/" rest)).
        rewrite string_find_first by assumption. reflexivity. }
      cbn [separators]. rewrite Hfind.
      rewrite length_app in Hn. cbn [String.length] in Hn.
      destruct (IH (done_ ++ a ++ "/")%string b rest fuel
                   (Some (String.length done_)) lastSeperator)
        as [fuel' [last' [previous' [E [Hf' _]]]]].
      * lia.
      * rewrite Hdir. rewrite !append_assoc. reflexivity.
      * rewrite !length_app. cbn [String.length]. lia.
      * rewrite !length_app in E, Hf'. cbn [String.length] in E, Hf'.
        exists fuel', last', previous'.
        rewrite length_app. cbn [String.length].
        replace (S (String.length done_ + String.length a))
          with (String.length done_ + (String.length a + 1))%nat by lia.
        replace (String.length done_ + (String.length a + S (String.length b)) + 1)%nat
          with (String.length done_ + (String.length a + 1) + String.length b + 1)%nat
          by lia.
        split; [exact E|]. split; [exact Hf'|].
        intros Hbad. exfalso. clear - Hbad.
        induction a as [|x a IHa]; cbn [append free_of] in Hbad.
        -- destruct Hbad as [Hbad _]. apply Hbad. reflexivity.
        -- apply IHa. apply Hbad.
Qed.

Lemma separators_end (fuel : nat) (dir_string : string)
      (lastSeperator previousSeperator : option nat) :
  separators fuel dir_string (String.length dir_string)
             lastSeperator previousSeperator
  = (String.length dir_string, lastSeperator, previousSeperator).
Proof.
  destruct fuel as [|fuel]; cbn [separators]; [reflexivity|].
  rewrite string_find_end. reflexivity.
Qed.

Ltac lengths :=
  repeat first [rewrite length_app | progress cbn [String.length]].
Ltac lengths_in H :=
  repeat first [rewrite length_app in H | progress cbn [String.length] in H].

(** X5: from LA on the keyspace and the table are the last two parts of
    the directory path, which ends in a separator. *)
Theorem directory_keyspace_and_table
        (version : Z) (fileName parent keyspace table : string) :
  VERSION_LA <= version ->
  no_nul parent -> no_nul keyspace -> no_nul table ->
  free_of "/" keyspace -> free_of "/" table ->
  extractKeyspaceAndTable version fileName
                          (parent ++ "/" ++ keyspace ++ "/" ++ table ++ "/")
  = Some (keyspace, table).
Proof.
  intros Hv Hnp Hnk Hnt Hfk Hft. unfold extractKeyspaceAndTable.
  replace (version <? VERSION_LA) with false by (symmetry; apply Z.ltb_ge; lia).
  set (dir := (parent ++ "/" ++ keyspace ++ "/" ++ table ++ "/")%string).
  assert (Hc : c_str dir = dir).
  { apply c_str_no_nul. subst dir. clear - Hnp Hnk Hnt.
    assert (Happ : forall a b, no_nul a -> no_nul b -> no_nul (a ++ b)).
    { induction a as [|x a IH]; cbn [append no_nul]; [auto|].
      intros b [Hx Ha] Hb. split; auto. }
    repeat (apply Happ; try assumption); cbn; intuition discriminate. }
  rewrite Hc.
  assert (Hlen : String.length dir
                 = (String.length parent + String.length keyspace
                    + String.length table + 3)%nat).
  { subst dir. lengths. lia. }
  destruct (separators_through dir (String.length parent) EmptyString parent
              (keyspace ++ "/" ++ table ++ "/")%string
              (S (String.length dir)) None None)
    as [fuel1 [last1 [previous1 [E1 [Hf1 _]]]]];
    [lia | reflexivity | cbn [String.length]; lia |].
  cbn [String.length Nat.add] in E1, Hf1. rewrite E1.
  destruct (separators_through dir (String.length keyspace) (parent ++ "/")
              keyspace (table ++ "/")%string fuel1 (Some last1) previous1)
    as [fuel2 [last2 [previous2 [E2 [Hf2 Hl2]]]]].
  { lia. }
  { subst dir. rewrite append_assoc. reflexivity. }
  { lengths. lia. }
  destruct (Hl2 Hfk) as [-> ->].
  lengths_in E2. lengths_in Hf2. rewrite E2.
  destruct (separators_through dir (String.length table)
              ((parent ++ "/") ++ keyspace ++ "/") table EmptyString fuel2
              (Some (String.length parent + 1)%nat) (Some last1))
    as [fuel3 [last3 [previous3 [E3 [Hf3 Hl3]]]]].
  { lia. }
  { subst dir. rewrite !append_assoc. reflexivity. }
  { lengths. lia. }
  destruct (Hl3 Hft) as [-> ->].
  lengths_in E3.
  replace (String.length parent + 1 + (String.length keyspace + 1))%nat
    with (String.length parent + 1 + String.length keyspace + 1)%nat
    in E3 by lia.
  rewrite E3.
  replace (String.length parent + 1 + String.length keyspace + 1
           + String.length table + 1)%nat
    with (String.length dir) by lia.
  rewrite separators_end.
  f_equal. f_equal.
  - replace (String.length parent + 1 + String.length keyspace + 1
             - (String.length parent + 1) - 1)%nat
      with (String.length keyspace) by lia.
    replace (String.length parent + 1)%nat
      with (String.length (parent ++ "/")) by (lengths; lia).
    subst dir. rewrite <- (append_assoc parent "/").
    apply (substring_middle (parent ++ "/") keyspace).
  - replace (String.length dir
             - (String.length parent + 1 + String.length keyspace + 1) - 1)%nat
      with (String.length table) by lia.
    replace (String.length parent + 1 + String.length keyspace + 1)%nat
      with (String.length ((parent ++ "/") ++ keyspace ++ "/"))
      by (lengths; lia).
    subst dir.
    replace (parent ++ "/" ++ keyspace ++ "/" ++ table ++ "/")%string
      with (((parent ++ "/") ++ keyspace ++ "/") ++ table ++ "/")%string
      by (rewrite !append_assoc; reflexivity).
    apply substring_middle.
Qed.

Lemma directory_keyspace_and_table_witness :
  extractKeyspaceAndTable VERSION_MA "ma-1-big-Data.db"
                          "/var/lib/cassandra/data/ks/tbl-1234/"
  = Some ("ks"%string, "tbl-1234"%string).
Proof.
  refine (directory_keyspace_and_table VERSION_MA "ma-1-big-Data.db"
            "/var/lib/cassandra/data" "ks" "tbl-1234" _ _ _ _ _ _);
    vm_compute; intuition discriminate.
Defined.

(** ** The partitioners order the keys *)

Lemma to_int32_small (z : Z) : 0 <= z < 2 ^ 31 -> to_int32 z = z.
Proof.
  intros Hz. unfold to_int32.
  rewrite Z.mod_small by lia. lia.
Qed.

Lemma size_cons (x : ascii) (a : string) : size (String x a) = size a + 1.
Proof. unfold size. cbn [String.length]. lia. Qed.

Lemma size_nonneg (a : string) : 0 <= size a.
Proof. unfold size. lia. Qed.

Lemma compare_keys_cons (x y : ascii) (a b : string) :
  size (String x a) < 2 ^ 31 -> size (String y b) < 2 ^ 31 ->
  compare_keys (String x a) (String y b)
  = if byte_of_ascii x <? byte_of_ascii y then -1
    else if byte_of_ascii y <? byte_of_ascii x then 1
    else compare_keys a b.
Proof.
  intros Ha Hb. unfold compare_keys.
  cbn [String.length Nat.min memcmp].
  destruct (byte_of_ascii x <? byte_of_ascii y); [reflexivity|].
  destruct (byte_of_ascii y <? byte_of_ascii x); [reflexivity|].
  destruct (memcmp a b (Nat.min (String.length a) (String.length b)) =? 0);
    [|reflexivity].
  cbn [negb].
  pose proof (size_nonneg a). pose proof (size_nonneg b).
  rewrite !size_cons in *.
  rewrite !to_int32_small by lia. lia.
Qed.

Lemma ascii_compare_bytes (x y : ascii) :
  Ascii.compare x y = (byte_of_ascii x ?= byte_of_ascii y).
Proof.
  unfold Ascii.compare, byte_of_ascii. rewrite N2Z.inj_compare. reflexivity.
Qed.

(** The sign of [compare_keys] is the order of the strings. *)
Lemma compare_keys_sign (a : string) :
  forall b, size a < 2 ^ 31 -> size b < 2 ^ 31 ->
            (compare_keys a b ?= 0) = String.compare a b.
Proof.
  induction a as [|x a IH]; intros [|y b] Ha Hb.
  - reflexivity.
  - unfold compare_keys. cbn [String.length Nat.min memcmp Z.eqb negb].
    pose proof (size_nonneg b). rewrite size_cons in *.
    change (size "") with 0. rewrite !to_int32_small by lia.
    cbn [String.compare]. apply Z.compare_lt_iff. lia.
  - unfold compare_keys. cbn [String.length Nat.min memcmp Z.eqb negb].
    pose proof (size_nonneg a). rewrite size_cons in *.
    change (size "") with 0. rewrite !to_int32_small by lia.
    cbn [String.compare]. apply Z.compare_gt_iff. lia.
  - rewrite compare_keys_cons by assumption.
    cbn [String.compare]. rewrite ascii_compare_bytes.
    rewrite !size_cons in *.
    pose proof (size_nonneg a). pose proof (size_nonneg b).
    destruct (Z.compare_spec (byte_of_ascii x) (byte_of_ascii y)) as [E|E|E].
    + rewrite E, Z.ltb_irrefl. apply IH; lia.
    + apply Z.ltb_lt in E. rewrite E. reflexivity.
    + assert (E' : (byte_of_ascii x <? byte_of_ascii y) = false)
        by (apply Z.ltb_ge; lia).
      apply Z.ltb_lt in E. rewrite E', E. reflexivity.
Qed.

(** X6: the byte-ordered and the order-preserving partitioner put any two
    keys in the same order, whatever tokens come with them. *)
Theorem byte_order_is_string_order
        (tokenA tokenB : Token) (keyA keyB : string) :
  size keyA < 2 ^ 31 -> size keyB < 2 ^ 31 ->
  (compare_token ByteOrderPartitioner tokenA keyA tokenB keyB ?= 0)
  = (compare_token OrderPreservingPartitioner tokenA keyA tokenB keyB ?= 0).
Proof.
  intros Ha Hb. cbn [compare_token ByteOrderPartitioner OrderPreservingPartitioner].
  rewrite compare_keys_sign by assumption.
  destruct (String.compare keyA keyB); reflexivity.
Qed.

Lemma byte_order_is_string_order_witness :
  (compare_token ByteOrderPartitioner [] "ab" [] "b" ?= 0)
  = (compare_token OrderPreservingPartitioner [] "ab" [] "b" ?= 0).
Proof.
  refine (byte_order_is_string_order [] [] "ab" "b" _ _); reflexivity.
Defined.

Lemma compare_keys_eq (a b : string) :
  size a < 2 ^ 31 -> size b < 2 ^ 31 -> (compare_keys a b = 0 <-> a = b).
Proof.
  intros Ha Hb. rewrite <- Z.compare_eq_iff. rewrite compare_keys_sign by assumption.
  split; [apply String.compare_eq_iff|].
  intros ->. apply String_as_OT.cmp_eq. reflexivity.
Qed.

Lemma compare_keys_flip (a b : string) :
  size a < 2 ^ 31 -> size b < 2 ^ 31 ->
  (compare_keys b a ?= 0) = CompOpp (compare_keys a b ?= 0).
Proof.
  intros Ha Hb. rewrite !compare_keys_sign by assumption.
  apply String.compare_antisym.
Qed.

Lemma string_compare_trans (a b c : string) :
  String.compare a b <> Gt -> String.compare b c <> Gt ->
  String.compare a c <> Gt.
Proof.
  destruct (String.compare a b) eqn:Eab; [| |congruence];
    destruct (String.compare b c) eqn:Ebc; try congruence; intros _ _.
  - apply String_as_OT.cmp_eq in Eab, Ebc. subst.
    replace (String.compare c c) with Eq; [discriminate|].
    symmetry. apply String_as_OT.cmp_eq. reflexivity.
  - apply String_as_OT.cmp_eq in Eab. subst. rewrite Ebc. discriminate.
  - apply String_as_OT.cmp_eq in Ebc. subst. rewrite Eab. discriminate.
  - apply String_as_OT.cmp_lt in Eab, Ebc.
    pose proof (String_as_OT.lt_trans _ _ _ Eab Ebc) as Hac.
    apply String_as_OT.cmp_lt in Hac. unfold String_as_OT.cmp in Hac.
    rewrite Hac. discriminate.
Qed.

Lemma compare_keys_trans (a b c : string) :
  size a < 2 ^ 31 -> size b < 2 ^ 31 -> size c < 2 ^ 31 ->
  compare_keys a b <= 0 -> compare_keys b c <= 0 -> compare_keys a c <= 0.
Proof.
  intros Ha Hb Hc Hab Hbc.
  unfold Z.le in *. rewrite compare_keys_sign in * by assumption.
  apply (string_compare_trans a b c); assumption.
Qed.

Lemma le_bytes_length (n : nat) : forall v, List.length (Murmur3.le_bytes n v) = n.
Proof.
  induction n as [|n IH]; intros v; cbn [Murmur3.le_bytes List.length];
    [reflexivity|]. rewrite IH. reflexivity.
Qed.

Lemma le_value_le_bytes (n : nat) :
  forall v, Murmur3.le_value (Murmur3.le_bytes n v) = v mod 2 ^ (8 * Z.of_nat n).
Proof.
  induction n as [|n IH]; intros v.
  - cbn. rewrite Z.mod_1_r. reflexivity.
  - cbn [Murmur3.le_bytes Murmur3.le_value fold_right].
    change (fold_right (fun b acc : Z => b + 256 * acc) 0
                       (Murmur3.le_bytes n (Z.shiftr v 8)))
      with (Murmur3.le_value (Murmur3.le_bytes n (Z.shiftr v 8))).
    rewrite IH. change 0xff with (Z.ones 8).
    rewrite Z.land_ones by lia. rewrite Z.shiftr_div_pow2 by lia.
    replace (8 * Z.of_nat (S n)) with (8 + 8 * Z.of_nat n) by lia.
    rewrite Z.pow_add_r by lia.
    rewrite Z.rem_mul_r by lia. change (2 ^ 8) with 256. reflexivity.
Qed.

Lemma to_int64_to_uint64 (h : Z) :
  - 2 ^ 63 <= h < 2 ^ 63 -> to_int64 (to_uint64 h mod 2 ^ 64) = h.
Proof.
  intros Hh. unfold to_int64, to_uint64. rewrite Z.mod_mod by lia.
  destruct (Z_lt_le_dec h 0) as [Hn|Hp].
  - replace (h mod 2 ^ 64) with (h + 2 ^ 64)
      by (apply Z.mod_unique with (q := -1); lia).
    replace ((h + 2 ^ 64 + 2 ^ 63) mod 2 ^ 64) with (h + 2 ^ 63)
      by (apply Z.mod_unique with (q := 1); lia).
    lia.
  - rewrite (Z.mod_small h) by lia. rewrite Z.mod_small by lia. lia.
Qed.

Lemma to_int64_range (z : Z) : - 2 ^ 63 <= to_int64 z < 2 ^ 63.
Proof.
  unfold to_int64. pose proof (Z.mod_pos_bound (z + 2 ^ 63) (2 ^ 64)). lia.
Qed.

Lemma hash_range (key : list Z) : - 2 ^ 63 < Murmur3.hash key < 2 ^ 63.
Proof.
  unfold Murmur3.hash.
  destruct (Murmur3.body key _ 0 (0, 0)) as [h1 h2]. cbv zeta.
  match goal with
  | |- _ < (if ?h =? _ then _ else _) < _ =>
      pose proof (to_int64_range 0) as _;
      assert (Hr : - 2 ^ 63 <= h < 2 ^ 63) by apply to_int64_range;
      destruct (Z.eqb_spec h (- 2 ^ 63)); lia
  end.
Qed.

Lemma token_value_assign (token : Token) (key : string) :
  Murmur3.token_value (Murmur3.assign token key)
  = Murmur3.hash (bytes_of_string key).
Proof.
  unfold Murmur3.token_value, Murmur3.assign.
  rewrite firstn_app, le_bytes_length, Nat.sub_diag, firstn_O, app_nil_r.
  rewrite firstn_all2 by (rewrite le_bytes_length; lia).
  rewrite le_value_le_bytes. change (8 * Z.of_nat 8) with 64.
  apply to_int64_to_uint64. pose proof (hash_range (bytes_of_string key)). lia.
Qed.

(** X7: the token the Murmur3 partitioner writes is read back by its
    [compare_token] as the hash of the key; it is never the least 64-bit
    integer; and the upper eight bytes of the token stay as they were. *)
Theorem murmur3_token_is_the_hash (token : Token) (key : string) :
  Murmur3.token_value (assign_token Murmer3Partitioner token key)
  = Murmur3.hash (bytes_of_string key)
  /\ - 2 ^ 63 < Murmur3.token_value (assign_token Murmer3Partitioner token key)
     < 2 ^ 63
  /\ skipn 8 (assign_token Murmer3Partitioner token key) = skipn 8 token.
Proof.
  cbn [assign_token Murmer3Partitioner]. rewrite token_value_assign.
  split; [reflexivity|]. split; [apply hash_range|].
  unfold Murmur3.assign. rewrite skipn_app, le_bytes_length, Nat.sub_diag.
  rewrite skipn_all2 by (rewrite le_bytes_length; lia). reflexivity.
Qed.

Lemma murmur3_key_cmp (a b : string) :
  key_cmp Murmer3Partitioner a b
  = if Murmur3.hash (bytes_of_string a) <? Murmur3.hash (bytes_of_string b)
    then -1
    else if Murmur3.hash (bytes_of_string a) >? Murmur3.hash (bytes_of_string b)
         then 1
         else compare_keys a b.
Proof.
  unfold key_cmp, token_of.
  cbn [compare_token assign_token Murmer3Partitioner].
  unfold Murmur3.compare. rewrite !token_value_assign. reflexivity.
Qed.

(** X8: under the Murmur3 partitioner two keys compare equal only when
    they are the same key, the comparison turns with its arguments, and it
    is transitive: the keys are in a total order, by hash and then by
    bytes. *)
Theorem murmur3_orders_the_keys (a b c : string) :
  size a < 2 ^ 31 -> size b < 2 ^ 31 -> size c < 2 ^ 31 ->
  (key_cmp Murmer3Partitioner a b = 0 <-> a = b)
  /\ (0 <= key_cmp Murmer3Partitioner a b -> key_le Murmer3Partitioner b a)
  /\ (key_le Murmer3Partitioner a b -> key_le Murmer3Partitioner b c ->
      key_le Murmer3Partitioner a c).
Proof.
  intros Ha Hb Hc. unfold key_le. rewrite !murmur3_key_cmp.
  set (ha := Murmur3.hash (bytes_of_string a)).
  set (hb := Murmur3.hash (bytes_of_string b)).
  set (hc := Murmur3.hash (bytes_of_string c)).
  pose proof (compare_keys_eq a b Ha Hb) as Heq.
  pose proof (compare_keys_flip a b Ha Hb) as Hflip.
  pose proof (compare_keys_trans a b c Ha Hb Hc) as Htrans.
  split; [|split].
  - split.
    + destruct (Z.ltb_spec ha hb); [lia|].
      destruct (Z.gtb_spec ha hb); [lia|]. apply Heq.
    + intros E.
      assert (Hh : hb = ha) by (subst ha hb; rewrite E; reflexivity).
      rewrite Hh, Z.ltb_irrefl.
      destruct (Z.gtb_spec ha ha); [lia|]. apply Heq. exact E.
  - destruct (Z.ltb_spec ha hb); [lia|].
    destruct (Z.gtb_spec ha hb).
    + intros _. destruct (Z.ltb_spec hb ha); lia.
    + intros Hge. destruct (Z.ltb_spec hb ha); [lia|].
      destruct (Z.gtb_spec hb ha); [lia|].
      destruct (Z.compare_spec (compare_keys a b) 0);
        destruct (Z.compare_spec (compare_keys b a) 0);
        cbn in Hflip; try discriminate; lia.
  - destruct (Z.ltb_spec ha hb).
    + intros _. destruct (Z.ltb_spec hb hc).
      * intros _. destruct (Z.ltb_spec ha hc); lia.
      * destruct (Z.gtb_spec hb hc); [lia|]. intros _.
        destruct (Z.ltb_spec ha hc); lia.
    + destruct (Z.gtb_spec ha hb); [lia|]. intros Hab.
      destruct (Z.ltb_spec hb hc).
      * intros _. destruct (Z.ltb_spec ha hc); lia.
      * destruct (Z.gtb_spec hb hc); [lia|]. intros Hbc.
        destruct (Z.ltb_spec ha hc); [lia|].
        destruct (Z.gtb_spec ha hc); [lia|]. auto.
Qed.

Lemma murmur3_orders_the_keys_witness :
  (key_cmp Murmer3Partitioner "a" "d" = 0 <-> "a"%string = "d"%string)
  /\ (0 <= key_cmp Murmer3Partitioner "a" "d" -> key_le Murmer3Partitioner "d" "a")
  /\ (key_le Murmer3Partitioner "a" "d" -> key_le Murmer3Partitioner "d" "k" ->
      key_le Murmer3Partitioner "a" "k").
Proof.
  refine (murmur3_orders_the_keys "a" "d" "k" _ _ _); reflexivity.
Defined.

(** ** The token of the random partitioner *)

Lemma be_value_app (a : list Z) (b : Z) :
  be_value (a ++ [b]) = be_value a * 256 + b.
Proof. unfold be_value. rewrite fold_left_app. reflexivity. Qed.

Lemma be_value_rev (l : list Z) : be_value (rev l) = Murmur3.le_value l.
Proof.
  induction l as [|b l IH]; [reflexivity|].
  cbn [rev]. rewrite be_value_app, IH. cbn [Murmur3.le_value fold_right].
  unfold Murmur3.le_value. lia.
Qed.

Lemma le_value_bound (l : list Z) :
  Forall (fun b => 0 <= b < 256) l ->
  0 <= Murmur3.le_value l < 256 ^ Z.of_nat (List.length l).
Proof.
  induction 1 as [|b l Hb Hl IH].
  - cbn. lia.
  - cbn [Murmur3.le_value fold_right List.length].
    change (fold_right (fun b acc : Z => b + 256 * acc) 0 l)
      with (Murmur3.le_value l).
    rewrite Nat2Z.inj_succ, Z.pow_succ_r by lia. lia.
Qed.

Lemma le_value_complement (l : list Z) :
  Forall (fun b => 0 <= b < 256) l ->
  Murmur3.le_value (map (fun c => to_uint8 (0xFF - c)) l)
  = 256 ^ Z.of_nat (List.length l) - 1 - Murmur3.le_value l.
Proof.
  induction 1 as [|b l Hb Hl IH].
  - reflexivity.
  - cbn [map Murmur3.le_value fold_right List.length].
    change (fold_right (fun b acc : Z => b + 256 * acc) 0 l)
      with (Murmur3.le_value l).
    change (fold_right (fun b acc : Z => b + 256 * acc) 0
                       (map (fun c => to_uint8 (0xFF - c)) l))
      with (Murmur3.le_value (map (fun c => to_uint8 (0xFF - c)) l)).
    rewrite IH. unfold to_uint8. rewrite Z.mod_small by lia.
    rewrite Nat2Z.inj_succ, Z.pow_succ_r by lia. lia.
Qed.

Lemma le_value_negate_low (l : list Z) :
  Forall (fun b => 0 <= b < 256) l ->
  0 < Murmur3.le_value l ->
  Murmur3.le_value (negate_low l)
  = 256 ^ Z.of_nat (List.length l) - Murmur3.le_value l.
Proof.
  induction 1 as [|b l Hb Hl IH]; intros Hpos.
  - cbn in Hpos. lia.
  - cbn [negate_low]. destruct (Z.eqb_spec b 0) as [->|Hne].
    + cbn [Murmur3.le_value fold_right List.length] in *.
      change (fold_right (fun b acc : Z => b + 256 * acc) 0 l)
        with (Murmur3.le_value l) in *.
      change (fold_right (fun b acc : Z => b + 256 * acc) 0 (negate_low l))
        with (Murmur3.le_value (negate_low l)).
      rewrite IH by lia.
      rewrite Nat2Z.inj_succ, Z.pow_succ_r by lia. lia.
    + cbn [Murmur3.le_value fold_right List.length].
      change (fold_right (fun b acc : Z => b + 256 * acc) 0 l)
        with (Murmur3.le_value l).
      change (fold_right (fun b acc : Z => b + 256 * acc) 0
                         (map (fun c => to_uint8 (0xFF - c)) l))
        with (Murmur3.le_value (map (fun c => to_uint8 (0xFF - c)) l)).
      rewrite le_value_complement by assumption.
      unfold to_uint8. rewrite Z.mod_small by lia.
      rewrite Nat2Z.inj_succ, Z.pow_succ_r by lia. lia.
Qed.

Lemma be_value_hd (b : Z) (l : list Z) :
  Forall (fun b => 0 <= b < 256) l ->
  be_value (b :: l)
  = b * 256 ^ Z.of_nat (List.length l) + be_value l.
Proof.
  intros Hl. rewrite <- (rev_involutive l) at 1.
  rewrite <- (rev_involutive (b :: rev (rev l))).
  rewrite be_value_rev. cbn [rev]. rewrite rev_involutive.
  unfold Murmur3.le_value. rewrite fold_right_app. cbn [fold_right].
  rewrite Z.mul_0_r, Z.add_0_r.
  rewrite <- (rev_involutive l) at 3. rewrite be_value_rev.
  unfold Murmur3.le_value. rewrite <- (length_rev l).
  generalize (rev l). intros r. induction r as [|x r IH].
  - cbn. lia.
  - cbn [fold_right List.length]. rewrite IH.
    rewrite Nat2Z.inj_succ, Z.pow_succ_r by lia. lia.
Qed.

(** X9: the token of the random partitioner is the absolute value of the
    MD5 checksum read as a 128-bit two's-complement number (big-endian): the
    checksum itself when its first byte is below 0x80, and 2^128 minus it
    otherwise. *)
Theorem random_token_is_the_absolute_value (checksum : list Z) :
  is_checksum checksum ->
  be_value (random_token checksum)
  = (if be_value checksum <? 2 ^ 127 then be_value checksum
     else 2 ^ 128 - be_value checksum)
  /\ be_value (random_token checksum) <= 2 ^ 127.
Proof.
  intros [Hlen Hbytes].
  destruct checksum as [|b0 rest]; [discriminate|].
  assert (Hrest : List.length rest = 15%nat) by (cbn in Hlen; lia).
  inversion Hbytes as [|? ? Hb0 Hr]; subst.
  pose proof (be_value_hd b0 rest Hr) as Hv. rewrite Hrest in Hv.
  assert (Hrb : 0 <= be_value rest < 256 ^ 15).
  { rewrite <- (rev_involutive rest), be_value_rev.
    replace 15 with (Z.of_nat (List.length (rev rest)))
      by (rewrite length_rev, Hrest; reflexivity).
    apply le_value_bound. apply Forall_rev. assumption. }
  change (Z.of_nat 15) with 15 in Hv.
  unfold random_token. cbn [hd].
  destruct (Z.ltb_spec b0 0x80) as [Hlo|Hhi].
  - destruct (Z.ltb_spec (be_value (b0 :: rest)) (2 ^ 127)); lia.
  - rewrite be_value_rev.
    rewrite le_value_negate_low.
    + rewrite length_rev. cbn [List.length]. rewrite Hrest.
      rewrite <- be_value_rev, rev_involutive.
      change (256 ^ Z.of_nat 16) with (2 ^ 128).
      destruct (Z.ltb_spec (be_value (b0 :: rest)) (2 ^ 127)); lia.
    + apply Forall_rev. assumption.
    + rewrite <- be_value_rev, rev_involutive. lia.
Qed.

Lemma random_token_is_the_absolute_value_witness :
  be_value (random_token (0xff :: repeat 0xff 14 ++ [0xfe])) = 2.
Proof.
  refine (proj1 (random_token_is_the_absolute_value
                   (0xff :: repeat 0xff 14 ++ [0xfe]) _)).
  split; [reflexivity|]. repeat constructor; vm_compute; discriminate.
Defined.

(** ** The decoders on a buffer that holds what they expect *)

Lemma slice_at (pre x post : list Z) :
  slice (pre ++ x ++ post) (Z.of_nat (List.length pre))
        (Z.of_nat (List.length x)) = x.
Proof.
  unfold slice. rewrite !Nat2Z.id.
  rewrite skipn_app, Nat.sub_diag, skipn_all. cbn [skipn app].
  rewrite firstn_app, Nat.sub_diag, firstn_O, app_nil_r.
  apply firstn_all.
Qed.

Lemma to_int64_small (z : Z) : - 2 ^ 63 <= z < 2 ^ 63 -> to_int64 z = z.
Proof.
  intros Hz. unfold to_int64.
  rewrite Z.mod_small by lia. lia.
Qed.

Lemma to_size_t_small (z : Z) : 0 <= z < 2 ^ 64 -> to_size_t z = z.
Proof. intros Hz. unfold to_size_t. apply Z.mod_small. lia. Qed.

(** [read_bytes] of a compressed buffer, at the bytes [x]. *)
Lemma compressed_read_bytes_at
      (c pre x post : list Z) (o : Z) (eof : bool) :
  c = pre ++ x ++ post -> o = Z.of_nat (List.length pre) ->
  Z.of_nat (List.length c) < 2 ^ 63 ->
  compressed_read_bytes (mkCompressed c o eof) (Z.of_nat (List.length x))
  = (mkCompressed c (o + Z.of_nat (List.length x)) eof, Some x).
Proof.
  intros Hc Ho Hlen. unfold compressed_read_bytes.
  cbn [file_offset uncompressed c_iseof]. unfold uncompressed_len.
  cbn [uncompressed].
  assert (Hl : Z.of_nat (List.length c)
               = Z.of_nat (List.length pre) + Z.of_nat (List.length x)
                 + Z.of_nat (List.length post)).
  { rewrite Hc, !List.length_app. lia. }
  rewrite to_size_t_small by lia. rewrite to_int64_small by lia.
  destruct (Z.gtb_spec (o + Z.of_nat (List.length x))
                       (Z.of_nat (List.length c))) as [Hgt|Hle]; [lia|].
  f_equal. f_equal. rewrite Ho, Hc. apply slice_at.
Qed.

Lemma compressed_skip_bytes_at (c : list Z) (o n : Z) (eof : bool) :
  0 <= o -> 0 <= n -> o + n < 2 ^ 63 ->
  compressed_skip_bytes (mkCompressed c o eof) n = mkCompressed c (o + n) eof.
Proof.
  intros Ho Hn Hlt. unfold compressed_skip_bytes.
  cbn [file_offset uncompressed c_iseof].
  rewrite to_size_t_small by lia. rewrite to_int64_small by lia.
  reflexivity.
Qed.

Lemma be_bytes_length (n : nat) (v : Z) : List.length (be_bytes n v) = n.
Proof.
  induction n as [|n IH]; cbn [be_bytes List.length]; [reflexivity|].
  rewrite IH. reflexivity.
Qed.

Lemma be_bytes_range (n : nat) (v : Z) :
  Forall (fun b => 0 <= b < 256) (be_bytes n v).
Proof.
  induction n as [|n IH]; cbn [be_bytes]; constructor; [|exact IH].
  change 0xff with (Z.ones 8). rewrite Z.land_ones by lia.
  apply Z.mod_pos_bound. lia.
Qed.

Lemma be_value_be_bytes (n : nat) (v : Z) :
  be_value (be_bytes n v) = v mod 256 ^ Z.of_nat n.
Proof.
  induction n as [|n IH].
  - cbn. rewrite Z.mod_1_r. reflexivity.
  - cbn [be_bytes]. rewrite be_value_hd by apply be_bytes_range.
    rewrite IH, be_bytes_length.
    change 0xff with (Z.ones 8). rewrite Z.land_ones by lia.
    rewrite Z.shiftr_div_pow2 by lia.
    replace (2 ^ (8 * Z.of_nat n)) with (256 ^ Z.of_nat n)
      by (change 256 with (2 ^ 8); rewrite <- Z.pow_mul_r by lia; reflexivity).
    rewrite Nat2Z.inj_succ, Z.pow_succ_r by lia.
    rewrite (Z.mul_comm 256). rewrite Z.rem_mul_r by lia.
    change (2 ^ 8) with 256. lia.
Qed.

Lemma string_of_bytes_of_string (s : string) :
  string_of_bytes (bytes_of_string s) = s.
Proof.
  induction s as [|c s IH]; [reflexivity|].
  cbn [bytes_of_string string_of_bytes]. rewrite IH. f_equal.
  unfold ascii_of_byte, byte_of_ascii. rewrite N2Z.id.
  apply ascii_N_embedding.
Qed.

Lemma bytes_of_string_length (s : string) :
  List.length (bytes_of_string s) = String.length s.
Proof.
  induction s as [|c s IH]; [reflexivity|].
  cbn [bytes_of_string List.length String.length]. rewrite IH. reflexivity.
Qed.

Lemma read_from_buffer_at
      (c pre x post : list Z) (o : Z) (eof : bool) :
  c = pre ++ x ++ post -> o = Z.of_nat (List.length pre) ->
  Z.of_nat (List.length c) < 2 ^ 63 ->
  read_from_buffer (mkCompressed c o eof) (Z.of_nat (List.length x))
  = (mkCompressed c (o + Z.of_nat (List.length x)) eof, x).
Proof.
  intros Hc Ho Hlen. unfold read_from_buffer.
  cbn [read_bytes CompressedBuffer_Buffer].
  rewrite (compressed_read_bytes_at c pre x post o eof Hc Ho Hlen).
  reflexivity.
Qed.

(** A big-endian 16-bit number below 2^15, read as a [short]. *)
Lemma read_short_at (c pre post : list Z) (o v : Z) (eof : bool) :
  c = pre ++ be_bytes 2 v ++ post -> o = Z.of_nat (List.length pre) ->
  Z.of_nat (List.length c) < 2 ^ 63 ->
  read_short (mkCompressed c o eof)
  = (mkCompressed c (o + 2) eof, to_int16 (v mod 2 ^ 16)).
Proof.
  intros Hc Ho Hlen. unfold read_short.
  pose proof (read_from_buffer_at c pre (be_bytes 2 v) post o eof Hc Ho Hlen)
    as E.
  rewrite be_bytes_length in E. change (Z.of_nat 2) with 2 in E. rewrite E.
  rewrite be_value_be_bytes. reflexivity.
Qed.

Lemma read_int_at (c pre post : list Z) (o v : Z) (eof : bool) :
  c = pre ++ be_bytes 4 v ++ post -> o = Z.of_nat (List.length pre) ->
  Z.of_nat (List.length c) < 2 ^ 63 ->
  read_int (mkCompressed c o eof)
  = (mkCompressed c (o + 4) eof, to_int32 (v mod 2 ^ 32)).
Proof.
  intros Hc Ho Hlen. unfold read_int.
  pose proof (read_from_buffer_at c pre (be_bytes 4 v) post o eof Hc Ho Hlen)
    as E.
  rewrite be_bytes_length in E. change (Z.of_nat 4) with 4 in E. rewrite E.
  rewrite be_value_be_bytes. reflexivity.
Qed.

Lemma read_longlong_at (c pre post : list Z) (o v : Z) (eof : bool) :
  c = pre ++ be_bytes 8 v ++ post -> o = Z.of_nat (List.length pre) ->
  Z.of_nat (List.length c) < 2 ^ 63 ->
  read_longlong (mkCompressed c o eof)
  = (mkCompressed c (o + 8) eof, to_int64 (v mod 2 ^ 64)).
Proof.
  intros Hc Ho Hlen. unfold read_longlong.
  pose proof (read_from_buffer_at c pre (be_bytes 8 v) post o eof Hc Ho Hlen)
    as E.
  rewrite be_bytes_length in E. change (Z.of_nat 8) with 8 in E. rewrite E.
  rewrite be_value_be_bytes. reflexivity.
Qed.

Lemma to_int16_small (z : Z) : 0 <= z < 2 ^ 15 -> to_int16 z = z.
Proof.
  intros Hz. unfold to_int16. rewrite Z.mod_small by lia. lia.
Qed.

(** A string with its 16-bit length before it. *)
Lemma read_string_at (c pre post : list Z) (o : Z) (s : string) :
  c = pre ++ Fixture.str16 s ++ post -> o = Z.of_nat (List.length pre) ->
  Z.of_nat (List.length c) < 2 ^ 63 ->
  Z.of_nat (String.length s) < 2 ^ 15 ->
  read_string (mkCompressed c o false)
  = Done (mkCompressed c (o + 2 + Z.of_nat (String.length s)) false, s).
Proof.
  intros Hc Ho Hlen Hs. unfold read_string.
  unfold Fixture.str16, Fixture.be16 in Hc. rewrite <- app_assoc in Hc.
  rewrite (read_short_at c pre (bytes_of_string s ++ post) o
                         (Z.of_nat (String.length s)) false Hc Ho Hlen).
  cbn [is_eof CompressedBuffer_Buffer c_iseof].
  rewrite Z.mod_small by lia. rewrite to_int16_small by lia.
  destruct (Z.ltb_spec (Z.of_nat (String.length s)) 0) as [Hneg|_]; [lia|].
  cbn [read_bytes CompressedBuffer_Buffer].
  rewrite <- bytes_of_string_length.
  rewrite (compressed_read_bytes_at c (pre ++ be_bytes 2 (Z.of_nat (String.length s)))
             (bytes_of_string s) post (o + 2) false).
  - rewrite string_of_bytes_of_string. reflexivity.
  - rewrite Hc, <- app_assoc. reflexivity.
  - rewrite List.length_app, be_bytes_length. lia.
  - exact Hlen.
Qed.

(** X10: a string written with its 16-bit big-endian length before it is
    read back by [read_string] from a compressed buffer that stands at it,
    and the buffer is left behind its last byte; the length must be below
    2^15. *)
Theorem read_string_reads_what_was_written
        (pre post : list Z) (s : string) :
  Z.of_nat (List.length (pre ++ Fixture.str16 s ++ post)) < 2 ^ 63 ->
  Z.of_nat (String.length s) < 2 ^ 15 ->
  read_string (mkCompressed (pre ++ Fixture.str16 s ++ post)
                            (Z.of_nat (List.length pre)) false)
  = Done (mkCompressed (pre ++ Fixture.str16 s ++ post)
                       (Z.of_nat (List.length pre) + 2
                        + Z.of_nat (String.length s)) false,
          s).
Proof.
  intros Hlen Hs. apply (read_string_at _ pre post); auto.
Qed.

Lemma read_string_reads_what_was_written_witness :
  read_string (mkCompressed ([7] ++ Fixture.str16 "key" ++ [9]) 1 false)
  = Done (mkCompressed ([7] ++ Fixture.str16 "key" ++ [9]) 6 false,
          "key"%string).
Proof.
  refine (read_string_reads_what_was_written [7] [9] "key" _ _); reflexivity.
Defined.

(** X11: a length field of [read_string] with its top bit set, that is a
    string of 2^15 bytes or more, stops the process: the length is read as
    a negative [int16_t]. *)
Theorem read_string_stops_at_a_long_string
        (pre post : list Z) (hi lo : Z) :
  Z.of_nat (List.length (pre ++ [hi; lo] ++ post)) < 2 ^ 63 ->
  0x80 <= hi < 256 -> 0 <= lo < 256 ->
  read_string (mkCompressed (pre ++ [hi; lo] ++ post)
                            (Z.of_nat (List.length pre)) false)
  = Crash.
Proof.
  intros Hlen Hhi Hlo. unfold read_string, read_short.
  pose proof (read_from_buffer_at _ pre [hi; lo] post
                (Z.of_nat (List.length pre)) false eq_refl eq_refl Hlen) as E.
  change (Z.of_nat (List.length [hi; lo])) with 2 in E. rewrite E.
  cbn [is_eof CompressedBuffer_Buffer c_iseof].
  replace (to_int16 (be_value [hi; lo]) <? 0) with true; [reflexivity|].
  symmetry. apply Z.ltb_lt. unfold be_value, to_int16. cbn [fold_left].
  replace ((0 * 256 + hi) * 256 + lo + 2 ^ 15)
    with (((hi - 128) * 256 + lo) + 1 * 2 ^ 16) by lia.
  rewrite Z.mod_add by lia. rewrite Z.mod_small by lia. lia.
Qed.

Lemma read_string_stops_at_a_long_string_witness :
  read_string (mkCompressed ([] ++ [0x80; 0] ++ [1; 2; 3]) 0 false)
  = Crash.
Proof.
  refine (read_string_stops_at_a_long_string [] [1; 2; 3] 0x80 0 _ _ _);
    vm_compute; intuition discriminate.
Defined.

(** X12: on an uncompressed buffer a string of length zero cannot be read
    without the buffer reporting the end of the file: [fread] of no bytes
    returns zero.  A compressed buffer reads it and goes on. *)
Theorem empty_string_is_end_of_file_when_uncompressed (pre post : list Z) :
  read_string (mkUncompressed (pre ++ [0; 0] ++ post)
                              (Z.of_nat (List.length pre)) false)
  = Done (mkUncompressed (pre ++ [0; 0] ++ post)
                         (Z.of_nat (List.length pre) + 2) true,
          EmptyString)
  /\ (Z.of_nat (List.length (pre ++ [0; 0] ++ post)) < 2 ^ 63 ->
      read_string (mkCompressed (pre ++ [0; 0] ++ post)
                                (Z.of_nat (List.length pre)) false)
      = Done (mkCompressed (pre ++ [0; 0] ++ post)
                           (Z.of_nat (List.length pre) + 2) false,
              EmptyString)).
Proof.
  split.
  - unfold read_string, read_short, read_from_buffer.
    cbn [read_bytes UncompressedBuffer_Buffer].
    unfold uncompressed_read_bytes at 1. unfold fread.
    cbn [fp fp_pos u_iseof]. change (to_size_t 2) with 2.
    change (2 =? 0) with false. cbv iota.
    replace ((0 <=? Z.of_nat (List.length pre))
             && (Z.of_nat (List.length pre) + 2
                 <=? Z.of_nat (List.length (pre ++ [0; 0] ++ post))))
      with true.
    2:{ symmetry. apply andb_true_intro. split; apply Z.leb_le;
        [lia | rewrite !List.length_app; cbn [List.length]; lia]. }
    change 2 with (Z.of_nat (List.length [0; 0])) at 2.
    rewrite slice_at.
    cbn [is_eof UncompressedBuffer_Buffer u_iseof].
    change (to_int16 (be_value [0; 0])) with 0. change (0 <? 0) with false.
    cbv iota. cbn [read_bytes UncompressedBuffer_Buffer].
    unfold uncompressed_read_bytes, fread. cbn [fp fp_pos u_iseof].
    change (to_size_t 0 =? 0) with true. reflexivity.
  - intros Hlen.
    pose proof (read_string_at _ pre post (Z.of_nat (List.length pre))
                               EmptyString eq_refl eq_refl Hlen eq_refl) as E.
    cbn [String.length] in E. change (Z.of_nat 0) with 0 in E.
    rewrite Z.add_0_r in E. exact E.
Qed.

(** ** A payload that is not read *)

Lemma skip_data_is_read_data (b b' : CompressedBuffer) (value : string) :
  read_data b = Done (b', Some value) -> skip_data b = b'.
Proof.
  unfold read_data, skip_data. destruct (read_int b) as [b1 len].
  destruct (is_eof b1); [discriminate|].
  destruct (len <? 0); [discriminate|].
  cbn [read_bytes skip_bytes CompressedBuffer_Buffer].
  unfold compressed_read_bytes, compressed_skip_bytes.
  destruct (_ >? _); [discriminate|].
  intros E. injection E as <- _. reflexivity.
Qed.

(** X13: [read_column] skips a payload that was not read.  Called while
    the payload of the current cell is pending, it leaves the reader as
    reading the payload with [read_column_data] and then calling it does. *)
Theorem read_column_skips_the_unread_payload
        (t t1 : OldSStable) (out value : string) :
  OldSStable_read_column_data t out = Done (t1, value, true) ->
  OldSStable_read_column t = OldSStable_read_column t1.
Proof.
  unfold OldSStable_read_column_data. intros E.
  inv_bind E. apply assert_Done in Ha. inv_bind E. rename a0 into b.
  inv_bind E. destruct a0 as [b' read].
  destruct read as [v|]; [|discriminate]. injection E as <- <-.
  apply skip_data_is_read_data in Ha1.
  unfold OldSStable_read_column, skip_unread_data.
  rewrite Ha, Ha0. cbn [bind]. rewrite Ha1.
  cbn [fsm with_fsm with_buffer FSM_eqb]. reflexivity.
Qed.

Lemma read_column_skips_the_unread_payload_witness :
  OldSStable_read_column (Scenario.after_activate Scenario.ka_k)
  = OldSStable_read_column
      (Scenario.after_read_column_data (Scenario.after_activate Scenario.ka_k)).
Proof.
  refine (read_column_skips_the_unread_payload
            (Scenario.after_activate Scenario.ka_k) _ EmptyString "v" _).
  vm_compute. reflexivity.
Defined.

(** ** The unsigned varint *)

Lemma lor_shift8 (r d : Z) :
  0 <= r -> r * 256 + 255 < 2 ^ 64 -> 0 <= d < 256 ->
  Z.lor (to_uint64 (Z.shiftl r 8)) d = r * 256 + d.
Proof.
  intros Hr Hlt Hd. rewrite Z.shiftl_mul_pow2 by lia. change (2 ^ 8) with 256.
  unfold to_uint64. rewrite Z.mod_small by lia.
  assert (Hland : Z.land (r * 256) d = 0).
  { apply Z.bits_inj'. intros n Hn. rewrite Z.land_spec, Z.bits_0.
    destruct (Z_lt_le_dec n 8) as [Hlo|Hhi].
    - change 256 with (2 ^ 8). rewrite Z.mul_pow2_bits_low by lia.
      reflexivity.
    - destruct (Z.eq_dec d 0) as [->|Hne];
        [rewrite Z.bits_0; apply andb_false_r|].
      rewrite (Z.bits_above_log2 d n); [apply andb_false_r | lia |].
      apply Z.lt_le_trans with 8; [|lia].
      apply Z.log2_lt_pow2; lia. }
  rewrite <- (Z.lxor_lor _ _ Hland). symmetry.
  apply Z.add_nocarry_lxor. exact Hland.
Qed.

Lemma vint_fold (extra : list Z) :
  forall r, 0 <= r -> Forall (fun b => 0 <= b < 256) extra ->
            (r + 1) * 256 ^ Z.of_nat (List.length extra) <= 2 ^ 64 ->
            fold_left (fun retval d => Z.lor (to_uint64 (Z.shiftl retval 8)) d)
                      extra r
            = be_value (r :: extra).
Proof.
  induction extra as [|d extra IH]; intros r Hr Hb Hlt.
  - cbn. lia.
  - inversion Hb as [|? ? Hd Hb']; subst.
    cbn [List.length] in Hlt. rewrite Nat2Z.inj_succ, Z.pow_succ_r in Hlt by lia.
    assert (Hp : 0 < 256 ^ Z.of_nat (List.length extra))
      by (apply Z.pow_pos_nonneg; lia).
    cbn [fold_left]. rewrite lor_shift8 by nia.
    rewrite IH by (try assumption; nia).
    rewrite !be_value_hd by (try constructor; assumption).
    cbn [List.length]. rewrite Nat2Z.inj_succ, Z.pow_succ_r by lia. lia.
Qed.

Lemma leading_ones (n : nat) :
  (n < 256)%nat ->
  (let first := Z.of_nat n in
   let k := count_leading_ones 8 first 0 in
   let m := Z.land first (Z.shiftr 0xff k) in
   (0 <=? k) && (k <=? 8) && (0 <=? m) && ((m + 1) * 256 ^ k <=? 2 ^ 64)
   && (if first <? 0x80 then k =? 0 else true)) = true.
Proof.
  intros Hn.
  do 256 (destruct n as [|n]; [vm_compute; reflexivity|]). lia.
Qed.

(** X14: [read_unsigned_vint] on a compressed buffer reads the first byte
    and as many more bytes as the first byte has leading one bits, and
    returns the big-endian number made of the other bits of the first byte
    and of those bytes. *)
Theorem read_unsigned_vint_decodes
        (pre extra post : list Z) (first : Z) (eof : bool) :
  Z.of_nat (List.length (pre ++ first :: extra ++ post)) < 2 ^ 63 ->
  0 <= first < 256 -> Forall (fun b => 0 <= b < 256) extra ->
  Z.of_nat (List.length extra) = count_leading_ones 8 first 0 ->
  read_unsigned_vint (mkCompressed (pre ++ first :: extra ++ post)
                                   (Z.of_nat (List.length pre)) eof)
  = (mkCompressed (pre ++ first :: extra ++ post)
                  (Z.of_nat (List.length pre) + 1
                   + Z.of_nat (List.length extra)) eof,
     be_value (Z.land first (Z.shiftr 0xff (Z.of_nat (List.length extra)))
                      :: extra)).
Proof.
  intros Hlen Hfirst Hextra Hk.
  pose proof (leading_ones (Z.to_nat first) ltac:(lia)) as Hc.
  rewrite Z2Nat.id in Hc by lia. cbv zeta in Hc. rewrite <- Hk in Hc.
  apply andb_prop in Hc. destruct Hc as [Hc Hfast].
  apply andb_prop in Hc. destruct Hc as [Hc Hfit].
  apply andb_prop in Hc. destruct Hc as [Hc Hm].
  apply andb_prop in Hc. destruct Hc as [Hk0 Hk8].
  apply Z.leb_le in Hk0, Hk8, Hm, Hfit.
  set (c := pre ++ first :: extra ++ post) in *.
  unfold read_unsigned_vint. cbn [read_bytes CompressedBuffer_Buffer].
  pose proof (compressed_read_bytes_at c pre [first] (extra ++ post)
                (Z.of_nat (List.length pre)) eof eq_refl eq_refl Hlen) as E1.
  change (Z.of_nat (List.length [first])) with 1 in E1. rewrite E1. cbn [hd].
  destruct (Z.ltb_spec first 0x7f) as [Hlow|Hhigh].
  - destruct (Z.ltb_spec first 0x80) as [_|Hbad]; [|lia].
    apply Z.eqb_eq in Hfast.
    destruct extra as [|x extra]; [|cbn [List.length] in Hfast; lia].
    cbn [List.length]. change (Z.of_nat 0) with 0. rewrite Z.add_0_r.
    f_equal. unfold be_value. cbn [fold_left].
    change (Z.shiftr 255 0) with (Z.ones 8). rewrite Z.land_ones by lia.
    rewrite Z.mod_small by lia. reflexivity.
  - rewrite <- Hk.
    rewrite (compressed_read_bytes_at c (pre ++ [first]) extra post
               (Z.of_nat (List.length pre) + 1) eof).
    + rewrite vint_fold by assumption. reflexivity.
    + subst c. rewrite <- app_assoc. reflexivity.
    + rewrite List.length_app. cbn [List.length]. lia.
    + exact Hlen.
Qed.

Lemma read_unsigned_vint_decodes_witness :
  read_unsigned_vint (mkCompressed ([9] ++ 0xc1 :: [2; 3] ++ [4]) 1 false)
  = (mkCompressed ([9] ++ 0xc1 :: [2; 3] ++ [4]) 4 false, 0x010203).
Proof.
  refine (read_unsigned_vint_decodes [9] [2; 3] [4] 0xc1 false _ _ _ _);
    try reflexivity.
  - split; [discriminate | reflexivity].
  - repeat constructor; discriminate.
Defined.
